(** * Verification of the text-search engine core

    Shallow embedding of the inverted index
    ([tp_indexation/partie1_corpus_et_index.py]), of its compression,
    maintenance and parallel construction
    ([tp_indexation/partie2_compression_maintenance.py]) and of the ranking
    models ([tp2_modeles/modele_booleen.py], [tp2_modeles/modele_langue.py],
    [tp2_modeles/modele_probabiliste.py], [tp2_modeles/modele_vectoriel.py]).

    Python integers are [Z]; a [dict] keyed by terms is a [gmap string];
    a [set] of document identifiers is a [gset Z], and the order in which a
    set is iterated is a parameter where a result depends on it; [bytes] is
    a list of integers in [0, 256); a raised exception is the [Raise] case
    of [outcome].  Floating-point scores are idealised as real numbers. *)

From stdpp Require Import gmap strings list sorting.
From Equations Require Import Equations.
From Stdlib Require Import Reals Lra.

Local Open Scope Z_scope.

(** ** Python built-ins used by the sources *)

(** [sorted(xs)] on a list of integers. *)
Definition sorted (xs : list Z) : list Z := merge_sort Z.le xs.

(** [xs[:k]] for an integer [k] (a negative [k] counts from the end). *)
Definition slice_to {A} (xs : list A) (k : Z) : list A :=
  if decide (0 ≤ k) then take (Z.to_nat k) xs
  else take (Z.to_nat (Z.of_nat (length xs) + k)) xs.

(** Exceptions raised by the modelled code. *)
Inductive exn : Type :=
| KeyError (key : string + Z)
| ValueError
| ZeroDivisionError.

Inductive outcome (A : Type) : Type :=
| Done (a : A)
| Raise (e : exn).
Arguments Done {A} a.
Arguments Raise {A} e.

#[export] Instance outcome_bind : MBind outcome := λ A B k m,
  match m with
  | Done a => k a
  | Raise e => Raise e
  end.

(** [bytes(xs)]: raises [ValueError] unless every item is in [range(256)]. *)
Definition bytes (xs : list Z) : outcome (list Z) :=
  if forallb (λ x, bool_decide (0 ≤ x < 256)) xs then Done xs else Raise ValueError.

(** A [for] loop whose body may raise: the state is threaded from left to
    right and the first exception leaves the loop. *)
Fixpoint for_each {A S} (body : A → S → outcome S) (xs : list A) (s : S)
  : outcome S :=
  match xs with
  | [] => Done s
  | x :: xs' => s' ← body x s; for_each body xs' s'
  end.

(** A pre-processed document [{'id': ..., 'tokens': ...}] and a raw document
    [{'id': ..., 'text': ...}]. *)
Record processed_document := ProcessedDocument {
  pd_id : Z;
  pd_tokens : list string }.

Record raw_document := RawDocument {
  rd_id : Z;
  rd_text : string }.

(** ** CompressedIndex *)

Module CompressedIndex.

(** [compress_gap_encoding]: the loop [for i in range(1, len(sorted_ids))]
    appends [sorted_ids[i] - sorted_ids[i-1]] to [gaps]. *)
Definition compress_gap_encoding (doc_ids : list Z) : list Z :=
  if bool_decide (doc_ids = []) then []
  else
    let sorted_ids := sorted doc_ids in
    foldl (λ gaps i, gaps ++ [sorted_ids !!! i - sorted_ids !!! (i - 1)%nat])
          [sorted_ids !!! 0%nat]
          (seq 1 (length sorted_ids - 1)).

(** [decompress_gap_encoding]: the loop appends [doc_ids[i-1] + gaps[i]]. *)
Definition decompress_gap_encoding (gaps : list Z) : list Z :=
  if bool_decide (gaps = []) then []
  else
    foldl (λ doc_ids i, doc_ids ++ [doc_ids !!! (i - 1)%nat + gaps !!! i])
          [gaps !!! 0%nat]
          (seq 1 (length gaps - 1)).

(** The [while number >= 128] loop of [compress_variable_byte], followed by
    the final [result.append(number % 128)]. *)
Equations? variable_byte_chunks (number : Z) : list Z
  by wf (Z.to_nat number) lt :=
  variable_byte_chunks number with decide (128 ≤ number) => {
    | left _ := Z.lor (number `mod` 128) 128 :: variable_byte_chunks (number `div` 128);
    | right _ := [number `mod` 128] }.
Proof.
  assert (number `div` 128 < number) by (apply Z.div_lt; lia).
  assert (0 ≤ number `div` 128) by (apply Z.div_pos; lia).
  lia.
Qed.

Definition compress_variable_byte (number : Z) : outcome (list Z) :=
  bytes (variable_byte_chunks number).

(** The [for byte_val in byte_data] loop with its [break]. *)
Fixpoint variable_byte_loop (byte_data : list Z) (number shift : Z) : Z :=
  match byte_data with
  | [] => number
  | byte_val :: rest =>
      let number := number + Z.shiftl (Z.land byte_val 127) shift in
      let shift := shift + 7 in
      if decide (byte_val < 128) then number
      else variable_byte_loop rest number shift
  end.

Definition decompress_variable_byte (byte_data : list Z) : Z :=
  variable_byte_loop byte_data 0 0.

(** [compress_index]: the compressed index is emptied and refilled from the
    items of [index]; [method] is compared with ['gap']. *)
Definition compress_index (index : gmap string (gset Z)) (method : string)
  : gmap string (list Z) :=
  (λ doc_ids,
     let sorted_ids := sorted (elements doc_ids) in
     if decide (method = "gap"%string) then compress_gap_encoding sorted_ids
     else sorted_ids) <$> index.

End CompressedIndex.

(** ** InvertedIndex *)

Module InvertedIndex.

(** [index] is a [defaultdict(set)] after [__init__] and a plain [dict]
    after [load_index]; [index_is_defaultdict] records which. *)
Record state := State {
  index : gmap string (gset Z);
  doc_freq : gmap string Z;
  index_is_defaultdict : bool }.

Definition init : state := State ∅ ∅ true.

(** [self.index[term]]: a [defaultdict] answers an absent key with a new
    empty set, a [dict] raises [KeyError]. *)
Definition getitem (self : state) (term : string) : outcome (gset Z) :=
  match index self !! term with
  | Some doc_ids => Done doc_ids
  | None => if index_is_defaultdict self then Done ∅ else Raise (KeyError (inl term))
  end.

(** The two statements
    [self.index[token].add(doc_id)] and
    [self.doc_freq[token] = self.doc_freq.get(token, 0) + 1]. *)
Definition post (doc_id : Z) (token : string) (self : state) : outcome state :=
  doc_ids ← getitem self token;
  Done (State (<[token := {[doc_id]} ∪ doc_ids]> (index self))
              (<[token := default 0 (doc_freq self !! token) + 1]> (doc_freq self))
              (index_is_defaultdict self)).

(** [unique_tokens = set(tokens)], in the iteration order of the set. *)
Definition unique_tokens (tokens : list string) : list string :=
  elements (list_to_set tokens : gset string).

Definition build_index (processed_documents : list processed_document)
    (self : state) : outcome state :=
  for_each (λ doc, for_each (post (pd_id doc)) (unique_tokens (pd_tokens doc)))
           processed_documents
           (State ∅ ∅ (index_is_defaultdict self)).

Definition get_posting_list (self : state) (term : string) : gset Z :=
  default ∅ (index self !! term).

(** [search]: the posting list of the first token of the query, intersected
    with the posting lists of the following ones; [processor] is
    [processor.preprocess_text]. *)
Definition search (self : state) (query : string)
    (processor : string → list string) : gset Z :=
  match processor query with
  | [] => ∅
  | first :: rest =>
      foldl (λ result_docs token, result_docs ∩ get_posting_list self token)
            (get_posting_list self first) rest
  end.

(** [save_index] writes [{term: sorted(list(doc_ids))}] as JSON; the value
    returned here is the content of the file. *)
Definition save_index (self : state) : gmap string (list Z) :=
  (λ doc_ids, sorted (elements doc_ids)) <$> index self.

(** [load_index] reads the JSON object [index_dict] back. *)
Definition load_index (index_dict : gmap string (list Z)) (self : state) : state :=
  State (list_to_set <$> index_dict)
        ((λ doc_ids, Z.of_nat (length doc_ids)) <$> index_dict)
        false.

End InvertedIndex.

(** ** IndexMaintenance *)

Module IndexMaintenance.
Import InvertedIndex.

Definition add_document (doc_id : Z) (tokens : list string) (self : state)
  : outcome state :=
  for_each (post doc_id) (unique_tokens tokens) self.

(** Body of the first loop of [remove_document]; the accumulator carries
    the index and [terms_to_remove].  [doc_ids] is the set stored under
    [term]: the loop changes the entry of the term it visits and no other, so
    the items read when the loop starts are the ones it meets. *)
Definition unpost (doc_id : Z) (item : string * gset Z)
    (acc : state * list string) : outcome (state * list string) :=
  let '(term, doc_ids) := item in
  let '(self, terms_to_remove) := acc in
  if decide (doc_id ∈ doc_ids) then
    match doc_freq self !! term with
    | None => Raise (KeyError (inl term))
    | Some freq =>
        let self' := State (<[term := doc_ids ∖ {[doc_id]}]> (index self))
                           (<[term := freq - 1]> (doc_freq self))
                           (index_is_defaultdict self) in
        if decide (freq - 1 = 0) then Done (self', terms_to_remove ++ [term])
        else Done (self', terms_to_remove)
    end
  else Done acc.

(** [del self.index.index[term]; del self.index.doc_freq[term]]. *)
Definition del_term (term : string) (self : state) : outcome state :=
  match index self !! term, doc_freq self !! term with
  | Some _, Some _ =>
      Done (State (delete term (index self)) (delete term (doc_freq self))
                  (index_is_defaultdict self))
  | _, _ => Raise (KeyError (inl term))
  end.

Definition remove_document (doc_id : Z) (self : state) : outcome state :=
  acc ← for_each (unpost doc_id) (map_to_list (index self)) (self, []);
  for_each del_term acc.2 acc.1.

Definition update_document (doc_id : Z) (new_tokens : list string)
    (self : state) : outcome state :=
  self' ← remove_document doc_id self;
  add_document doc_id new_tokens self'.

(** Body of the loop of [merge_indexes]. *)
Definition merge_term (item : string * gset Z) (self : state) : outcome state :=
  let '(term, doc_ids) := item in
  own ← getitem self term;
  Done (State (<[term := own ∪ doc_ids]> (index self))
              (<[term := Z.of_nat (size (own ∪ doc_ids))]> (doc_freq self))
              (index_is_defaultdict self)).

Definition merge_indexes (other_index : gmap string (gset Z)) (self : state)
  : outcome state :=
  for_each merge_term (map_to_list other_index) self.

End IndexMaintenance.

(** ** Parallel construction *)

(** [range(0, stop, step)] for [step >= 1]. *)
Definition range_step (stop step : nat) : list nat :=
  (λ k, k * step)%nat <$> seq 0 ((stop + step - 1) / step)%nat.

Section Preprocessing.

(** [CorpusProcessor(language).preprocess_text(text)]: the text normaliser
    (NLTK tokeniser, stop words and stemmer) is a parameter. *)
Variable preprocess_text : string → string → list string.

(** [CorpusProcessor.preprocess_corpus]. *)
Definition preprocess_corpus (language : string) (documents : list raw_document)
  : list processed_document :=
  (λ doc, ProcessedDocument (rd_id doc) (preprocess_text language (rd_text doc)))
    <$> documents.

Definition process_document_batch (args : list raw_document * string)
  : list processed_document :=
  let '(doc_batch, language) := args in
  (λ doc, ProcessedDocument (rd_id doc) (preprocess_text language (rd_text doc)))
    <$> doc_batch.

(** [build_index_parallel]: [executor.map] returns the results of the
    batches in the order of the batches; [ProcessPoolExecutor] refuses a
    non-positive [max_workers]. *)
Definition build_index_parallel (num_workers : Z)
    (documents : list raw_document) (language : string)
  : outcome (InvertedIndex.state * list processed_document) :=
  if decide (num_workers = 0) then Raise ZeroDivisionError
  else
    let batch_size :=
      Z.to_nat (Z.max 1 (Z.of_nat (length documents) `div` num_workers)) in
    let batches :=
      (λ i, take batch_size (drop i documents))
        <$> range_step (length documents) batch_size in
    if decide (num_workers ≤ 0) then Raise ValueError
    else
      let results := (λ batch, process_document_batch (batch, language)) <$> batches in
      let processed_docs := concat results in
      index ← InvertedIndex.build_index processed_docs InvertedIndex.init;
      Done (index, processed_docs).

End Preprocessing.

(** ** Ranking models *)

(** [math.log10], which raises [ValueError] outside its domain. *)
Definition log10 (x : R) : R := (ln x / ln 10)%R.

Definition math_log10 (x : R) : outcome R :=
  if Rlt_dec 0 x then Done (log10 x) else Raise ValueError.

(** True division [x / y] of Python numbers. *)
Definition truediv (x y : R) : outcome R :=
  if Req_dec_T y 0 then Raise ZeroDivisionError else Done (x / y)%R.

(** [d[k] = d.get(k, 0) + 1] on a [defaultdict(int)]. *)
Definition incr `{Countable K} (k : K) (d : gmap K Z) : gmap K Z :=
  <[k := default 0 (d !! k) + 1]> d.

(** A [dict] whose iteration order matters: keys in the order of their first
    insertion. *)
Fixpoint dict_set {V} (k : Z) (v : V) (d : list (Z * V)) : list (Z * V) :=
  match d with
  | [] => [(k, v)]
  | (k', v') :: d' =>
      if decide (k = k') then (k, v) :: d' else (k', v') :: dict_set k v d'
  end.

Fixpoint dict_get {V} (k : Z) (d : list (Z * V)) : option V :=
  match d with
  | [] => None
  | (k', v') :: d' => if decide (k = k') then Some v' else dict_get k d'
  end.

(** [sorted(items, key=lambda x: x[1], reverse=True)]: the sort is stable,
    also with [reverse=True], so items of equal score keep their order. *)
Fixpoint insert_by_score (x : Z * R) (l : list (Z * R)) : list (Z * R) :=
  match l with
  | [] => [x]
  | y :: l' =>
      if Rlt_dec x.2 y.2 then y :: insert_by_score x l' else x :: y :: l'
  end.

Definition sorted_by_score_desc (items : list (Z * R)) : list (Z * R) :=
  foldr insert_by_score [] items.

(** The common tail of every [search]: sort, then [scores[:top_k]]. *)
Definition rank (items : list (Z * R)) (top_k : Z) : list (Z * R) :=
  slice_to (sorted_by_score_desc items) top_k.

Module ModeleLangue.

Record model := Model {
  index : gmap string (gset Z);
  documents : list processed_document;
  num_docs : Z;
  lambda_param : R;
  tf : gmap Z (gmap string Z);
  doc_lengths : gmap Z Z;
  collection_tf : gmap string Z;
  collection_length : Z;
  collection_prob : gmap string R }.

(** The tables filled by the loops of [__init__]. *)
Record counts := Counts {
  c_tf : gmap Z (gmap string Z);
  c_doc_lengths : gmap Z Z;
  c_collection_tf : gmap string Z;
  c_collection_length : Z }.

Definition count_token (doc_id : Z) (c : counts) (token : string) : counts :=
  Counts (<[doc_id := incr token (default ∅ (c_tf c !! doc_id))]> (c_tf c))
         (c_doc_lengths c)
         (incr token (c_collection_tf c))
         (c_collection_length c + 1).

Definition count_document (c : counts) (doc : processed_document) : counts :=
  foldl (count_token (pd_id doc))
        (Counts (c_tf c)
                (<[pd_id doc := Z.of_nat (length (pd_tokens doc))]> (c_doc_lengths c))
                (c_collection_tf c) (c_collection_length c))
        (pd_tokens doc).

Definition init (index_inverse : gmap string (gset Z))
    (documents : list processed_document) (lambda_param : R) : model :=
  let c := foldl count_document (Counts ∅ ∅ ∅ 0) documents in
  Model index_inverse documents (Z.of_nat (length documents)) lambda_param
        (c_tf c) (c_doc_lengths c) (c_collection_tf c) (c_collection_length c)
        ((λ count, IZR count / IZR (Z.max (c_collection_length c) 1))%R
           <$> c_collection_tf c).

(** [self.tf[doc_id][term]] on the nested [defaultdict]. *)
Definition tf_get (self : model) (doc_id : Z) (term : string) : Z :=
  default 0 (default ∅ (tf self !! doc_id) !! term).

Definition _compute_term_probability (self : model) (doc_id : Z) (term : string)
  : outcome R :=
  match doc_lengths self !! doc_id with
  | None => Raise (KeyError (inr doc_id))
  | Some doc_length =>
      let doc_prob :=
        if decide (doc_length = 0) then 0%R
        else (IZR (tf_get self doc_id term) / IZR doc_length)%R in
      let collection_prob :=
        default (1 / IZR (Z.max (collection_length self) 1))%R
                (collection_prob self !! term) in
      Done (lambda_param self * doc_prob
            + (1 - lambda_param self) * collection_prob)%R
  end.

(** What one query term adds to [score] in the loop of [search]. *)
Definition term_contribution (self : model) (doc_id : Z) (term : string)
  : outcome R :=
  prob ← _compute_term_probability self doc_id term;
  if Rlt_dec 0 prob then math_log10 prob
  else math_log10 (1 / 10 ^ 10)%R.

Definition score_document (self : model) (query_terms : list string) (doc_id : Z)
  : outcome R :=
  for_each (λ term score,
              contribution ← term_contribution self doc_id term;
              Done (score + contribution)%R)
           query_terms 0%R.

Definition search (self : model) (query : string)
    (processor : string → list string) (top_k : Z) : outcome (list (Z * R)) :=
  let query_terms := processor query in
  if bool_decide (query_terms = []) then Done []
  else
    doc_scores ←
      for_each (λ doc doc_scores,
                  score ← score_document self query_terms (pd_id doc);
                  Done (dict_set (pd_id doc) score doc_scores))
               (documents self) [];
    Done (rank doc_scores top_k).

Definition get_results_ranked (self : model) (query : string)
    (processor : string → list string) (top_k : Z) : outcome (list Z) :=
  results ← search self query processor top_k;
  Done (results.*1).

End ModeleLangue.

Module ModeleProbabiliste.

Record model := Model {
  index : gmap string (gset Z);
  documents : list processed_document;
  num_docs : Z;
  k1 : R;
  b : R;
  tf : gmap Z (gmap string Z);
  df : gmap string Z;
  doc_lengths : gmap Z Z;
  avg_doc_length : R }.

Record counts := Counts {
  c_tf : gmap Z (gmap string Z);
  c_df : gmap string Z;
  c_doc_lengths : gmap Z Z }.

(** [self.tf[doc_id][token] += 1], then [self.df[token] += 1] when this was
    the first occurrence of the token under this identifier. *)
Definition count_token (doc_id : Z) (c : counts) (token : string) : counts :=
  let row := incr token (default ∅ (c_tf c !! doc_id)) in
  Counts (<[doc_id := row]> (c_tf c))
         (if decide (row !! token = Some 1) then incr token (c_df c) else c_df c)
         (c_doc_lengths c).

Definition count_document (c : counts) (doc : processed_document) : counts :=
  foldl (count_token (pd_id doc))
        (Counts (c_tf c) (c_df c)
                (<[pd_id doc := Z.of_nat (length (pd_tokens doc))]> (c_doc_lengths c)))
        (pd_tokens doc).

Definition init (index_inverse : gmap string (gset Z))
    (documents : list processed_document) (k1 b : R) : model :=
  let c := foldl count_document (Counts ∅ ∅ ∅) documents in
  Model index_inverse documents (Z.of_nat (length documents)) k1 b
        (c_tf c) (c_df c) (c_doc_lengths c)
        (if decide (c_doc_lengths c = ∅) then 0%R
         else
           let total := map_fold (λ _ len total, total + len) 0 (c_doc_lengths c) in
           (IZR total / IZR (Z.of_nat (size (c_doc_lengths c))))%R).

(** [self.df[term]] on the [defaultdict(int)]. *)
Definition df_get (self : model) (term : string) : Z :=
  default 0 (df self !! term).

Definition _compute_idf (self : model) (term : string) : outcome R :=
  if decide (df_get self term = 0) then Done 0%R
  else
    ratio ← truediv (IZR (num_docs self) - IZR (df_get self term) + 0.5)
                    (IZR (df_get self term) + 0.5);
    math_log10 ratio.

Definition _compute_bm25_score (self : model) (doc_id : Z) (term : string)
  : outcome R :=
  match default ∅ (tf self !! doc_id) !! term with
  | None => Done 0%R
  | Some tf =>
      match doc_lengths self !! doc_id with
      | None => Raise (KeyError (inr doc_id))
      | Some doc_length =>
          idf ← _compute_idf self term;
          let numerator := (IZR tf * (k1 self + 1))%R in
          let denominator :=
            (IZR tf + k1 self * (1 - b self + b self
               * (IZR doc_length / Rmax (avg_doc_length self) 1)))%R in
          ratio ← truediv numerator denominator;
          Done (idf * ratio)%R
      end
  end.

(** [doc_scores[doc_id] += score] on the [defaultdict(float)]. *)
Definition add_score (doc_id : Z) (score : R) (doc_scores : list (Z * R))
  : list (Z * R) :=
  dict_set doc_id (default 0%R (dict_get doc_id doc_scores) + score)%R doc_scores.

(** [for doc_id in self.index[term]] iterates a Python [set], whose order is
    not fixed by its elements: it follows the hash table of the object, hence
    the history of its insertions ([{1, 9}] and [{9, 1}] are equal and are
    iterated differently).  The order in which the set stored under a term
    is met is therefore a parameter of [search]. *)
Section SetIteration.
Variable iteration : string → gset Z → list Z.

Definition search (self : model) (query : string)
    (processor : string → list string) (top_k : Z) : outcome (list (Z * R)) :=
  let query_terms := processor query in
  if bool_decide (query_terms = []) then Done []
  else
    doc_scores ←
      for_each (λ term doc_scores,
                  match index self !! term with
                  | None => Done doc_scores
                  | Some doc_ids =>
                      for_each (λ doc_id doc_scores,
                                  score ← _compute_bm25_score self doc_id term;
                                  Done (add_score doc_id score doc_scores))
                               (iteration term doc_ids) doc_scores
                  end)
               query_terms [];
    Done (rank doc_scores top_k).

(** [[doc_id for doc_id, score in results if score > 0]]. *)
Definition get_results_ranked (self : model) (query : string)
    (processor : string → list string) (top_k : Z) : outcome (list Z) :=
  results ← search self query processor top_k;
  Done (omap (λ item : Z * R, if Rlt_dec 0 item.2 then Some item.1 else None)
             (results : list (Z * R))).

End SetIteration.

End ModeleProbabiliste.

Module ModeleVectoriel.

(** The fields that [__init__] leaves in a model; [doc_vectors] is a [dict]
    in the order of the documents. *)
Record model := Model {
  num_docs : Z;
  vocabulary : list string;
  term_to_idx : gmap string nat;
  df : gmap string Z;
  doc_vectors : list (Z * list R) }.

Definition np_zeros (n : nat) : list R := replicate n 0%R.

Definition np_dot (u v : list R) : R :=
  foldr Rplus 0%R (zip_with Rmult u v).

Definition np_linalg_norm (v : list R) : R :=
  sqrt (foldr Rplus 0%R ((λ x, x * x)%R <$> v)).

Definition count_query_term (self : model) (query_tf : list (string * Z))
    (term : string) : list (string * Z) :=
  if decide (term ∈ vocabulary self) then
    match list_find (λ item, item.1 = term) query_tf with
    | Some (i, (_, count)) => <[i := (term, count + 1)]> query_tf
    | None => query_tf ++ [(term, 1)]
    end
  else query_tf.

Definition _compute_query_vector (self : model) (query_terms : list string)
  : outcome (list R) :=
  let query_tf := foldl (count_query_term self) [] query_terms in
  vector ←
    for_each (λ '(term, count) vector,
                log_count ← math_log10 (IZR count);
                let tf_value := (1 + log_count)%R in
                ratio ← truediv (IZR (num_docs self))
                                (IZR (Z.max (default 0 (df self !! term)) 1));
                idf_value ← math_log10 ratio;
                match term_to_idx self !! term with
                | None => Raise (KeyError (inl term))
                | Some idx => Done (<[idx := (tf_value * idf_value)%R]> vector)
                end)
             query_tf (np_zeros (length (vocabulary self)));
  let norm := np_linalg_norm vector in
  if Rlt_dec 0 norm then Done ((λ x, x / norm)%R <$> vector) else Done vector.

Definition search (self : model) (query : string)
    (processor : string → list string) (top_k : Z) : outcome (list (Z * R)) :=
  let query_terms := processor query in
  if bool_decide (query_terms = []) then Done []
  else
    query_vector ← _compute_query_vector self query_terms;
    let scores :=
      (λ '(doc_id, doc_vector), (doc_id, np_dot query_vector doc_vector))
        <$> doc_vectors self in
    Done (rank scores top_k).

Definition get_results_ranked (self : model) (query : string)
    (processor : string → list string) (top_k : Z) : outcome (list Z) :=
  results ← search self query processor top_k;
  Done (omap (λ item : Z * R, if Rlt_dec 0 item.2 then Some item.1 else None)
             (results : list (Z * R))).

End ModeleVectoriel.

Module ModeleBooleen.

Record model := Model {
  index : gmap string (gset Z);
  num_docs : Z }.

(** [max(xs)] of a collection that is not empty. *)
Definition py_max (xs : list Z) : option Z :=
  match xs with
  | [] => None
  | x :: xs' => Some (foldl Z.max x xs')
  end.

(** [__init__]: [num_docs] is the largest identifier of the posting sets that
    are not empty, and 0 when there is none. *)
Definition init (index_inverse : gmap string (gset Z)) : model :=
  Model index_inverse
        (default 0 (py_max (omap (λ item : string * gset Z, py_max (elements item.2))
                                 (map_to_list index_inverse)))).

Definition get_posting_list (self : model) (term : string) : gset Z :=
  default ∅ (index self !! term).

Definition search_and (self : model) (terms : list string) : gset Z :=
  match terms with
  | [] => ∅
  | first :: rest =>
      foldl (λ result term, result ∩ get_posting_list self term)
            (get_posting_list self first) rest
  end.

Definition search_or (self : model) (terms : list string) : gset Z :=
  match terms with
  | [] => ∅
  | first :: rest =>
      foldl (λ result term, result ∪ get_posting_list self term)
            (get_posting_list self first) rest
  end.

(** [all_docs = set(range(1, self.num_docs + 1))]. *)
Definition search_not (self : model) (term : string) : gset Z :=
  let term_docs := get_posting_list self term in
  let all_docs : gset Z := list_to_set (seqZ 1 (num_docs self)) in
  all_docs ∖ term_docs.

Definition search (self : model) (query : string)
    (processor : string → list string) : gset Z :=
  let query_terms := processor query in
  if bool_decide (query_terms = []) then ∅ else search_and self query_terms.

Definition get_results_ranked (self : model) (query : string)
    (processor : string → list string) : list Z :=
  sorted (elements (search self query processor)).

End ModeleBooleen.

(** ** Properties stated about the index and the models *)

(** The frequency table is the table of the sizes of the posting sets: every
    term of the index has its number of documents as frequency, and no other
    term has a frequency. *)
Definition doc_freq_consistent (self : InvertedIndex.state) : Prop :=
  ∀ term, InvertedIndex.doc_freq self !! term
          = (λ doc_ids : gset Z, Z.of_nat (size doc_ids))
              <$> InvertedIndex.index self !! term.

(** [doc_freq[t] == len(index[t])] for every term [t] present in the index. *)
Definition doc_freq_matches (self : InvertedIndex.state) : Prop :=
  ∀ term doc_ids, InvertedIndex.index self !! term = Some doc_ids →
                  InvertedIndex.doc_freq self !! term = Some (Z.of_nat (size doc_ids)).


#[local] Instance R_eq_dec : EqDecision R := Req_dec_T.

(** A term that the counting loops of the language model have not met. *)
Definition unseen (term : string) (c : ModeleLangue.counts) : Prop :=
  ModeleLangue.c_collection_tf c !! term = None
  ∧ ∀ doc_id, default ∅ (ModeleLangue.c_tf c !! doc_id) !! term = None.

(** What the counting loops of the BM25 model guarantee about its tables:
    stored term counts are at least 1, document frequencies and document
    lengths are not negative. *)
Definition tables_well_formed (tf : gmap Z (gmap string Z)) (df : gmap string Z)
    (doc_lengths : gmap Z Z) : Prop :=
  (∀ doc_id row term count, tf !! doc_id = Some row → row !! term = Some count → 1 ≤ count)
  ∧ (∀ term count, df !! term = Some count → 0 ≤ count)
  ∧ (∀ doc_id len, doc_lengths !! doc_id = Some len → 0 ≤ len).

(** The documents whose row of [tf] has an entry for the term. *)
Definition holders (tf : gmap Z (gmap string Z)) (term : string) : gset Z :=
  dom (filter (λ entry : Z * gmap string Z, is_Some (entry.2 !! term)) tf).

(** Invariant of the counting loops of the BM25 model after [n] documents:
    the document frequency of a term is the number of rows that hold it, and
    every row belongs to a document whose length is recorded. *)
Definition counts_invariant (c : ModeleProbabiliste.counts) (n : nat) : Prop :=
  tables_well_formed (ModeleProbabiliste.c_tf c) (ModeleProbabiliste.c_df c)
                     (ModeleProbabiliste.c_doc_lengths c)
  ∧ (∀ term, default 0 (ModeleProbabiliste.c_df c !! term)
             = Z.of_nat (size (holders (ModeleProbabiliste.c_tf c) term)))
  ∧ dom (ModeleProbabiliste.c_tf c) ⊆ dom (ModeleProbabiliste.c_doc_lengths c)
  ∧ (size (dom (ModeleProbabiliste.c_doc_lengths c)) ≤ n)%nat.

(** What [__init__] guarantees about a BM25 model: well-formed tables, and
    no term is in more documents than there are. *)
Definition well_formed (self : ModeleProbabiliste.model) : Prop :=
  tables_well_formed (ModeleProbabiliste.tf self) (ModeleProbabiliste.df self)
                     (ModeleProbabiliste.doc_lengths self)
  ∧ ∀ term, ModeleProbabiliste.df_get self term ≤ ModeleProbabiliste.num_docs self.

(** [tf(t, d)] as a number: 0 when the term is not in the row of the document. *)
Definition term_frequency (self : ModeleProbabiliste.model) (doc_id : Z)
    (term : string) : Z :=
  default 0 (default ∅ (ModeleProbabiliste.tf self !! doc_id) !! term).

(** What every iteration of a Python [set] guarantees: each element is met
    once and nothing else is. *)
Definition iterates (iteration : string → gset Z → list Z) : Prop :=
  ∀ term doc_ids, iteration term doc_ids ≡ₚ elements doc_ids.




(** The documents of a list that contain a term. *)
Definition containing (term : string) (docs : list processed_document)
  : list processed_document :=
  filter (λ doc, term ∈ pd_tokens doc) docs.

(** The identifiers that a list of gaps stands for, after [start]. *)
Fixpoint running_sums (start : Z) (gaps : list Z) : list Z :=
  match gaps with
  | [] => []
  | gap :: gaps' => (start + gap) :: running_sums (start + gap) gaps'
  end.

(** The differences between neighbours of a list that follows [prev]. *)
Fixpoint successive_differences (prev : Z) (ids : list Z) : list Z :=
  match ids with
  | [] => []
  | x :: ids' => (x - prev) :: successive_differences x ids'
  end.

(** Invariant of the counting loops of the language model: stored counts are
    at least 1, document lengths and the collection length are not negative. *)
Definition counts_positive (c : ModeleLangue.counts) : Prop :=
  (∀ term count, ModeleLangue.c_collection_tf c !! term = Some count → 1 ≤ count)
  ∧ (∀ doc_id row term count,
       ModeleLangue.c_tf c !! doc_id = Some row → row !! term = Some count → 1 ≤ count)
  ∧ (∀ doc_id len, ModeleLangue.c_doc_lengths c !! doc_id = Some len → 0 ≤ len)
  ∧ 0 ≤ ModeleLangue.c_collection_length c.

(** ** Small corpora used in the examples *)

Definition one_document : list processed_document :=
  [ProcessedDocument 1 ["a"%string]].

Definition low_tf_docs : list processed_document :=
  [ProcessedDocument 1 ["a"; "b"]%string; ProcessedDocument 2 ["a"; "c"]%string].

Definition high_tf_docs : list processed_document :=
  [ProcessedDocument 1 ["a"; "a"]%string; ProcessedDocument 2 ["a"; "c"]%string].



(** Two iteration orders of sets: by ascending and by descending identifier. *)
Definition ascending_iteration (term : string) (doc_ids : gset Z) : list Z :=
  sorted (elements doc_ids).


(** * Proofs *)

#[local] Set Warnings "-clear-no-such-hyp".

(** ** Real logarithms and the outcome of numeric primitives *)

Lemma math_log10_pos (x : R) : (0 < x)%R → math_log10 x = Done (log10 x).
Proof. intros Hx. unfold math_log10. by destruct (Rlt_dec 0 x). Qed.

Lemma ln_10_pos : (0 < ln 10)%R.
Proof. rewrite <- ln_1. apply ln_increasing; lra. Qed.

Lemma log10_inj (x y : R) : (0 < x)%R → (0 < y)%R → log10 x = log10 y → x = y.
Proof.
  intros Hx Hy Heq. apply ln_inv; [done | done |].
  unfold log10 in Heq. pose proof ln_10_pos.
  apply (Rmult_eq_reg_r (/ ln 10)); [done |]. apply Rinv_neq_0_compat. lra.
Qed.

Lemma smoothing_floor_pos : (0 < 1 / 10 ^ 10)%R.
Proof. apply Rdiv_lt_0_compat; [lra |]. apply pow_lt. lra. Qed.

Lemma incr_lookup_ne `{Countable K} (k k' : K) (d : gmap K Z) :
  k ≠ k' → incr k d !! k' = d !! k'.
Proof. intros Hne. unfold incr. by rewrite lookup_insert_ne. Qed.

Lemma truediv_nonzero (x y : R) : y ≠ 0%R → truediv x y = Done (x / y)%R.
Proof. intros Hy. unfold truediv. by destruct (Req_dec_T y 0). Qed.

Lemma log10_nonneg (x : R) : (1 <= x)%R → (0 <= log10 x)%R.
Proof.
  intros Hx. unfold log10. pose proof ln_10_pos.
  apply Rmult_le_pos; [| left; by apply Rinv_0_lt_compat].
  destruct Hx as [Hx | <-]; [| rewrite ln_1; lra].
  left. rewrite <- ln_1. apply ln_increasing; lra.
Qed.

Lemma log10_neg (x : R) : (0 < x < 1)%R → (log10 x < 0)%R.
Proof.
  intros [Hx0 Hx1]. unfold log10. pose proof ln_10_pos.
  assert (ln x < 0)%R by (rewrite <- ln_1; by apply ln_increasing).
  assert (0 < / ln 10)%R by by apply Rinv_0_lt_compat.
  unfold Rdiv. nra.
Qed.


(** ** Sorting by score *)

Lemma insert_by_score_Permutation x l : insert_by_score x l ≡ₚ x :: l.
Proof.
  induction l as [| y l IH]; [done |]. cbn.
  destruct (Rlt_dec x.2 y.2); [| done]. rewrite IH. apply Permutation_swap.
Qed.

Lemma sorted_by_score_desc_Permutation items : sorted_by_score_desc items ≡ₚ items.
Proof.
  induction items as [| x items IH]; [done |]. cbn.
  by rewrite insert_by_score_Permutation, IH.
Qed.








Lemma for_each_Done_inv {A S} (body : A → S → outcome S) x xs s r :
  for_each body (x :: xs) s = Done r →
  ∃ s', body x s = Done s' ∧ for_each body xs s' = Done r.
Proof. cbn. destruct (body x s) as [s' |]; cbn; [eauto | done]. Qed.

Lemma dict_set_fresh {V} (k : Z) (v : V) d :
  k ∉ d.*1 → dict_set k v d = d ++ [(k, v)].
Proof.
  induction d as [| [k' v'] d IH]; [done |]. cbn. intros Hk.
  destruct (decide (k = k')) as [-> | Hne]; [set_solver |].
  rewrite IH; [done | set_solver].
Qed.

Lemma rank_nil top_k : rank [] top_k = [].
Proof. unfold rank, slice_to. cbn. destruct (decide _); by rewrite take_nil. Qed.

(** ** Dictionaries in insertion order *)









Lemma ascending_iteration_iterates : iterates ascending_iteration.
Proof. intros term doc_ids. apply merge_sort_Permutation. Qed.


(** ** The result of [rank] on two tables with the same items *)



(** ** The score table of the language model *)


(** ** The score table of the BM25 model *)







(** ** Compression *)

Module CompressedIndexFacts.
Import CompressedIndex.

Lemma lor_continuation_bit a : 0 ≤ a < 128 → Z.lor a 128 = a + 128.
Proof.
  intros Ha.
  assert (Hland : Z.land a 128 = 0).
  { replace a with (Z.land a (Z.ones 7)).
    - rewrite <- Z.land_assoc. change (Z.land (Z.ones 7) 128) with 0. apply Z.land_0_r.
    - rewrite Z.land_ones by lia. apply Z.mod_small. change (2^7) with 128. lia. }
  rewrite <- Z.lxor_lor by done. symmetry. by apply Z.add_nocarry_lxor.
Qed.

Lemma land_data_bits a : Z.land a 127 = a `mod` 128.
Proof. change 127 with (Z.ones 7). by rewrite Z.land_ones by lia. Qed.

Lemma variable_byte_chunks_last n :
  n < 128 → variable_byte_chunks n = [n `mod` 128].
Proof. intros Hn. simp variable_byte_chunks. destruct (decide (128 ≤ n)); [lia |]. by simp variable_byte_chunks. Qed.

Lemma variable_byte_chunks_more n :
  128 ≤ n →
  variable_byte_chunks n = Z.lor (n `mod` 128) 128 :: variable_byte_chunks (n `div` 128).
Proof. intros Hn. simp variable_byte_chunks. destruct (decide (128 ≤ n)); [| lia]. by simp variable_byte_chunks. Qed.

Lemma variable_byte_chunks_in_range n :
  Forall (λ x, 0 ≤ x < 256) (variable_byte_chunks n).
Proof.
  funelim (variable_byte_chunks n).
  - constructor; [| done].
    rewrite lor_continuation_bit by (apply Z.mod_pos_bound; lia).
    pose proof (Z.mod_pos_bound number 128). lia.
  - repeat constructor; pose proof (Z.mod_pos_bound number 128); lia.
Qed.

Lemma bytes_in_range xs : Forall (λ x, 0 ≤ x < 256) xs → bytes xs = Done xs.
Proof.
  intros Hxs. unfold bytes.
  replace (forallb _ xs) with true; [done |].
  symmetry. apply forallb_forall. intros x Hx. apply bool_decide_eq_true.
  rewrite Forall_forall in Hxs. apply Hxs. by apply list_elem_of_In.
Qed.

Lemma variable_byte_loop_chunks n :
  0 ≤ n → ∀ acc shift, 0 ≤ shift →
  variable_byte_loop (variable_byte_chunks n) acc shift = acc + n * 2 ^ shift.
Proof.
  intros Hn. pattern n. revert n Hn. apply Wf_Z.Zlt_0_ind.
  intros n IH Hn acc shift Hshift.
  pose proof (Z.mod_pos_bound n 128 ltac:(lia)) as Hmod.
  destruct (decide (128 ≤ n)) as [Hge | Hlt].
  - rewrite variable_byte_chunks_more by done. cbn [variable_byte_loop].
    rewrite lor_continuation_bit by done.
    destruct (decide _) as [|_]; [lia |].
    assert (n `div` 128 < n) by (apply Z.div_lt; lia).
    assert (0 ≤ n `div` 128) by (apply Z.div_pos; lia).
    rewrite IH by lia.
    rewrite land_data_bits.
    replace ((n `mod` 128 + 128) `mod` 128) with (n `mod` 128).
    2:{ rewrite <- (Z.mul_1_l 128) at 3. rewrite Z.mod_add by lia. by rewrite Z.mod_mod by lia. }
    rewrite Z.shiftl_mul_pow2 by lia.
    rewrite Z.pow_add_r by lia.
    rewrite (Z.div_mod n 128) at 3 by lia. change (2^7) with 128. ring.
  - rewrite variable_byte_chunks_last by lia. cbn [variable_byte_loop].
    rewrite Z.mod_small by lia.
    destruct (decide _); [| lia].
    rewrite land_data_bits, Z.mod_small by lia.
    by rewrite Z.shiftl_mul_pow2 by lia.
Qed.

Lemma variable_byte_loop_shift byte_data :
  ∀ acc shift, 0 ≤ shift →
  variable_byte_loop byte_data acc shift
  = acc + 2 ^ shift * variable_byte_loop byte_data 0 0.
Proof.
  induction byte_data as [| byte_val rest IH]; intros acc shift Hshift.
  - cbn. lia.
  - cbn [variable_byte_loop]. destruct (decide _).
    + rewrite Z.shiftl_mul_pow2, Z.shiftl_0_r by lia. lia.
    + rewrite (IH _ (shift + 7)), (IH _ (0 + 7)) by lia.
      rewrite Z.shiftl_mul_pow2, Z.shiftl_0_r, Z.pow_add_r by lia.
      change (2 ^ (0 + 7)) with (2 ^ 7). ring.
Qed.

(** C6.  For every non-negative integer [n], [compress_variable_byte]
    returns a byte string that [decompress_variable_byte] maps back to [n].
    Below 128 the encoding is the single byte [n]; from 128 on it is the
    seven low bits of [n] with the continuation bit set, followed by the
    encoding of [n] shifted right by seven bits.  The decoder stops at the
    first byte without the continuation bit and otherwise adds the seven data
    bits below the value of the remaining bytes. *)
Theorem variable_byte_round_trip (n : Z) :
  0 ≤ n →
  (∃ byte_data, compress_variable_byte n = Done byte_data
                ∧ decompress_variable_byte byte_data = n)
  ∧ (n < 128 → compress_variable_byte n = Done [n])
  ∧ (128 ≤ n →
     ∃ rest, compress_variable_byte (n `div` 128) = Done rest
             ∧ compress_variable_byte n = Done (Z.lor (Z.land n 127) 128 :: rest)
             ∧ Z.lor (Z.land n 127) 128 = n `mod` 128 + 128)
  ∧ (∀ byte_val rest, 0 ≤ byte_val < 128 →
     decompress_variable_byte (byte_val :: rest) = byte_val)
  ∧ (∀ byte_val rest, 128 ≤ byte_val < 256 →
     decompress_variable_byte (byte_val :: rest)
     = byte_val - 128 + 128 * decompress_variable_byte rest).
Proof.
  intros Hn. unfold compress_variable_byte. split_and!.
  - exists (variable_byte_chunks n). split.
    + apply bytes_in_range, variable_byte_chunks_in_range.
    + unfold decompress_variable_byte.
      rewrite variable_byte_loop_chunks by lia. rewrite Z.pow_0_r. lia.
  - intros Hlt. rewrite bytes_in_range by apply variable_byte_chunks_in_range.
    rewrite variable_byte_chunks_last by done. by rewrite Z.mod_small by lia.
  - intros Hge. exists (variable_byte_chunks (n `div` 128)).
    rewrite !bytes_in_range by apply variable_byte_chunks_in_range.
    rewrite land_data_bits. split_and!; [done | |].
    + by rewrite variable_byte_chunks_more by done.
    + by rewrite lor_continuation_bit by (apply Z.mod_pos_bound; lia).
  - intros byte_val rest Hb. unfold decompress_variable_byte. cbn [variable_byte_loop].
    destruct (decide _); [| lia].
    rewrite land_data_bits, Z.shiftl_0_r, Z.mod_small by lia. lia.
  - intros byte_val rest Hb. unfold decompress_variable_byte. cbn [variable_byte_loop].
    destruct (decide _); [lia |].
    rewrite variable_byte_loop_shift by lia.
    rewrite land_data_bits, Z.shiftl_0_r.
    replace (byte_val `mod` 128) with (byte_val - 128).
    2:{ replace byte_val with ((byte_val - 128) + 1 * 128) at 2 by lia.
        rewrite Z.mod_add by lia. by rewrite Z.mod_small by lia. }
    change (2 ^ (0 + 7)) with 128. lia.
Qed.

Lemma variable_byte_round_trip_witness :
  ∃ byte_data, compress_variable_byte 300 = Done byte_data
               ∧ decompress_variable_byte byte_data = 300.
Proof. apply (variable_byte_round_trip 300). lia. Defined.

Lemma foldl_append_seq {A} (h : nat → A) (n : nat) :
  ∀ (start : nat) (init : list A),
  foldl (λ acc i, acc ++ [h i]) init (seq start n) = init ++ (h <$> seq start n).
Proof.
  induction n as [| n IH]; intros start init; cbn.
  - by rewrite app_nil_r.
  - by rewrite IH, <- app_assoc.
Qed.

(** The gaps of a non-empty list, as [compress_gap_encoding] lays them out. *)
Lemma compress_gap_encoding_unfold doc_ids :
  doc_ids ≠ [] →
  compress_gap_encoding doc_ids
  = sorted doc_ids !!! 0%nat
    :: ((λ i, sorted doc_ids !!! i - sorted doc_ids !!! (i - 1)%nat)
          <$> seq 1 (length doc_ids - 1)).
Proof.
  intros Hne. unfold compress_gap_encoding.
  rewrite bool_decide_eq_false_2 by done. cbn zeta.
  rewrite foldl_append_seq. cbn [app]. do 3 f_equal.
  unfold sorted. by rewrite merge_sort_Permutation.
Qed.

Lemma sorted_length xs : length (sorted xs) = length xs.
Proof. unfold sorted. by rewrite merge_sort_Permutation. Qed.

Lemma sorted_nil_inv xs : sorted xs = [] → xs = [].
Proof.
  intros Hs. apply length_zero_iff_nil. rewrite <- sorted_length, Hs. done.
Qed.

(** Summing the gaps of any non-empty list gives the list back. *)
Lemma decompress_gaps_of (s : list Z) :
  s ≠ [] →
  decompress_gap_encoding
    (s !!! 0%nat :: ((λ i, s !!! i - s !!! (i - 1)%nat) <$> seq 1 (length s - 1)))
  = s.
Proof.
  intros Hne. unfold decompress_gap_encoding.
  rewrite bool_decide_eq_false_2 by done.
  set (gaps := s !!! 0%nat :: _).
  assert (Hlen : length gaps = length s).
  { unfold gaps. cbn. rewrite length_fmap, length_seq.
    destruct s; [done | cbn; lia]. }
  rewrite Hlen.
  assert (Hloop : ∀ k, (k ≤ length s - 1)%nat →
    foldl (λ doc_ids i, doc_ids ++ [doc_ids !!! (i - 1)%nat + gaps !!! i])
          [gaps !!! 0%nat] (seq 1 k) = take (S k) s).
  { induction k as [| k IH]; intros Hk.
    - cbn. destruct s; done.
    - rewrite seq_S, foldl_app, IH by lia. cbn [foldl].
      replace (1 + k - 1)%nat with k by lia.
      assert (is_Some (s !! k)) as [x Hx] by (apply lookup_lt_is_Some; lia).
      assert (is_Some (s !! S k)) as [y Hy] by (apply lookup_lt_is_Some; lia).
      rewrite (take_S_r s (S k) y) by done. f_equal. f_equal.
      rewrite (list_lookup_total_correct (take (S k) s) k x)
        by (rewrite lookup_take_lt by lia; done).
      unfold gaps. change (1 + k)%nat with (S k). rewrite lookup_total_cons_ne_0 by lia.
      cbn [Nat.pred].
      assert (Hg : ((λ i, s !!! i - s !!! (i - 1)%nat) <$> seq 1 (length s - 1)) !! k
                   = Some (y - x)).
      { rewrite list_lookup_fmap, lookup_seq_lt by lia. cbn.
        rewrite (list_lookup_total_correct s (S k) y) by done.
        replace (k - 0)%nat with k by lia.
        by rewrite (list_lookup_total_correct s k x) by done. }
      rewrite (list_lookup_total_correct _ _ _ Hg). lia. }
  rewrite Hloop by lia.
  apply take_ge. lia.
Qed.

Lemma gap_round_trip_sorted xs :
  decompress_gap_encoding (compress_gap_encoding xs) = sorted xs.
Proof.
  destruct (decide (xs = [])) as [-> | Hne]; [done |].
  rewrite compress_gap_encoding_unfold by done.
  rewrite <- sorted_length.
  apply decompress_gaps_of. intros Hs. by apply sorted_nil_inv in Hs.
Qed.

Lemma StronglySorted_le_NoDup_lt (l : list Z) :
  StronglySorted Z.le l → NoDup l → StronglySorted Z.lt l.
Proof.
  induction 1 as [| x l Hl IH Hx]; intros Hnd; [constructor |].
  apply NoDup_cons in Hnd as [Hnotin Hnd].
  constructor; [by apply IH |].
  rewrite Forall_forall in Hx |- *. intros y Hy.
  assert (x ≠ y) by (intros ->; done).
  specialize (Hx y Hy). lia.
Qed.

Lemma StronglySorted_lookup_rel {A} (R : relation A) (l : list A) :
  StronglySorted R l →
  ∀ i j x y, l !! i = Some x → l !! j = Some y → (i < j)%nat → R x y.
Proof.
  induction 1 as [| z l Hl IH Hz]; intros i j x y Hi Hj Hlt; [done |].
  destruct j as [| j]; [lia |]. cbn in Hj.
  rewrite Forall_forall in Hz.
  destruct i as [| i]; cbn in Hi.
  - injection Hi as ->. apply Hz. by eapply list_elem_of_lookup_2.
  - eapply IH; eauto. lia.
Qed.

(** C5.  Let [xs] list the elements of a finite set [docs] of integers, each
    once.  Decoding the gap encoding of [xs] gives the sorted list of [xs]:
    strictly increasing, with exactly the elements of [docs].  The encoding
    has one entry per identifier; when [docs] is not empty its first entry is
    the least identifier itself, and every later entry is the difference
    between an identifier and the one before it in sorted order, which is at
    least 1.  The empty list encodes and decodes to the empty list. *)
Theorem gap_encoding_round_trip (docs : gset Z) (xs : list Z) :
  NoDup xs → list_to_set xs = docs →
  let gaps := compress_gap_encoding xs in
  let ids := decompress_gap_encoding gaps in
  ids = sorted xs
  ∧ StronglySorted Z.lt ids
  ∧ (∀ x, x ∈ ids ↔ x ∈ docs)
  ∧ length gaps = length xs
  ∧ (docs ≠ ∅ → ∃ least, gaps !! 0%nat = Some least ∧ least ∈ docs ∧ ∀ x, x ∈ docs → least ≤ x)
  ∧ (∀ i prev cur, ids !! i = Some prev → ids !! (i + 1)%nat = Some cur →
       gaps !! (i + 1)%nat = Some (cur - prev) ∧ 1 ≤ cur - prev)
  ∧ compress_gap_encoding [] = []
  ∧ decompress_gap_encoding [] = [].
Proof.
  intros Hnd Hdocs gaps ids.
  assert (Hids : ids = sorted xs) by apply gap_round_trip_sorted.
  assert (Hperm : sorted xs ≡ₚ xs) by apply merge_sort_Permutation.
  assert (Hsorted : StronglySorted Z.lt ids).
  { rewrite Hids. apply StronglySorted_le_NoDup_lt.
    - apply (StronglySorted_merge_sort Z.le).
    - by rewrite Hperm. }
  assert (Hmem : ∀ x, x ∈ ids ↔ x ∈ docs).
  { intros x. rewrite Hids, Hperm, <- Hdocs. by rewrite elem_of_list_to_set. }
  split_and!; try done.
  - unfold gaps. destruct (decide (xs = [])) as [-> | Hne]; [done |].
    rewrite compress_gap_encoding_unfold by done. cbn.
    rewrite length_fmap, length_seq. destruct xs; [done | cbn; lia].
  - intros Hdocsne.
    assert (Hne : xs ≠ []) by (intros ->; apply Hdocsne; rewrite <- Hdocs; done).
    unfold gaps. rewrite compress_gap_encoding_unfold by done. cbn.
    destruct ids as [| least rest] eqn:Eids.
    { symmetry in Hids. by apply sorted_nil_inv in Hids. }
    rewrite <- Hids. cbn. exists least. split_and!; [done | |].
    + apply Hmem. left.
    + intros x Hx. apply Hmem in Hx. apply StronglySorted_inv in Hsorted as [_ Hall].
      apply elem_of_cons in Hx as [-> | Hx]; [lia |].
      rewrite Forall_forall in Hall. specialize (Hall x Hx). lia.
  - intros i prev cur Hprev Hcur.
    assert (Hne : xs ≠ []).
    { intros ->. by rewrite Hids in Hprev. }
    assert (Hi : (i + 1 < length xs)%nat).
    { rewrite <- sorted_length, <- Hids. by eapply lookup_lt_Some. }
    split.
    + unfold gaps. rewrite compress_gap_encoding_unfold by done.
      replace (i + 1)%nat with (S i) by lia.
      rewrite lookup_cons_ne_0 by lia. cbn [Nat.pred].
      rewrite list_lookup_fmap, lookup_seq_lt by lia. cbn.
      rewrite <- Hids. replace (i - 0)%nat with i by lia.
      rewrite (list_lookup_total_correct ids i prev) by done.
      replace (S i) with (i + 1)%nat by lia.
      by rewrite (list_lookup_total_correct ids (i + 1) cur) by done.
    + pose proof (StronglySorted_lookup_rel _ _ Hsorted i (i + 1)%nat prev cur
                    Hprev Hcur ltac:(lia)). lia.
Qed.

Lemma gap_encoding_round_trip_witness :
  decompress_gap_encoding (compress_gap_encoding [5; 1; 3]) = sorted [5; 1; 3].
Proof.
  apply (gap_encoding_round_trip (list_to_set [5; 1; 3]) [5; 1; 3]).
  - apply (bool_decide_unpack _). vm_compute. reflexivity.
  - reflexivity.
Defined.

End CompressedIndexFacts.

(** ** Index construction, persistence and maintenance *)

Module IndexFacts.
Import InvertedIndex IndexMaintenance.

Lemma sorted_Permutation xs : sorted xs ≡ₚ xs.
Proof. apply merge_sort_Permutation. Qed.

Lemma list_to_set_sorted_elements (doc_ids : gset Z) :
  list_to_set (sorted (elements doc_ids)) = doc_ids.
Proof.
  apply set_eq. intros x.
  by rewrite elem_of_list_to_set, sorted_Permutation, elem_of_elements.
Qed.

(** C4.  Loading what [save_index] wrote gives back the term to postings
    map of the saved index, so every term has the posting set it had; the
    frequency of a term after loading is the length of its stored posting
    list, which is the size of its posting set. *)
Theorem save_load_round_trip (self other : state) :
  let index_dict := save_index self in
  let loaded := load_index index_dict other in
  index loaded = index self
  ∧ (∀ term, get_posting_list loaded term = get_posting_list self term)
  ∧ (∀ term, doc_freq loaded !! term
             = (λ doc_ids, Z.of_nat (length doc_ids)) <$> index_dict !! term)
  ∧ (∀ term doc_ids, index self !! term = Some doc_ids →
       doc_freq loaded !! term = Some (Z.of_nat (size doc_ids))).
Proof.
  intros index_dict loaded.
  assert (Hindex : index loaded = index self).
  { apply map_eq. intros term. unfold loaded, index_dict, load_index, save_index. cbn.
    rewrite !lookup_fmap. destruct (index self !! term) as [doc_ids |]; [| done].
    cbn. by rewrite list_to_set_sorted_elements. }
  split_and!.
  - done.
  - intros term. unfold get_posting_list. by rewrite Hindex.
  - intros term. unfold loaded, load_index. cbn. by rewrite lookup_fmap.
  - intros term doc_ids Hterm. unfold loaded, index_dict, load_index, save_index. cbn.
    rewrite !lookup_fmap, Hterm. cbn. do 2 f_equal.
    by rewrite sorted_Permutation.
Qed.

Lemma save_load_round_trip_witness :
  doc_freq (load_index (save_index (State {["a"%string := {[1; 2]}]}
                                          {["a"%string := 2]} true)) init)
    !! "a"%string
  = Some (Z.of_nat (size ({[1; 2]} : gset Z))).
Proof.
  apply (save_load_round_trip (State {["a"%string := {[1; 2]}]}
                                     {["a"%string := 2]} true) init).
  vm_compute. reflexivity.
Defined.

(** On a [defaultdict] index the indexing statements never raise. *)
Lemma post_defaultdict doc_id token self :
  index_is_defaultdict self = true →
  ∃ self', post doc_id token self = Done self' ∧ index_is_defaultdict self' = true.
Proof.
  intros Hflag. unfold post, getitem. rewrite Hflag.
  destruct (index self !! token); cbn; eauto.
Qed.

Lemma for_each_post_defaultdict doc_id tokens :
  ∀ self, index_is_defaultdict self = true →
  ∃ self', for_each (post doc_id) tokens self = Done self'
           ∧ index_is_defaultdict self' = true.
Proof.
  induction tokens as [| token tokens IH]; intros self Hflag; cbn; [eauto |].
  destruct (post_defaultdict doc_id token self Hflag) as (self1 & -> & Hflag1).
  cbn. by apply IH.
Qed.

Lemma build_index_defaultdict docs :
  ∀ self, index_is_defaultdict self = true →
  ∃ self', for_each (λ doc, for_each (post (pd_id doc)) (unique_tokens (pd_tokens doc)))
             docs self = Done self'
           ∧ index_is_defaultdict self' = true.
Proof.
  induction docs as [| doc docs IH]; intros self Hflag; cbn; [eauto |].
  destruct (for_each_post_defaultdict (pd_id doc) (unique_tokens (pd_tokens doc)) self Hflag)
    as (self1 & -> & Hflag1).
  cbn. by apply IH.
Qed.

Lemma build_index_total docs self :
  index_is_defaultdict self = true →
  ∃ self', build_index docs self = Done self' ∧ index_is_defaultdict self' = true.
Proof. intros Hflag. unfold build_index. by apply build_index_defaultdict. Qed.

Lemma concat_batches {A} (l : list A) (batch_size : nat) :
  ∀ m, concat ((λ i, take batch_size (drop i l))
                 <$> ((λ k, k * batch_size)%nat <$> seq 0 m))
       = take (m * batch_size) l.
Proof.
  induction m as [| m IH]; [done |].
  rewrite seq_S, !fmap_app, concat_app, IH. cbn.
  rewrite app_nil_r, take_take_drop. f_equal. lia.
Qed.

Lemma concat_range_step {A} (l : list A) (batch_size : nat) :
  (1 ≤ batch_size)%nat →
  concat ((λ i, take batch_size (drop i l)) <$> range_step (length l) batch_size) = l.
Proof.
  intros Hbs. unfold range_step. rewrite concat_batches. apply take_ge.
  pose proof (Nat.div_mod (length l + batch_size - 1) batch_size ltac:(lia)) as Hdm.
  pose proof (Nat.mod_upper_bound (length l + batch_size - 1) batch_size ltac:(lia)).
  nia.
Qed.

Section ParallelBuild.
Variable preprocess_text : string → string → list string.

Lemma process_batches language (batches : list (list raw_document)) :
  concat ((λ batch, process_document_batch preprocess_text (batch, language)) <$> batches)
  = preprocess_corpus preprocess_text language (concat batches).
Proof.
  induction batches as [| batch batches IH]; [done |].
  rewrite fmap_cons. cbn [concat]. rewrite IH.
  unfold preprocess_corpus, process_document_batch. cbn [concat]. by rewrite fmap_app.
Qed.

(** C9.  For every positive number of workers the parallel construction
    returns the index that [build_index] builds from the sequentially
    pre-processed documents, together with those documents; in particular the
    results for 1 worker, for 4 workers and for any other positive number of
    workers are equal. *)
Theorem parallel_build_deterministic (num_workers : Z)
    (documents : list raw_document) (language : string) :
  0 < num_workers →
  ∃ index,
    build_index (preprocess_corpus preprocess_text language documents) init = Done index
    ∧ build_index_parallel preprocess_text num_workers documents language
      = Done (index, preprocess_corpus preprocess_text language documents)
    ∧ build_index_parallel preprocess_text 1 documents language
      = build_index_parallel preprocess_text num_workers documents language
    ∧ build_index_parallel preprocess_text 4 documents language
      = build_index_parallel preprocess_text num_workers documents language.
Proof.
  intros Hw.
  destruct (build_index_total (preprocess_corpus preprocess_text language documents)
              init eq_refl) as (index & Hbuild & _).
  assert (Hpar : ∀ w, 0 < w →
    build_index_parallel preprocess_text w documents language
    = Done (index, preprocess_corpus preprocess_text language documents)).
  { intros w Hpos. unfold build_index_parallel.
    destruct (decide (w = 0)); [lia |].
    destruct (decide (w ≤ 0)); [lia |].
    rewrite process_batches.
    rewrite concat_range_step by lia. by rewrite Hbuild. }
  exists index. split_and!; [done | by apply Hpar | |].
  - rewrite !Hpar by lia. done.
  - rewrite !Hpar by lia. done.
Qed.
End ParallelBuild.

Lemma parallel_build_deterministic_witness :
  ∃ index,
    build_index
      (preprocess_corpus (λ _ text, [text]) "french" [RawDocument 1 "chat"; RawDocument 2 "os"])
      init = Done index
    ∧ build_index_parallel (λ _ text, [text]) 4
        [RawDocument 1 "chat"; RawDocument 2 "os"] "french"
      = Done (index,
              preprocess_corpus (λ _ text, [text]) "french"
                [RawDocument 1 "chat"; RawDocument 2 "os"])
    ∧ build_index_parallel (λ _ text, [text]) 1
        [RawDocument 1 "chat"; RawDocument 2 "os"] "french"
      = build_index_parallel (λ _ text, [text]) 4
          [RawDocument 1 "chat"; RawDocument 2 "os"] "french"
    ∧ build_index_parallel (λ _ text, [text]) 4
        [RawDocument 1 "chat"; RawDocument 2 "os"] "french"
      = build_index_parallel (λ _ text, [text]) 4
          [RawDocument 1 "chat"; RawDocument 2 "os"] "french".
Proof.
  apply (parallel_build_deterministic (λ _ text, [text]) 4
           [RawDocument 1 "chat"; RawDocument 2 "os"] "french").
  lia.
Defined.

Lemma post_Done doc_id token self self' :
  post doc_id token self = Done self' →
  index self' = <[token := {[doc_id]} ∪ get_posting_list self token]> (index self)
  ∧ doc_freq self' = <[token := default 0 (doc_freq self !! token) + 1]> (doc_freq self)
  ∧ index_is_defaultdict self' = index_is_defaultdict self.
Proof.
  unfold post, getitem, get_posting_list.
  destruct (index self !! token) as [doc_ids |]; cbn.
  - intros [= <-]. done.
  - destruct (index_is_defaultdict self); cbn; [| done]. intros [= <-]. done.
Qed.

Lemma post_Raise doc_id token self e :
  post doc_id token self = Raise e →
  e = KeyError (inl token) ∧ index self !! token = None
  ∧ index_is_defaultdict self = false.
Proof.
  unfold post, getitem.
  destruct (index self !! token) as [doc_ids |]; cbn; [done |].
  destruct (index_is_defaultdict self); cbn; [done |]. by intros [= <-].
Qed.

Lemma post_plain_present doc_id token self :
  is_Some (index self !! token) → ∃ self', post doc_id token self = Done self'.
Proof. intros [doc_ids H]. unfold post, getitem. rewrite H. cbn. eauto. Qed.

(** Effect of the loop over the unique tokens of a document. *)
Lemma for_each_post_Done doc_id tokens :
  NoDup tokens → ∀ self self',
  for_each (post doc_id) tokens self = Done self' →
  (∀ term, index self' !! term
           = if decide (term ∈ tokens)
             then Some ({[doc_id]} ∪ get_posting_list self term)
             else index self !! term)
  ∧ (∀ term, doc_freq self' !! term
             = if decide (term ∈ tokens)
               then Some (default 0 (doc_freq self !! term) + 1)
               else doc_freq self !! term)
  ∧ index_is_defaultdict self' = index_is_defaultdict self.
Proof.
  induction 1 as [| token tokens Hnotin Hnd IH]; intros self self'; cbn.
  - intros [= <-]. split_and!; [| | done]; intros term; by rewrite decide_False by set_solver.
  - destruct (post doc_id token self) as [self1 |] eqn:Hpost; cbn; [| done].
    intros Hrest. apply post_Done in Hpost as (Hi1 & Hd1 & Hf1).
    destruct (IH _ _ Hrest) as (Hi & Hd & Hf).
    split_and!; [| | congruence]; intros term.
    + rewrite Hi. destruct (decide (term = token)) as [-> | Hne].
      * rewrite decide_False by done. rewrite decide_True by set_solver.
        by rewrite Hi1, lookup_insert_eq.
      * unfold get_posting_list. rewrite Hi1, lookup_insert_ne by done.
        destruct (decide (term ∈ tokens)).
        -- by rewrite decide_True by set_solver.
        -- by rewrite decide_False by set_solver.
    + rewrite Hd. destruct (decide (term = token)) as [-> | Hne].
      * rewrite decide_False by done. rewrite decide_True by set_solver.
        by rewrite Hd1, lookup_insert_eq.
      * rewrite Hd1, lookup_insert_ne by done.
        destruct (decide (term ∈ tokens)).
        -- by rewrite decide_True by set_solver.
        -- by rewrite decide_False by set_solver.
Qed.

Lemma for_each_post_Raise doc_id tokens :
  ∀ self e, for_each (post doc_id) tokens self = Raise e →
  index_is_defaultdict self = false
  ∧ ∃ token, e = KeyError (inl token) ∧ token ∈ tokens ∧ index self !! token = None.
Proof.
  induction tokens as [| token tokens IH]; intros self e; cbn; [done |].
  destruct (post doc_id token self) as [self1 |] eqn:Hpost; cbn.
  - intros Hrest. apply post_Done in Hpost as (Hi1 & Hd1 & Hf1).
    destruct (IH _ _ Hrest) as (Hf & t & -> & Ht & Hnone).
    split; [congruence |]. exists t. split_and!; [done | set_solver |].
    rewrite Hi1 in Hnone. apply lookup_insert_None in Hnone. tauto.
  - intros [= <-]. apply post_Raise in Hpost as (-> & Hnone & Hf).
    split; [done |]. exists token. split_and!; [done | set_solver | done].
Qed.

Lemma for_each_post_plain_missing doc_id tokens :
  ∀ self, index_is_defaultdict self = false →
  (∃ token, token ∈ tokens ∧ index self !! token = None) →
  ∃ e, for_each (post doc_id) tokens self = Raise e.
Proof.
  induction tokens as [| token tokens IH]; intros self Hflag (t & Ht & Hnone).
  - by apply elem_of_nil in Ht.
  - cbn. destruct (post doc_id token self) as [self1 | e] eqn:Hpost; cbn; [| eauto].
    assert (t ≠ token).
    { intros ->. unfold post, getitem in Hpost. by rewrite Hnone, Hflag in Hpost. }
    apply post_Done in Hpost as (Hi1 & Hd1 & Hf1).
    apply IH; [congruence |]. exists t. split; [set_solver |].
    by rewrite Hi1, lookup_insert_ne.
Qed.

Lemma for_each_post_present doc_id tokens :
  ∀ self, (∀ token, token ∈ tokens → is_Some (index self !! token)) →
  ∃ self', for_each (post doc_id) tokens self = Done self'.
Proof.
  induction tokens as [| token tokens IH]; intros self Hall; cbn; [eauto |].
  destruct (post_plain_present doc_id token self) as [self1 Hpost]; [apply Hall; set_solver |].
  rewrite Hpost. cbn. apply post_Done in Hpost as (Hi1 & _).
  apply IH. intros t Ht. rewrite Hi1.
  destruct (decide (token = t)) as [-> | Hne].
  - rewrite lookup_insert_eq. eauto.
  - rewrite lookup_insert_ne by done. apply Hall. set_solver.
Qed.

Lemma elem_of_unique_tokens token tokens :
  token ∈ unique_tokens tokens ↔ token ∈ tokens.
Proof. unfold unique_tokens. by rewrite elem_of_elements, elem_of_list_to_set. Qed.

Lemma NoDup_unique_tokens tokens : NoDup (unique_tokens tokens).
Proof. unfold unique_tokens. apply NoDup_elements. Qed.

(** C10.  An index filled by [load_index] holds a plain dictionary.  On it
    [add_document] raises [KeyError], for a token that the loaded file does
    not contain, whenever such a token is among the tokens of the document,
    and completes when every token is a term of the file.  On an index built
    by [build_index] from the constructor it always completes. *)
Theorem add_document_after_load (index_dict : gmap string (list Z))
    (other : state) (doc_id : Z) (tokens : list string) :
  index_is_defaultdict (load_index index_dict other) = false
  ∧ ((∃ token, token ∈ tokens ∧ index_dict !! token = None) →
     ∃ token, token ∈ tokens ∧ index_dict !! token = None
              ∧ add_document doc_id tokens (load_index index_dict other)
                = Raise (KeyError (inl token)))
  ∧ ((∀ token, token ∈ tokens → is_Some (index_dict !! token)) →
     ∃ self', add_document doc_id tokens (load_index index_dict other) = Done self')
  ∧ (∀ docs self, build_index docs init = Done self →
     ∃ self', add_document doc_id tokens self = Done self').
Proof.
  assert (Hlookup : ∀ token, index (load_index index_dict other) !! token = None
                             ↔ index_dict !! token = None).
  { intros token. unfold load_index. cbn. by rewrite lookup_fmap, fmap_None. }
  split_and!.
  - done.
  - intros (t & Ht & Hnone). unfold add_document.
    destruct (for_each_post_plain_missing doc_id (unique_tokens tokens)
                (load_index index_dict other) eq_refl) as [e He].
    { exists t. split; [by apply elem_of_unique_tokens | by apply Hlookup]. }
    destruct (for_each_post_Raise _ _ _ _ He) as (_ & t' & -> & Ht' & Hnone').
    exists t'. split_and!; [by apply elem_of_unique_tokens | by apply Hlookup | done].
  - intros Hall. apply for_each_post_present. intros t Ht.
    apply elem_of_unique_tokens, Hall in Ht as [l Hl].
    unfold load_index. cbn. rewrite lookup_fmap, Hl. eauto.
  - intros docs self Hbuild.
    destruct (build_index_total docs init eq_refl) as (self1 & Hbuild1 & Hflag).
    assert (self1 = self) as -> by congruence.
    destruct (for_each_post_defaultdict doc_id (unique_tokens tokens) self Hflag)
      as (self' & Hadd & _).
    by exists self'.
Qed.

Lemma add_document_after_load_witness :
  ∃ token, token ∈ ["a"%string; "b"%string]
           ∧ ({["a"%string := [1]]} : gmap string (list Z)) !! token = None
           ∧ add_document 2 ["a"%string; "b"%string]
                          (load_index {["a"%string := [1]]} init)
             = Raise (KeyError (inl token)).
Proof.
  apply (add_document_after_load {["a"%string := [1]]} init 2 ["a"%string; "b"%string]).
  exists "b"%string. split.
  - apply (bool_decide_unpack _). vm_compute. reflexivity.
  - vm_compute. reflexivity.
Defined.

Lemma unpost_loop doc_id items :
  ∀ self terms_to_remove,
  NoDup items.*1 →
  (∀ term doc_ids, (term, doc_ids) ∈ items → doc_id ∈ doc_ids →
                   is_Some (doc_freq self !! term)) →
  ∃ self1 marked,
    for_each (unpost doc_id) items (self, terms_to_remove) = Done (self1, marked)
    ∧ (∀ term, index self1 !! term
               = match (list_to_map items : gmap string (gset Z)) !! term with
                 | Some doc_ids =>
                     if decide (doc_id ∈ doc_ids) then Some (doc_ids ∖ {[doc_id]})
                     else index self !! term
                 | None => index self !! term
                 end)
    ∧ (∀ term, doc_freq self1 !! term
               = match (list_to_map items : gmap string (gset Z)) !! term with
                 | Some doc_ids =>
                     if decide (doc_id ∈ doc_ids)
                     then (λ freq, freq - 1) <$> doc_freq self !! term
                     else doc_freq self !! term
                 | None => doc_freq self !! term
                 end)
    ∧ (∀ term, term ∈ marked ↔
               term ∈ terms_to_remove
               ∨ ∃ doc_ids, (list_to_map items : gmap string (gset Z)) !! term = Some doc_ids
                            ∧ doc_id ∈ doc_ids ∧ doc_freq self !! term = Some 1)
    ∧ (NoDup terms_to_remove → (∀ term, term ∈ terms_to_remove → term ∉ items.*1) →
       NoDup marked)
    ∧ index_is_defaultdict self1 = index_is_defaultdict self.
Proof.
  induction items as [| [term0 ids0] items IH]; intros self marked0 Hnd Hfreq.
  - exists self, marked0. cbn. split_and!; try done.
    intros term. split; [eauto | intros [? | (? & ? & _)]; done].
  - cbn in Hnd. apply NoDup_cons in Hnd as [Hnotin Hnd].
    assert (Hnone : (list_to_map items : gmap string (gset Z)) !! term0 = None)
      by by apply not_elem_of_list_to_map_1.
    cbn [for_each unpost]. destruct (decide (doc_id ∈ ids0)) as [Hin | Hnin].
    + destruct (Hfreq term0 ids0 ltac:(left) Hin) as [freq Hf]. rewrite Hf.
      set (self' := State (<[term0:=ids0 ∖ {[doc_id]}]> (index self))
                          (<[term0:=freq - 1]> (doc_freq self))
                          (index_is_defaultdict self)).
      set (marked' := if decide (freq - 1 = 0) then marked0 ++ [term0] else marked0).
      assert (Hstep : (if decide (freq - 1 = 0)
                       then Done (self', marked0 ++ [term0])
                       else Done (self', marked0)) = Done (self', marked')).
      { unfold marked'. by destruct (decide (freq - 1 = 0)). }
      rewrite Hstep. clear Hstep. cbn.
      destruct (IH self' marked' Hnd) as (self1 & marked & Hrun & Hi & Hd & Hm & Hndm & Hflag).
      { intros term doc_ids Hel Hin'. unfold self'. cbn.
        destruct (decide (term0 = term)) as [-> | Hne].
        - rewrite lookup_insert_eq. eauto.
        - rewrite lookup_insert_ne by done. eapply Hfreq; [right |]; done. }
      exists self1, marked. split_and!; [done | | | | | done].
      * intros term. rewrite Hi. cbn [list_to_map foldr]. cbn.
        destruct (decide (term = term0)) as [-> | Hne].
        -- rewrite Hnone, !lookup_insert_eq. by rewrite decide_True.
        -- by rewrite !lookup_insert_ne by done.
      * intros term. rewrite Hd. cbn.
        destruct (decide (term = term0)) as [-> | Hne].
        -- rewrite Hnone, !lookup_insert_eq. rewrite decide_True by done. by rewrite Hf.
        -- by rewrite !lookup_insert_ne by done.
      * intros term. rewrite Hm. cbn.
        destruct (decide (term = term0)) as [-> | Hne].
        -- rewrite Hnone, !lookup_insert_eq, Hf. unfold marked'.
           destruct (decide (freq - 1 = 0)).
           ++ rewrite elem_of_app, list_elem_of_singleton. split; [| eauto].
              intros _. right. exists ids0. split_and!; [done | done | f_equal; lia].
           ++ split; [intros [? | (? & ? & _)]; [eauto | done] |].
              intros [? | (? & _ & _ & [= Hone])]; [eauto | lia].
        -- rewrite !lookup_insert_ne by done.
           unfold marked'. destruct (decide (freq - 1 = 0)); [| done].
           rewrite elem_of_app, list_elem_of_singleton. naive_solver.
      * intros Hnd0 Hdisj. apply Hndm.
        -- unfold marked'. destruct (decide (freq - 1 = 0)); [| done].
           apply NoDup_app. split_and!; [done | | apply NoDup_singleton].
           intros x Hx ->%list_elem_of_singleton. apply (Hdisj _ Hx). left.
        -- intros x Hx. unfold marked' in Hx. destruct (decide (freq - 1 = 0)).
           ++ apply elem_of_app in Hx as [Hx | ->%list_elem_of_singleton]; [| done].
              intros Hin'. apply (Hdisj _ Hx). by right.
           ++ intros Hin'. apply (Hdisj _ Hx). by right.
    + cbn.
      destruct (IH self marked0 Hnd) as (self1 & marked & Hrun & Hi & Hd & Hm & Hndm & Hflag).
      { intros term doc_ids Hel Hin'. eapply Hfreq; [right |]; done. }
      exists self1, marked. split_and!; [done | | | | | done].
      * intros term. rewrite Hi. cbn.
        destruct (decide (term = term0)) as [-> | Hne].
        -- rewrite Hnone, !lookup_insert_eq. by rewrite decide_False.
        -- by rewrite !lookup_insert_ne by done.
      * intros term. rewrite Hd. cbn.
        destruct (decide (term = term0)) as [-> | Hne].
        -- rewrite Hnone, !lookup_insert_eq. by rewrite decide_False.
        -- by rewrite !lookup_insert_ne by done.
      * intros term. rewrite Hm. cbn.
        destruct (decide (term = term0)) as [-> | Hne].
        -- rewrite Hnone, !lookup_insert_eq. naive_solver.
        -- by rewrite !lookup_insert_ne by done.
      * intros Hnd0 Hdisj. apply Hndm; [done |].
        intros x Hx Hin'. apply (Hdisj _ Hx). by right.
Qed.

Lemma del_term_present term self :
  is_Some (index self !! term) → is_Some (doc_freq self !! term) →
  del_term term self
  = Done (State (delete term (index self)) (delete term (doc_freq self))
                (index_is_defaultdict self)).
Proof. intros [? Hi] [? Hd]. unfold del_term. by rewrite Hi, Hd. Qed.

Lemma del_term_loop terms :
  ∀ self, NoDup terms →
  (∀ term, term ∈ terms → is_Some (index self !! term) ∧ is_Some (doc_freq self !! term)) →
  ∃ self2, for_each del_term terms self = Done self2
    ∧ (∀ term, index self2 !! term
               = if decide (term ∈ terms) then None else index self !! term)
    ∧ (∀ term, doc_freq self2 !! term
               = if decide (term ∈ terms) then None else doc_freq self !! term)
    ∧ index_is_defaultdict self2 = index_is_defaultdict self.
Proof.
  induction terms as [| term0 terms IH]; intros self Hnd Hpresent.
  - exists self. cbn. split_and!; try done; intros term; by rewrite decide_False by set_solver.
  - apply NoDup_cons in Hnd as [Hnotin Hnd].
    destruct (Hpresent term0 ltac:(left)) as [Hi0 Hd0].
    cbn [for_each]. rewrite del_term_present by done. cbn.
    set (self' := State _ _ _).
    destruct (IH self' Hnd) as (self2 & Hrun & Hi & Hd & Hflag).
    { intros term Hterm. unfold self'. cbn.
      assert (term0 ≠ term) by (intros ->; done).
      rewrite !lookup_delete_ne by done. apply Hpresent. by right. }
    exists self2. split_and!; [done | | | done].
    + intros term. rewrite Hi. unfold self'. cbn.
      destruct (decide (term = term0)) as [-> | Hne].
      * rewrite decide_False by done. rewrite decide_True by left.
        apply lookup_delete_eq.
      * rewrite lookup_delete_ne by done.
        destruct (decide (term ∈ terms)).
        -- by rewrite decide_True by (by right).
        -- by rewrite decide_False by set_solver.
    + intros term. rewrite Hd. unfold self'. cbn.
      destruct (decide (term = term0)) as [-> | Hne].
      * rewrite decide_False by done. rewrite decide_True by left.
        apply lookup_delete_eq.
      * rewrite lookup_delete_ne by done.
        destruct (decide (term ∈ terms)).
        -- by rewrite decide_True by (by right).
        -- by rewrite decide_False by set_solver.
Qed.

(** Effect of [remove_document] on an index whose frequency table covers
    the terms of the removed document. *)
Lemma remove_document_Done doc_id self :
  (∀ term doc_ids, index self !! term = Some doc_ids → doc_id ∈ doc_ids →
                   is_Some (doc_freq self !! term)) →
  ∃ self', remove_document doc_id self = Done self'
    ∧ (∀ term, index self' !! term
               = match index self !! term with
                 | Some doc_ids =>
                     if decide (doc_id ∈ doc_ids) then
                       if decide (doc_freq self !! term = Some 1) then None
                       else Some (doc_ids ∖ {[doc_id]})
                     else Some doc_ids
                 | None => None
                 end)
    ∧ (∀ term, doc_freq self' !! term
               = match index self !! term with
                 | Some doc_ids =>
                     if decide (doc_id ∈ doc_ids) then
                       if decide (doc_freq self !! term = Some 1) then None
                       else (λ freq, freq - 1) <$> doc_freq self !! term
                     else doc_freq self !! term
                 | None => doc_freq self !! term
                 end)
    ∧ index_is_defaultdict self' = index_is_defaultdict self.
Proof.
  intros Hfreq. unfold remove_document.
  destruct (unpost_loop doc_id (map_to_list (index self)) self [])
    as (self1 & marked & Hrun & Hi & Hd & Hm & Hndm & Hflag).
  { apply NoDup_fst_map_to_list. }
  { intros term doc_ids Hel. apply elem_of_map_to_list in Hel. by apply Hfreq. }
  rewrite list_to_map_to_list in Hi, Hd, Hm.
  rewrite Hrun. cbn.
  assert (Hmarked : ∀ term, term ∈ marked ↔
            ∃ doc_ids, index self !! term = Some doc_ids ∧ doc_id ∈ doc_ids
                       ∧ doc_freq self !! term = Some 1).
  { intros term. rewrite Hm. split; [intros [Hnil | ?]; [by apply elem_of_nil in Hnil | done] | eauto]. }
  destruct (del_term_loop marked self1) as (self2 & Hrun2 & Hi2 & Hd2 & Hflag2).
  { apply Hndm; [constructor | intros ? Hnil; by apply elem_of_nil in Hnil]. }
  { intros term (doc_ids & Hterm & Hin & Hone)%Hmarked.
    rewrite Hi, Hd, Hterm, Hone. rewrite !decide_True by done. cbn. eauto. }
  exists self2. split_and!; [done | | | congruence].
  - intros term. rewrite Hi2, Hi.
    destruct (index self !! term) as [doc_ids |] eqn:Hterm.
    + destruct (decide (doc_id ∈ doc_ids)) as [Hin | Hnin].
      * destruct (decide (doc_freq self !! term = Some 1)) as [Hone | Hnone].
        -- rewrite decide_True; [done |]. apply Hmarked. eauto.
        -- rewrite decide_False; [done |]. rewrite Hmarked. naive_solver.
      * rewrite decide_False; [done |]. rewrite Hmarked. naive_solver.
    + rewrite decide_False; [done |]. rewrite Hmarked. naive_solver.
  - intros term. rewrite Hd2, Hd.
    destruct (index self !! term) as [doc_ids |] eqn:Hterm.
    + destruct (decide (doc_id ∈ doc_ids)) as [Hin | Hnin].
      * destruct (decide (doc_freq self !! term = Some 1)) as [Hone | Hnone].
        -- rewrite decide_True; [done |]. apply Hmarked. eauto.
        -- rewrite decide_False; [done |]. rewrite Hmarked. naive_solver.
      * rewrite decide_False; [done |]. rewrite Hmarked. naive_solver.
    + rewrite decide_False; [done |]. rewrite Hmarked. naive_solver.
Qed.

Lemma doc_freq_consistent_matches self :
  doc_freq_consistent self → doc_freq_matches self.
Proof. intros Hc term doc_ids Hterm. by rewrite Hc, Hterm. Qed.

Lemma size_add_fresh (doc_id : Z) (doc_ids : gset Z) :
  doc_id ∉ doc_ids →
  Z.of_nat (size ({[doc_id]} ∪ doc_ids)) = Z.of_nat (size doc_ids) + 1.
Proof.
  intros Hfresh. rewrite size_union by set_solver. rewrite size_singleton. lia.
Qed.

Lemma size_remove_member (doc_id : Z) (doc_ids : gset Z) :
  doc_id ∈ doc_ids →
  Z.of_nat (size (doc_ids ∖ {[doc_id]})) = Z.of_nat (size doc_ids) - 1.
Proof.
  intros Hin. rewrite size_difference by set_solver. rewrite size_singleton.
  assert (size doc_ids ≠ 0%nat); [| lia].
  intros Hz. apply size_empty_inv in Hz. set_solver.
Qed.

Lemma for_each_post_consistent doc_id tokens self self' :
  NoDup tokens →
  doc_freq_consistent self →
  (∀ token, token ∈ tokens → doc_id ∉ get_posting_list self token) →
  for_each (post doc_id) tokens self = Done self' →
  doc_freq_consistent self'.
Proof.
  intros Hnd Hc Hfresh Hrun term.
  destruct (for_each_post_Done doc_id tokens Hnd self self' Hrun) as (Hi & Hd & _).
  rewrite Hi, Hd. destruct (decide (term ∈ tokens)) as [Hin | Hnin]; [| apply Hc].
  cbn. f_equal. rewrite size_add_fresh by by apply Hfresh.
  unfold get_posting_list. rewrite Hc. destruct (index self !! term); cbn; [done |].
  by rewrite size_empty.
Qed.

Lemma build_loop_consistent docs :
  ∀ self self',
  NoDup (pd_id <$> docs) →
  doc_freq_consistent self →
  (∀ term doc_ids x, index self !! term = Some doc_ids → x ∈ doc_ids →
                     x ∉ pd_id <$> docs) →
  for_each (λ doc, for_each (post (pd_id doc)) (unique_tokens (pd_tokens doc)))
           docs self = Done self' →
  doc_freq_consistent self'.
Proof.
  induction docs as [| doc docs IH]; intros self self' Hnd Hc Hfresh; cbn.
  - by intros [= <-].
  - apply NoDup_cons in Hnd as [Hnotin Hnd].
    destruct (for_each (post (pd_id doc)) _ self) as [self1 |] eqn:Hdoc; cbn; [| done].
    intros Hrest.
    assert (Hnew : ∀ token, pd_id doc ∉ get_posting_list self token).
    { intros token Hin. unfold get_posting_list in Hin.
      destruct (index self !! token) as [doc_ids |] eqn:Htok; [| set_solver].
      apply (Hfresh _ _ _ Htok Hin). left. }
    apply (IH self1 self' Hnd); [| | done].
    + eapply for_each_post_consistent; [apply NoDup_unique_tokens | done | | done].
      intros token _. apply Hnew.
    + destruct (for_each_post_Done _ _ (NoDup_unique_tokens _) _ _ Hdoc) as (Hi & _).
      intros term doc_ids x. rewrite Hi.
      destruct (decide (term ∈ unique_tokens (pd_tokens doc))).
      * intros [= <-] [->%elem_of_singleton | Hx]%elem_of_union; [done |].
        unfold get_posting_list in Hx.
        destruct (index self !! term) as [old |] eqn:Hterm; [| set_solver].
        intros Hin. apply (Hfresh _ _ _ Hterm Hx). by right.
      * intros Hterm Hx Hin. apply (Hfresh _ _ _ Hterm Hx). by right.
Qed.

Lemma remove_document_consistent doc_id self :
  doc_freq_consistent self →
  ∃ self', remove_document doc_id self = Done self' ∧ doc_freq_consistent self'.
Proof.
  intros Hc.
  destruct (remove_document_Done doc_id self) as (self' & Hrun & Hi & Hd & _).
  { intros term doc_ids Hterm _. rewrite Hc, Hterm. cbn. eauto. }
  exists self'. split; [done |]. intros term. rewrite Hi, Hd, Hc.
  destruct (index self !! term) as [doc_ids |] eqn:Hterm; cbn; [| done].
  destruct (decide (doc_id ∈ doc_ids)); [| done].
  destruct (decide _); cbn; [done |].
  by rewrite size_remove_member.
Qed.

Lemma merge_term_consistent item self self' :
  doc_freq_consistent self → merge_term item self = Done self' →
  doc_freq_consistent self'.
Proof.
  destruct item as [term doc_ids]. intros Hc. unfold merge_term.
  destruct (getitem self term) as [own |]; cbn; [| done].
  intros [= <-] t. cbn. destruct (decide (term = t)) as [-> | Hne].
  - by rewrite !lookup_insert_eq.
  - rewrite !lookup_insert_ne by done. apply Hc.
Qed.

Lemma merge_loop_consistent items :
  ∀ self self', doc_freq_consistent self →
  for_each merge_term items self = Done self' → doc_freq_consistent self'.
Proof.
  induction items as [| item items IH]; intros self self' Hc; cbn.
  - by intros [= <-].
  - destruct (merge_term item self) as [self1 |] eqn:Hstep; cbn; [| done].
    intros Hrest. eapply IH; [| done]. by eapply merge_term_consistent.
Qed.

(** C1, amended.  On an index whose frequency table is the table of the
    sizes of its posting sets (as after the constructor), which gives
    [doc_freq[t] == len(index[t])] for every term of the index, that relation
    holds again after [build_index] over documents with pairwise distinct
    identifiers (whatever the index held before), after [add_document] when
    the identifier is in the posting set of none of the tokens of the added
    document, after [remove_document], and after [merge_indexes].  The
    construction completes on every [defaultdict] index and the removal on
    every consistent one. *)
Theorem doc_freq_invariant :
  (∀ self, doc_freq_consistent self → doc_freq_matches self)
  ∧ doc_freq_consistent init
  ∧ (∀ docs self self',
       NoDup (pd_id <$> docs) →
       build_index docs self = Done self' → doc_freq_consistent self')
  ∧ (∀ docs self,
       index_is_defaultdict self = true → ∃ self', build_index docs self = Done self')
  ∧ (∀ doc_id tokens self self',
       doc_freq_consistent self →
       (∀ token, token ∈ tokens → doc_id ∉ get_posting_list self token) →
       add_document doc_id tokens self = Done self' → doc_freq_consistent self')
  ∧ (∀ doc_id self,
       doc_freq_consistent self →
       ∃ self', remove_document doc_id self = Done self' ∧ doc_freq_consistent self')
  ∧ (∀ other_index self self',
       doc_freq_consistent self →
       merge_indexes other_index self = Done self' → doc_freq_consistent self').
Proof.
  split_and!.
  - apply doc_freq_consistent_matches.
  - done.
  - intros docs self self' Hnd Hbuild. unfold build_index in Hbuild.
    eapply build_loop_consistent; [done | | | done].
    + done.
    + intros term doc_ids x. cbn. by rewrite lookup_empty.
  - intros docs self Hflag. destruct (build_index_total docs self Hflag) as (self' & ? & _).
    eauto.
  - intros doc_id tokens self self' Hc Hfresh Hadd. unfold add_document in Hadd.
    eapply for_each_post_consistent; [apply NoDup_unique_tokens | done | | done].
    intros token Htoken. by apply Hfresh, elem_of_unique_tokens.
  - intros doc_id self. apply remove_document_consistent.
  - intros other self self' Hc Hmerge. by eapply merge_loop_consistent.
Qed.

Lemma doc_freq_invariant_witness :
  doc_freq_consistent (State {["a"%string := {[1]}]} {["a"%string := 1]} true).
Proof.
  destruct doc_freq_invariant as (_ & _ & Hbuild & _).
  apply (Hbuild one_document init).
  - apply (bool_decide_unpack _). vm_compute. reflexivity.
  - vm_compute. reflexivity.
Defined.

Lemma doc_freq_invariant_counterexample :
  ∃ self self',
    build_index one_document init = Done self
    ∧ add_document 1 ["a"%string] self = Done self'
    ∧ ¬ doc_freq_matches self'.
Proof.
  exists (State {["a"%string := {[1]}]} {["a"%string := 1]} true),
         (State {["a"%string := {[1]}]} {["a"%string := 2]} true).
  split_and!.
  - vm_compute. reflexivity.
  - vm_compute. reflexivity.
  - intros Hm. specialize (Hm "a"%string {[1]} eq_refl). cbn in Hm.
    vm_compute in Hm. discriminate.
Qed.

Lemma state_eq (s1 s2 : state) :
  index s1 = index s2 → doc_freq s1 = doc_freq s2 →
  index_is_defaultdict s1 = index_is_defaultdict s2 → s1 = s2.
Proof. destruct s1, s2. cbn. by intros -> -> ->. Qed.

Lemma size_zero_empty (doc_ids : gset Z) : size doc_ids = 0%nat → doc_ids = ∅.
Proof. intros Hz. apply leibniz_equiv. by apply size_empty_inv. Qed.

(** C7, amended.  Take an index whose frequency table is the table of the
    sizes of its posting sets, an identifier that is in no posting set, and
    tokens none of which has an empty posting set.  Then [add_document]
    completes on a [defaultdict] index, and whenever it completes,
    [remove_document] of the same identifier gives back exactly the index
    from before the addition: same postings, same frequencies. *)
Theorem add_then_remove_restores (doc_id : Z) (tokens : list string) (self : state) :
  doc_freq_consistent self →
  (∀ term doc_ids, index self !! term = Some doc_ids → doc_id ∉ doc_ids) →
  (∀ token, token ∈ tokens → index self !! token ≠ Some ∅) →
  (index_is_defaultdict self = true →
   ∃ added, add_document doc_id tokens self = Done added)
  ∧ (∀ added, add_document doc_id tokens self = Done added →
              remove_document doc_id added = Done self).
Proof.
  intros Hc Hfresh Hnonempty. split.
  - intros Hflag.
    destruct (for_each_post_defaultdict doc_id (unique_tokens tokens) self Hflag)
      as (added & Hadd & _).
    by exists added.
  - intros added Hadd. unfold add_document in Hadd.
    destruct (for_each_post_Done _ _ (NoDup_unique_tokens tokens) _ _ Hadd)
      as (Hi & Hd & Hflag).
    destruct (remove_document_Done doc_id added) as (self' & Hrun & Hi' & Hd' & Hflag').
    { intros term doc_ids Hterm _. rewrite Hd. rewrite Hi in Hterm.
      destruct (decide _); [eauto |]. rewrite Hc, Hterm. cbn. eauto. }
    rewrite Hrun. f_equal. apply state_eq; [| | congruence].
    + apply map_eq. intros term. rewrite Hi', Hi, Hd.
      destruct (decide (term ∈ unique_tokens tokens)) as [Hin | Hnin].
      * rewrite decide_True by set_solver.
        unfold get_posting_list. rewrite Hc.
        destruct (index self !! term) as [doc_ids |] eqn:Hterm; cbn.
        -- pose proof (Hfresh _ _ Hterm) as Hnotin.
           rewrite decide_False.
           2:{ intros [= Hsz]. apply (Hnonempty term); [by apply elem_of_unique_tokens |].
               rewrite Hterm. f_equal. apply size_zero_empty. lia. }
           f_equal. set_solver.
        -- by rewrite decide_True.
      * destruct (index self !! term) as [doc_ids |] eqn:Hterm; [| done].
        pose proof (Hfresh _ _ Hterm) as Hnotin. by rewrite decide_False.
    + apply map_eq. intros term. rewrite Hd', Hi, Hd.
      destruct (decide (term ∈ unique_tokens tokens)) as [Hin | Hnin].
      * rewrite decide_True by set_solver.
        rewrite Hc.
        destruct (index self !! term) as [doc_ids |] eqn:Hterm; cbn.
        -- rewrite decide_False.
           2:{ intros [= Hsz]. apply (Hnonempty term); [by apply elem_of_unique_tokens |].
               rewrite Hterm. f_equal. apply size_zero_empty. lia. }
           f_equal. lia.
        -- by rewrite decide_True.
      * destruct (index self !! term) as [doc_ids |] eqn:Hterm; [| done].
        pose proof (Hfresh _ _ Hterm) as Hnotin. by rewrite decide_False.
Qed.

Lemma add_then_remove_counterexample :
  ∃ self added removed,
    build_index one_document init = Done self
    ∧ add_document 1 ["a"%string] self = Done added
    ∧ remove_document 1 added = Done removed
    ∧ removed ≠ self
    ∧ index removed !! "a"%string ≠ index self !! "a"%string.
Proof.
  exists (State {["a"%string := {[1]}]} {["a"%string := 1]} true),
         (State {["a"%string := {[1]}]} {["a"%string := 2]} true),
         (State {["a"%string := ∅]} {["a"%string := 1]} true).
  split_and!.
  - vm_compute. reflexivity.
  - vm_compute. reflexivity.
  - vm_compute. reflexivity.
  - intros Heq. apply (f_equal index) in Heq. vm_compute in Heq. discriminate.
  - vm_compute. discriminate.
Qed.

Lemma add_then_remove_restores_witness :
  remove_document 2
    (State {["a"%string := {[1; 2]}; "b"%string := {[2]}]}
           {["a"%string := 2; "b"%string := 1]} true)
  = Done (State {["a"%string := {[1]}]} {["a"%string := 1]} true).
Proof.
  apply (add_then_remove_restores 2 ["a"%string; "b"%string]
           (State {["a"%string := {[1]}]} {["a"%string := 1]} true)).
  - intros term. cbn [index doc_freq].
    destruct (decide (term = "a"%string)) as [-> | Hne].
    + by rewrite !lookup_singleton_eq.
    + by rewrite !lookup_singleton_ne.
  - intros term doc_ids. cbn [index].
    intros [_ <-]%lookup_singleton_Some. set_solver.
  - intros token _. cbn [index]. intros [_ Hempty]%lookup_singleton_Some.
    set_solver.
  - vm_compute. reflexivity.
Defined.

End IndexFacts.

(** ** Language model *)

Module ModeleLangueFacts.
Import ModeleLangue.

Lemma count_token_unseen doc_id c token term :
  token ≠ term → unseen term c → unseen term (count_token doc_id c token).
Proof.
  intros Hne [Hctf Htf]. split; cbn.
  - by rewrite incr_lookup_ne.
  - intros d. destruct (decide (doc_id = d)) as [-> | Hd].
    + rewrite lookup_insert_eq. cbn. by rewrite incr_lookup_ne.
    + by rewrite lookup_insert_ne.
Qed.

Lemma count_tokens_unseen doc_id tokens term :
  term ∉ tokens → ∀ c, unseen term c → unseen term (foldl (count_token doc_id) c tokens).
Proof.
  induction tokens as [| token tokens IH]; intros Hnotin c Hc; [done |].
  cbn. apply IH; [set_solver |]. apply count_token_unseen; [set_solver | done].
Qed.

Lemma count_documents_unseen docs term :
  (∀ doc, doc ∈ docs → term ∉ pd_tokens doc) →
  ∀ c, unseen term c → unseen term (foldl count_document c docs).
Proof.
  induction docs as [| doc docs IH]; intros Hnotin c Hc; [done |].
  cbn. apply IH; [intros d Hd; apply Hnotin; by right |].
  unfold count_document. apply count_tokens_unseen; [apply Hnotin; left |].
  destruct Hc. by split.
Qed.

Lemma count_tokens_doc_lengths doc_id tokens :
  ∀ c, c_doc_lengths (foldl (count_token doc_id) c tokens) = c_doc_lengths c.
Proof.
  induction tokens as [| token tokens IH]; intros c; [done |]. cbn. by rewrite IH.
Qed.

Lemma count_documents_doc_lengths docs :
  ∀ c doc_id,
  (is_Some (c_doc_lengths c !! doc_id) ∨ ∃ doc, doc ∈ docs ∧ pd_id doc = doc_id) →
  is_Some (c_doc_lengths (foldl count_document c docs) !! doc_id).
Proof.
  induction docs as [| doc docs IH]; intros c doc_id Hcase.
  - destruct Hcase as [? | (? & Hnil & _)]; [done | by apply elem_of_nil in Hnil].
  - cbn. apply IH. unfold count_document. rewrite count_tokens_doc_lengths. cbn.
    destruct (decide (pd_id doc = doc_id)) as [<- | Hne].
    + left. rewrite lookup_insert_eq. eauto.
    + rewrite lookup_insert_ne by done.
      destruct Hcase as [? | (d & [-> | Hd]%elem_of_cons & Hid)]; [by left | done |].
      right. eauto.
Qed.

(** The smoothed probability of a term that occurs in no document. *)
Lemma unseen_term_probability index_inverse docs lambda doc term :
  doc ∈ docs →
  (∀ d, d ∈ docs → term ∉ pd_tokens d) →
  let self := init index_inverse docs lambda in
  _compute_term_probability self (pd_id doc) term
  = Done ((1 - lambda) * (1 / IZR (Z.max (collection_length self) 1)))%R.
Proof.
  intros Hdoc Hterm self.
  destruct (count_documents_unseen docs term Hterm (Counts ∅ ∅ ∅ 0)) as [Hctf Htf].
  { split; [done |]. intros d. cbn. by rewrite !lookup_empty. }
  destruct (count_documents_doc_lengths docs (Counts ∅ ∅ ∅ 0) (pd_id doc))
    as [doc_length Hlen]; [right; eauto |].
  unfold _compute_term_probability, tf_get. cbn.
  rewrite Hlen, Htf, lookup_fmap, Hctf. cbn.
  f_equal. destruct (decide (doc_length = 0)); [lra |].
  unfold Rdiv. lra.
Qed.

Lemma unseen_term_contribution index_inverse docs lambda doc term :
  doc ∈ docs →
  (∀ d, d ∈ docs → term ∉ pd_tokens d) →
  let self := init index_inverse docs lambda in
  let prob := ((1 - lambda) * (1 / IZR (Z.max (collection_length self) 1)))%R in
  ((lambda < 1)%R → (0 < prob)%R ∧ term_contribution self (pd_id doc) term = Done (log10 prob))
  ∧ ((1 <= lambda)%R →
     term_contribution self (pd_id doc) term = Done (log10 (1 / 10 ^ 10))).
Proof.
  intros Hdoc Hterm self prob.
  pose proof (unseen_term_probability index_inverse docs lambda doc term Hdoc Hterm) as Hp.
  fold self in Hp. cbv zeta in Hp. fold prob in Hp.
  assert (Hmax : (0 < 1 / IZR (Z.max (collection_length self) 1))%R).
  { apply Rdiv_lt_0_compat; [lra |]. apply IZR_lt. lia. }
  unfold term_contribution. rewrite Hp. cbn [mbind outcome_bind]. split.
  - intros Hl. assert (0 < prob)%R by (unfold prob; apply Rmult_lt_0_compat; lra).
    split; [done |]. destruct (Rlt_dec 0 prob); [| done]. by apply math_log10_pos.
  - intros Hl. assert (prob <= 0)%R.
    { unfold prob.
      replace 0%R with (0 * (1 / IZR (Z.max (collection_length self) 1)))%R by lra.
      apply Rmult_le_compat_r; lra. }
    destruct (Rlt_dec 0 prob); [lra |]. apply math_log10_pos, smoothing_floor_pos.
Qed.

(** C2, amended.  For a term that occurs in no document of the collection
    and a document of the model, the smoothed probability is
    [(1 - lambda) / max(collection_length, 1)]: the collection probability of
    an unknown term falls back to [1 / max(collection_length, 1)], not to 0.
    For [lambda < 1] this is positive and the term adds its [log10] to the
    score; for [1 <= lambda] the term adds the floor [log10(1e-10)].  The
    term adds the floor exactly when [1 <= lambda] or the smoothed
    probability is itself [1e-10].  In every case a number is returned, not
    an error. *)
Theorem unseen_term_log_probability (index_inverse : gmap string (gset Z))
    (docs : list processed_document) (lambda : R)
    (doc : processed_document) (term : string) :
  doc ∈ docs →
  (∀ d, d ∈ docs → term ∉ pd_tokens d) →
  let self := init index_inverse docs lambda in
  let prob := ((1 - lambda) * (1 / IZR (Z.max (collection_length self) 1)))%R in
  _compute_term_probability self (pd_id doc) term = Done prob
  ∧ ((lambda < 1)%R →
     (0 < prob)%R ∧ term_contribution self (pd_id doc) term = Done (log10 prob))
  ∧ ((1 <= lambda)%R →
     term_contribution self (pd_id doc) term = Done (log10 (1 / 10 ^ 10)))
  ∧ (term_contribution self (pd_id doc) term = Done (log10 (1 / 10 ^ 10))
     ↔ (1 <= lambda)%R ∨ prob = (1 / 10 ^ 10)%R).
Proof.
  intros Hdoc Hterm self prob.
  pose proof (unseen_term_contribution index_inverse docs lambda doc term Hdoc Hterm)
    as [Hbelow Hfloor].
  fold self in Hbelow, Hfloor. cbv zeta in Hbelow, Hfloor. fold prob in Hbelow.
  split_and!; [by apply unseen_term_probability | done | done |].
  destruct (Rle_lt_dec 1 lambda) as [Hge | Hlt].
  - split; [by left | intros _; by apply Hfloor].
  - destruct (Hbelow Hlt) as [Hpos Hcontrib]. rewrite Hcontrib. split.
    + intros [= Heq]. right. apply log10_inj; [done | apply smoothing_floor_pos | done].
    + intros [Hge | ->]; [lra | done].
Qed.

Lemma unseen_term_counterexample :
  one_document !! 0%nat = Some (ProcessedDocument 1 ["a"%string])
  ∧ ("b"%string ∉ ["a"%string])
  ∧ (term_contribution (init ∅ one_document (1 / 2)) 1 "b"%string
     ≠ Done (log10 (1 / 10 ^ 10))).
Proof.
  split_and!; [done | set_solver |].
  destruct (unseen_term_contribution ∅ one_document (1 / 2)
              (ProcessedDocument 1 ["a"%string]) "b"%string) as [Hlt _].
  { left. }
  { intros d ->%list_elem_of_singleton. cbn. set_solver. }
  destruct (Hlt ltac:(lra)) as [Hpos Hcontrib]. cbn [pd_id] in Hcontrib.
  assert (Hlen : Z.max (collection_length (init ∅ one_document (1 / 2))) 1 = 1)
    by reflexivity.
  rewrite Hlen in Hcontrib, Hpos.
  rewrite Hcontrib. intros [= Heq].
  apply log10_inj in Heq; [| done | apply smoothing_floor_pos].
  cbn [pow] in Heq. lra.
Qed.

Lemma unseen_term_log_probability_witness :
  term_contribution (init ∅ one_document 1) 1 "b"%string
  = Done (log10 (1 / 10 ^ 10)).
Proof.
  destruct (unseen_term_log_probability ∅ one_document 1
              (ProcessedDocument 1 ["a"%string]) "b"%string) as (_ & _ & Hfloor & _).
  - left.
  - intros d ->%list_elem_of_singleton. cbn. set_solver.
  - apply Hfloor. lra.
Defined.

(** The score table lists the documents in corpus order. *)
Lemma doc_scores_order self query_terms docs :
  ∀ acc doc_scores,
  for_each (λ doc doc_scores,
              score ← score_document self query_terms (pd_id doc);
              Done (dict_set (pd_id doc) score doc_scores)) docs acc = Done doc_scores →
  NoDup (acc.*1 ++ (pd_id <$> docs)) →
  doc_scores.*1 = acc.*1 ++ (pd_id <$> docs).
Proof.
  induction docs as [| doc docs IH]; intros acc doc_scores.
  - cbn. intros [= <-] _. by rewrite app_nil_r.
  - intros (acc' & Hstep & Hrest)%for_each_Done_inv Hnd.
    destruct (score_document self query_terms (pd_id doc)) as [score |]; cbn in Hstep; [| done].
    injection Hstep as <-.
    assert (Hfresh : pd_id doc ∉ acc.*1).
    { apply NoDup_app in Hnd as (_ & Hdisj & _). intros Hin. apply (Hdisj _ Hin). left. }
    rewrite dict_set_fresh in Hrest by done.
    rewrite (IH _ _ Hrest); rewrite fmap_app, <- app_assoc; [done |]. done.
Qed.

Lemma term_contribution_total self doc_id term :
  is_Some (doc_lengths self !! doc_id) →
  ∃ contribution, term_contribution self doc_id term = Done contribution.
Proof.
  intros [doc_length Hlen]. unfold term_contribution, _compute_term_probability.
  rewrite Hlen. cbn [mbind outcome_bind].
  destruct (Rlt_dec 0 _) as [Hpos | _].
  - rewrite math_log10_pos by done. eauto.
  - rewrite math_log10_pos by apply smoothing_floor_pos. eauto.
Qed.

Lemma score_document_total self query_terms doc_id :
  is_Some (doc_lengths self !! doc_id) →
  ∃ score, score_document self query_terms doc_id = Done score.
Proof.
  intros Hlen. unfold score_document. generalize 0%R.
  induction query_terms as [| term query_terms IH]; intros score; cbn; [eauto |].
  destruct (term_contribution_total self doc_id term Hlen) as [c ->]. cbn. apply IH.
Qed.

Lemma score_table_total self query_terms docs :
  (∀ doc, doc ∈ docs → is_Some (doc_lengths self !! pd_id doc)) →
  ∀ acc, ∃ doc_scores,
  for_each (λ doc doc_scores,
              score ← score_document self query_terms (pd_id doc);
              Done (dict_set (pd_id doc) score doc_scores)) docs acc = Done doc_scores.
Proof.
  induction docs as [| doc docs IH]; intros Hlen acc; cbn; [eauto |].
  destruct (score_document_total self query_terms (pd_id doc)) as [score ->];
    [apply Hlen; left |].
  cbn. apply IH. intros d Hd. apply Hlen. by right.
Qed.


End ModeleLangueFacts.

(** ** BM25 *)

Module ModeleProbabilisteFacts.
Import ModeleProbabiliste.

Lemma count_token_well_formed doc_id c token :
  tables_well_formed (c_tf c) (c_df c) (c_doc_lengths c) →
  let c' := count_token doc_id c token in
  tables_well_formed (c_tf c') (c_df c') (c_doc_lengths c').
Proof.
  intros (Htf & Hdf & Hlen). cbn. split_and!; [| | done].
  - intros d row term count. destruct (decide (doc_id = d)) as [-> | Hne].
    + rewrite lookup_insert_eq. intros [= <-]. unfold incr.
      destruct (decide (token = term)) as [-> | Hnt].
      * rewrite lookup_insert_eq. intros [= <-].
        destruct (c_tf c !! d) as [row |] eqn:Hrow; cbn.
        -- destruct (row !! term) as [old |] eqn:Hold; cbn; [| lia].
           specialize (Htf _ _ _ _ Hrow Hold). lia.
        -- rewrite lookup_empty. cbn. lia.
      * rewrite lookup_insert_ne by done.
        destruct (c_tf c !! d) as [row |] eqn:Hrow; cbn; [by eapply Htf |].
        by rewrite lookup_empty.
    + rewrite lookup_insert_ne by done. apply Htf.
  - intros term count. destruct (decide _); [| apply Hdf].
    unfold incr. destruct (decide (token = term)) as [-> | Hnt].
    + rewrite lookup_insert_eq. intros [= <-].
      destruct (c_df c !! term) as [old |] eqn:Hold; cbn; [| lia].
      specialize (Hdf _ _ Hold). lia.
    + rewrite lookup_insert_ne by done. apply Hdf.
Qed.

Lemma count_tokens_well_formed doc_id tokens :
  ∀ c, tables_well_formed (c_tf c) (c_df c) (c_doc_lengths c) →
  let c' := foldl (count_token doc_id) c tokens in
  tables_well_formed (c_tf c') (c_df c') (c_doc_lengths c').
Proof.
  induction tokens as [| token tokens IH]; intros c Hc; [done |].
  cbn. apply IH. by apply count_token_well_formed.
Qed.

Lemma count_documents_well_formed docs :
  ∀ c, tables_well_formed (c_tf c) (c_df c) (c_doc_lengths c) →
  let c' := foldl count_document c docs in
  tables_well_formed (c_tf c') (c_df c') (c_doc_lengths c').
Proof.
  induction docs as [| doc docs IH]; intros c Hc; [done |].
  cbn. apply IH. unfold count_document. apply count_tokens_well_formed.
  destruct Hc as (Htf & Hdf & Hlen). cbn. split_and!; [done | done |].
  intros d len. destruct (decide (pd_id doc = d)) as [-> | Hne].
  - rewrite lookup_insert_eq. intros [= <-]. lia.
  - rewrite lookup_insert_ne by done. apply Hlen.
Qed.

Lemma elem_of_holders tf term doc_id :
  doc_id ∈ holders tf term ↔ ∃ row, tf !! doc_id = Some row ∧ is_Some (row !! term).
Proof.
  unfold holders. rewrite elem_of_dom. split.
  - intros [row Hrow]. apply map_lookup_filter_Some in Hrow as [Hrow Hterm]. eauto.
  - intros (row & Hrow & Hterm). exists row. by apply map_lookup_filter_Some.
Qed.

Lemma holders_count_token_same tf doc_id token :
  holders (<[doc_id := incr token (default ∅ (tf !! doc_id))]> tf) token
  = {[doc_id]} ∪ holders tf token.
Proof.
  apply set_eq. intros d. rewrite elem_of_union, elem_of_singleton, !elem_of_holders.
  destruct (decide (doc_id = d)) as [-> | Hne].
  - rewrite lookup_insert_eq. split; [eauto |]. intros _. eexists. split; [done |].
    unfold incr. rewrite lookup_insert_eq. eauto.
  - rewrite lookup_insert_ne by done. naive_solver.
Qed.

Lemma holders_count_token_other tf doc_id token term :
  token ≠ term →
  holders (<[doc_id := incr token (default ∅ (tf !! doc_id))]> tf) term
  = holders tf term.
Proof.
  intros Hne. apply set_eq. intros d. rewrite !elem_of_holders.
  destruct (decide (doc_id = d)) as [-> | Hd].
  - rewrite lookup_insert_eq. split.
    + intros (row & [= <-] & Hterm). rewrite incr_lookup_ne in Hterm by done.
      destruct (tf !! d) as [row |]; cbn in Hterm; [eauto |].
      rewrite lookup_empty in Hterm. by destruct Hterm.
    + intros (row & Hrow & Hterm). eexists. split; [done |].
      rewrite incr_lookup_ne by done. by rewrite Hrow.
  - by rewrite lookup_insert_ne.
Qed.

Lemma count_token_invariant doc_id c token n :
  doc_id ∈ dom (c_doc_lengths c) →
  counts_invariant c n → counts_invariant (count_token doc_id c token) n.
Proof.
  intros Hdoc (Hwf & Hdf & Hdom & Hsize).
  split_and!; [by apply count_token_well_formed | | | done].
  - intros term. cbn.
    set (row := default ∅ (c_tf c !! doc_id)).
    assert (Hrow : incr token row !! token = Some 1 ↔ doc_id ∉ holders (c_tf c) token).
    { unfold incr. rewrite lookup_insert_eq, elem_of_holders. unfold row.
      destruct Hwf as (Htf & _).
      destruct (c_tf c !! doc_id) as [row0 |] eqn:Hrow0; cbn.
      - destruct (row0 !! token) as [old |] eqn:Hold; cbn.
        + specialize (Htf _ _ _ _ Hrow0 Hold). split; [intros [=]; lia |].
          intros Hnot. destruct Hnot. eauto.
        + split; [| done]. intros _ (r & [= <-] & Hsome). rewrite Hold in Hsome.
          by destruct Hsome.
      - rewrite lookup_empty. cbn. split; [| done]. by intros _ (r & [=] & _). }
    unfold row in *. clear row.
    destruct (decide (token = term)) as [<- | Hne].
    + rewrite holders_count_token_same.
      destruct (decide (incr token _ !! token = Some 1)) as [Hone | Hmore].
      * unfold incr at 1. rewrite lookup_insert_eq. cbn. rewrite Hdf.
        apply Hrow in Hone. rewrite size_union by set_solver. rewrite size_singleton. lia.
      * rewrite Hdf. do 2 f_equal.
        assert (doc_id ∈ holders (c_tf c) token).
        { destruct (decide (doc_id ∈ holders (c_tf c) token)); [done |].
          destruct Hmore. by apply Hrow. }
        apply leibniz_equiv. set_solver.
    + rewrite holders_count_token_other by done.
      destruct (decide _); [| apply Hdf]. rewrite incr_lookup_ne by done. apply Hdf.
  - cbn. rewrite dom_insert. set_solver.
Qed.

Lemma count_tokens_invariant doc_id tokens n :
  ∀ c, doc_id ∈ dom (c_doc_lengths c) →
  counts_invariant c n → counts_invariant (foldl (count_token doc_id) c tokens) n.
Proof.
  induction tokens as [| token tokens IH]; intros c Hdoc Hc; [done |].
  cbn. apply IH; [done | by apply count_token_invariant].
Qed.

Lemma count_document_invariant c doc n :
  counts_invariant c n → counts_invariant (count_document c doc) (S n).
Proof.
  intros ((Htf & Hdf0 & Hlen) & Hdf & Hdom & Hsize). unfold count_document.
  apply count_tokens_invariant; cbn.
  - rewrite dom_insert. set_solver.
  - split_and!; cbn.
    + split_and!; [done | done |].
      intros d len. destruct (decide (pd_id doc = d)) as [-> | Hne].
      * rewrite lookup_insert_eq. intros [= <-]. lia.
      * rewrite lookup_insert_ne by done. apply Hlen.
    + done.
    + rewrite dom_insert. set_solver.
    + rewrite dom_insert.
      pose proof (size_union_alt ({[pd_id doc]} : gset Z) (dom (c_doc_lengths c))) as Hu.
      pose proof (subseteq_size (dom (c_doc_lengths c) ∖ {[pd_id doc]})
                    (dom (c_doc_lengths c)) ltac:(set_solver)).
      rewrite size_singleton in Hu. lia.
Qed.

Lemma count_documents_invariant docs :
  ∀ c n, counts_invariant c n →
  counts_invariant (foldl count_document c docs) (n + length docs).
Proof.
  induction docs as [| doc docs IH]; intros c n Hc; cbn.
  - by rewrite Nat.add_0_r.
  - replace (n + S (length docs))%nat with (S n + length docs)%nat by lia.
    apply IH. by apply count_document_invariant.
Qed.

Lemma init_df_le_num_docs index_inverse docs k1 b term :
  df_get (init index_inverse docs k1 b) term ≤ num_docs (init index_inverse docs k1 b).
Proof.
  destruct (count_documents_invariant docs (Counts ∅ ∅ ∅) 0) as (_ & Hdf & Hdom & Hsize).
  { split_and!; cbn.
    - split_and!; intros *; by rewrite lookup_empty.
    - intros t. by rewrite lookup_empty.
    - done.
    - by rewrite dom_empty_L, size_empty. }
  unfold df_get, init. cbn. rewrite Hdf.
  pose proof (subseteq_size (holders (c_tf (foldl count_document (Counts ∅ ∅ ∅) docs)) term)
                (dom (c_tf (foldl count_document (Counts ∅ ∅ ∅) docs)))) as Hh.
  pose proof (subseteq_size _ _ Hdom) as Hd.
  assert (holders (c_tf (foldl count_document (Counts ∅ ∅ ∅) docs)) term
          ⊆ dom (c_tf (foldl count_document (Counts ∅ ∅ ∅) docs))).
  { intros d (row & Hrow & _)%elem_of_holders. apply elem_of_dom. eauto. }
  specialize (Hh ltac:(done)). cbn in Hsize. lia.
Qed.

Lemma init_well_formed index_inverse docs k1 b :
  well_formed (init index_inverse docs k1 b).
Proof.
  split; [| intros term; apply init_df_le_num_docs].
  unfold init. cbn. apply count_documents_well_formed.
  split_and!; cbn; intros *; by rewrite lookup_empty.
Qed.

(** The idf of a term is defined whenever 0 <= df <= N, and its sign is that of N - 2 df. *)
Lemma compute_idf_Done self term :
  0 ≤ df_get self term ≤ num_docs self →
  ∃ idf, _compute_idf self term = Done idf
    ∧ (2 * df_get self term ≤ num_docs self → (0 <= idf)%R)
    ∧ (num_docs self < 2 * df_get self term → (idf < 0)%R).
Proof.
  intros Hdf. unfold _compute_idf.
  destruct (decide (df_get self term = 0)) as [Hz | Hnz].
  - exists 0%R. split_and!; [done | lra | lia].
  - set (n := num_docs self) in *. set (d := df_get self term) in *.
    assert (1 <= IZR d)%R by (apply IZR_le; lia).
    assert (IZR d <= IZR n)%R by (apply IZR_le; lia).
    rewrite truediv_nonzero by lra. cbn.
    assert (0 < (IZR n - IZR d + 0.5) / (IZR d + 0.5))%R.
    { apply Rdiv_lt_0_compat; lra. }
    rewrite math_log10_pos by done. eexists. split_and!; [done | |].
    + intros H2. apply log10_nonneg.
      assert (2 * IZR d <= IZR n)%R by (rewrite <- mult_IZR; apply IZR_le; lia).
      apply (Rmult_le_reg_r (IZR d + 0.5)); [lra |].
      unfold Rdiv. rewrite Rmult_assoc, Rinv_l by lra. lra.
    + intros H2. apply log10_neg. split; [done |].
      assert (IZR n < 2 * IZR d)%R by (rewrite <- mult_IZR; apply IZR_lt; lia).
      apply (Rmult_lt_reg_r (IZR d + 0.5)); [lra |].
      unfold Rdiv. rewrite Rmult_assoc, Rinv_l by lra. lra.
Qed.

(** The saturation factor tf (k1 + 1) / (tf + K) grows with tf when K >= 0. *)
Lemma saturation_monotone (k1 K tf1 tf2 : R) :
  (0 <= k1)%R → (0 <= K)%R → (1 <= tf1)%R → (tf1 <= tf2)%R →
  (0 <= tf1 * (k1 + 1) / (tf1 + K) <= tf2 * (k1 + 1) / (tf2 + K))%R.
Proof.
  intros Hk HK H1 H12.
  assert (0 < tf1 + K)%R by lra. assert (0 < tf2 + K)%R by lra.
  split.
  - apply Rmult_le_pos; [nra | left; by apply Rinv_0_lt_compat].
  - apply (Rmult_le_reg_r ((tf1 + K) * (tf2 + K))); [nra |].
    replace (tf1 * (k1 + 1) / (tf1 + K) * ((tf1 + K) * (tf2 + K)))%R
      with (tf1 * (k1 + 1) * (tf2 + K))%R by (field; lra).
    replace (tf2 * (k1 + 1) / (tf2 + K) * ((tf1 + K) * (tf2 + K)))%R
      with (tf2 * (k1 + 1) * (tf1 + K))%R by (field; lra).
    assert (0 <= (k1 + 1) * K * (tf2 - tf1))%R.
    { apply Rmult_le_pos; [apply Rmult_le_pos |]; lra. }
    lra.
Qed.

Lemma length_normalisation_nonneg (k1 b avg doc_length : R) :
  (0 <= k1)%R → (0 <= b <= 1)%R → (0 <= doc_length)%R →
  (0 <= k1 * (1 - b + b * (doc_length / Rmax avg 1)))%R.
Proof.
  intros Hk Hb Hl.
  assert (1 <= Rmax avg 1)%R by apply Rmax_r.
  assert (0 <= doc_length / Rmax avg 1)%R.
  { apply Rmult_le_pos; [done |]. left. apply Rinv_0_lt_compat. lra. }
  apply Rmult_le_pos; [done |]. nra.
Qed.

(** The score of a term in a document, in closed form. *)
Lemma compute_bm25_score_Done self doc_id term doc_length :
  well_formed self →
  (0 <= k1 self)%R → (0 <= b self <= 1)%R →
  0 ≤ df_get self term ≤ num_docs self →
  doc_lengths self !! doc_id = Some doc_length →
  ∃ idf, _compute_idf self term = Done idf ∧
  _compute_bm25_score self doc_id term
  = Done (if decide (term_frequency self doc_id term = 0%Z) then 0
          else idf * (IZR (term_frequency self doc_id term) * (k1 self + 1)
                      / (IZR (term_frequency self doc_id term)
                         + k1 self * (1 - b self + b self
                            * (IZR doc_length / Rmax (avg_doc_length self) 1)))))%R
  ∧ 0 ≤ term_frequency self doc_id term.
Proof.
  intros ((Htf & Hdf & Hlen) & _) Hk Hb Hdfn Hdl.
  destruct (compute_idf_Done self term Hdfn) as (idf & Hidf & _).
  exists idf. split; [done |].
  unfold _compute_bm25_score, term_frequency.
  destruct (default ∅ (tf self !! doc_id) !! term) as [count |] eqn:Hcount; cbn.
  - assert (1 ≤ count).
    { destruct (tf self !! doc_id) as [row |] eqn:Hrow; cbn in Hcount.
      - by eapply Htf.
      - by rewrite lookup_empty in Hcount. }
    rewrite Hdl, Hidf. cbn.
    pose proof (length_normalisation_nonneg (k1 self) (b self) (avg_doc_length self)
                  (IZR doc_length) Hk Hb (IZR_le _ _ (Hlen _ _ Hdl))).
    assert (1 <= IZR count)%R by (by apply IZR_le).
    rewrite truediv_nonzero by lra. cbn.
    rewrite decide_False by lia. split; [done | lia].
  - by rewrite decide_True.
Qed.

Lemma compute_idf_agree m1 m2 term :
  num_docs m1 = num_docs m2 → df_get m1 term = df_get m2 term →
  _compute_idf m1 term = _compute_idf m2 term.
Proof. intros HN Hdf. unfold _compute_idf. by rewrite HN, Hdf. Qed.

(** C3, amended.  Two BM25 models, with the tables that [__init__] builds,
    agree on [k1], [b], the number of documents, the average document length,
    the document frequency of a term and the length of a document, with
    [0 <= k1] and [0 <= b <= 1]; the term is at least as frequent in the
    document in the second model.  Then both per-term scores are defined; the
    second is at least the first when [2 df <= N] (the idf is not negative),
    and at most the first when [2 df > N] (the idf is negative). *)
Theorem bm25_term_frequency_monotone (m1 m2 : model) (doc_id : Z) (term : string)
    (doc_length : Z) :
  well_formed m1 → well_formed m2 →
  k1 m1 = k1 m2 → b m1 = b m2 →
  num_docs m1 = num_docs m2 → avg_doc_length m1 = avg_doc_length m2 →
  df_get m1 term = df_get m2 term →
  doc_lengths m1 !! doc_id = Some doc_length →
  doc_lengths m2 !! doc_id = Some doc_length →
  (0 <= k1 m1)%R → (0 <= b m1 <= 1)%R →
  term_frequency m1 doc_id term ≤ term_frequency m2 doc_id term →
  ∃ score1 score2,
    _compute_bm25_score m1 doc_id term = Done score1
    ∧ _compute_bm25_score m2 doc_id term = Done score2
    ∧ (2 * df_get m1 term ≤ num_docs m1 → (score1 <= score2)%R)
    ∧ (num_docs m1 < 2 * df_get m1 term → (score2 <= score1)%R).
Proof.
  intros Hwf1 Hwf2 Hk Hb HN Havg Hdf Hl1 Hl2 Hk0 Hb01 Htf.
  assert (HdfN : df_get m1 term ≤ num_docs m1) by apply Hwf1.
  assert (Hdf0 : 0 ≤ df_get m1 term).
  { destruct Hwf1 as ((_ & Hdfpos & _) & _). unfold df_get.
    destruct (df m1 !! term) as [count |] eqn:Hc; cbn; [by eapply Hdfpos | done]. }
  destruct (compute_idf_Done m1 term ltac:(lia)) as (idf & Hidf & Hnonneg & Hneg).
  destruct (compute_bm25_score_Done m1 doc_id term doc_length Hwf1 Hk0 Hb01 ltac:(lia) Hl1)
    as (idf1 & Hidf1 & Hs1 & Htf1).
  destruct (compute_bm25_score_Done m2 doc_id term doc_length Hwf2) as (idf2 & Hidf2 & Hs2 & Htf2);
    [congruence | congruence | lia | done |].
  rewrite <- (compute_idf_agree m1 m2 term HN Hdf) in Hidf2.
  assert (idf1 = idf) as -> by congruence. assert (idf2 = idf) as -> by congruence.
  rewrite <- Hk, <- Hb, <- Havg in Hs2.
  eexists _, _. split_and!; [exact Hs1 | exact Hs2 | |].
  - intros H2. specialize (Hnonneg H2).
    pose proof (length_normalisation_nonneg (k1 m1) (b m1) (avg_doc_length m1)
                  (IZR doc_length) Hk0 Hb01) as HK.
    destruct Hwf1 as ((_ & _ & Hlen) & _). specialize (HK (IZR_le _ _ (Hlen _ _ Hl1))).
    destruct (decide (term_frequency m2 doc_id term = 0)) as [Hz2 | Hnz2].
    + rewrite decide_True by lia. lra.
    + assert (1 <= IZR (term_frequency m2 doc_id term))%R by (apply IZR_le; lia).
      destruct (decide (term_frequency m1 doc_id term = 0)) as [Hz1 | Hnz1].
      * apply Rmult_le_pos; [done |].
        apply (saturation_monotone (k1 m1) _ _ _ Hk0 HK H (Rle_refl _)).
      * assert (1 <= IZR (term_frequency m1 doc_id term))%R by (apply IZR_le; lia).
        apply Rmult_le_compat_l; [done |].
        apply (saturation_monotone (k1 m1) _ _ _ Hk0 HK); [done | apply IZR_le; lia].
  - intros H2. specialize (Hneg H2).
    pose proof (length_normalisation_nonneg (k1 m1) (b m1) (avg_doc_length m1)
                  (IZR doc_length) Hk0 Hb01) as HK.
    destruct Hwf1 as ((_ & _ & Hlen) & _). specialize (HK (IZR_le _ _ (Hlen _ _ Hl1))).
    destruct (decide (term_frequency m2 doc_id term = 0)) as [Hz2 | Hnz2].
    + rewrite decide_True by lia. lra.
    + assert (1 <= IZR (term_frequency m2 doc_id term))%R by (apply IZR_le; lia).
      destruct (decide (term_frequency m1 doc_id term = 0)) as [Hz1 | Hnz1].
      * pose proof (saturation_monotone (k1 m1) _ _ _ Hk0 HK H (Rle_refl _)) as [Hp _].
        nra.
      * assert (1 <= IZR (term_frequency m1 doc_id term))%R by (apply IZR_le; lia).
        pose proof (saturation_monotone (k1 m1) _
                      (IZR (term_frequency m1 doc_id term))
                      (IZR (term_frequency m2 doc_id term)) Hk0 HK H0
                      ltac:(apply IZR_le; lia)) as [_ Hle].
        nra.
Qed.

Lemma bm25_term_frequency_counterexample :
  let m1 := init ∅ low_tf_docs 1.5 0.75 in
  let m2 := init ∅ high_tf_docs 1.5 0.75 in
  num_docs m1 = num_docs m2
  ∧ avg_doc_length m1 = avg_doc_length m2
  ∧ df_get m1 "a"%string = df_get m2 "a"%string
  ∧ doc_lengths m1 !! 1 = doc_lengths m2 !! 1
  ∧ term_frequency m1 1 "a"%string = 1
  ∧ term_frequency m2 1 "a"%string = 2
  ∧ ∃ score1 score2,
      _compute_bm25_score m1 1 "a"%string = Done score1
      ∧ _compute_bm25_score m2 1 "a"%string = Done score2
      ∧ (score2 < score1)%R.
Proof.
  intros m1 m2.
  assert (HN : num_docs m1 = 2) by reflexivity.
  assert (Hdf1 : df_get m1 "a"%string = 2) by (vm_compute; reflexivity).
  assert (Hdf2 : df_get m2 "a"%string = 2) by (vm_compute; reflexivity).
  assert (Hl1 : doc_lengths m1 !! 1 = Some 2) by (vm_compute; reflexivity).
  assert (Hl2 : doc_lengths m2 !! 1 = Some 2) by (vm_compute; reflexivity).
  assert (Htf1 : term_frequency m1 1 "a"%string = 1) by (vm_compute; reflexivity).
  assert (Htf2 : term_frequency m2 1 "a"%string = 2) by (vm_compute; reflexivity).
  assert (Havg1 : avg_doc_length m1 = (IZR 4 / IZR 2)%R) by (vm_compute; reflexivity).
  assert (Havg2 : avg_doc_length m2 = (IZR 4 / IZR 2)%R) by (vm_compute; reflexivity).
  split_and!; [done | congruence | congruence | congruence | done | done |].
  assert (Hk1 : k1 m1 = 1.5%R) by reflexivity.
  assert (Hb1 : b m1 = 0.75%R) by reflexivity.
  assert (Hk2 : k1 m2 = 1.5%R) by reflexivity.
  assert (Hb2 : b m2 = 0.75%R) by reflexivity.
  destruct (compute_idf_Done m1 "a"%string ltac:(lia)) as (idf & Hidf & _ & Hneg).
  specialize (Hneg ltac:(lia)).
  destruct (compute_bm25_score_Done m1 1 "a"%string 2 (init_well_formed _ _ _ _))
    as (idf1 & Hidf1 & Hs1 & _); [rewrite Hk1; lra | rewrite Hb1; lra | lia | done |].
  destruct (compute_bm25_score_Done m2 1 "a"%string 2 (init_well_formed _ _ _ _))
    as (idf2 & Hidf2 & Hs2 & _); [rewrite Hk2; lra | rewrite Hb2; lra | | done |].
  { rewrite Hdf2. change (num_docs m2) with 2. lia. }
  rewrite <- (compute_idf_agree m1 m2 "a"%string eq_refl ltac:(congruence)) in Hidf2.
  assert (idf1 = idf) as -> by congruence. assert (idf2 = idf) as -> by congruence.
  rewrite Htf1, Hk1, Hb1, Havg1 in Hs1. rewrite Htf2, Hk2, Hb2, Havg2 in Hs2.
  rewrite decide_False in Hs1 by lia. rewrite decide_False in Hs2 by lia.
  eexists _, _. split_and!; [exact Hs1 | exact Hs2 |].
  assert (HR : Rmax (IZR 4 / IZR 2) 1 = 2%R).
  { rewrite Rmax_left; lra. }
  rewrite HR.
  replace (IZR 1 + 1.5 * (1 - 0.75 + 0.75 * (IZR 2 / 2)))%R with (5 / 2)%R by lra.
  replace (IZR 2 + 1.5 * (1 - 0.75 + 0.75 * (IZR 2 / 2)))%R with (7 / 2)%R by lra.
  replace (IZR 1 * (1.5 + 1) / (5 / 2))%R with 1%R by lra.
  replace (IZR 2 * (1.5 + 1) / (7 / 2))%R with (10 / 7)%R by lra.
  lra.
Qed.

Lemma bm25_term_frequency_monotone_witness :
  ∃ score1 score2,
    _compute_bm25_score (init ∅ low_tf_docs 1.5 0.75) 1 "a"%string = Done score1
    ∧ _compute_bm25_score (init ∅ high_tf_docs 1.5 0.75) 1 "a"%string = Done score2
    ∧ (2 * df_get (init ∅ low_tf_docs 1.5 0.75) "a"%string
       ≤ num_docs (init ∅ low_tf_docs 1.5 0.75) → (score1 <= score2)%R)
    ∧ (num_docs (init ∅ low_tf_docs 1.5 0.75)
       < 2 * df_get (init ∅ low_tf_docs 1.5 0.75) "a"%string → (score2 <= score1)%R).
Proof.
  apply (bm25_term_frequency_monotone (init ∅ low_tf_docs 1.5 0.75)
           (init ∅ high_tf_docs 1.5 0.75) 1 "a"%string 2).
  - apply init_well_formed.
  - apply init_well_formed.
  - reflexivity.
  - reflexivity.
  - reflexivity.
  - vm_compute; reflexivity.
  - vm_compute; reflexivity.
  - vm_compute; reflexivity.
  - vm_compute; reflexivity.
  - unfold init; cbn [k1]; lra.
  - unfold init; cbn [b]; lra.
  - vm_compute; discriminate.
Defined.

End ModeleProbabilisteFacts.

(** ** Order of the results of [search] *)






(** * Further properties of the code *)

(** ** Shared lemmas *)

Lemma size_list_to_set_le (l : list Z) :
  (size (list_to_set l : gset Z) ≤ length l)%nat.
Proof.
  induction l as [| x l IH]; cbn; [by rewrite size_empty |].
  pose proof (size_union_alt ({[x]} : gset Z) (list_to_set l)) as Hu.
  pose proof (subseteq_size (list_to_set l ∖ {[x]} : gset Z) (list_to_set l)
                ltac:(set_solver)).
  rewrite size_singleton in Hu. lia.
Qed.
Lemma size_list_to_set_NoDup (l : list Z) :
  size (list_to_set l : gset Z) = length l ↔ NoDup l.
Proof.
  split; [| apply size_list_to_set].
  induction l as [| x l IH]; cbn; [constructor |].
  intros Hsize. pose proof (size_list_to_set_le l) as Hle.
  destruct (decide (x ∈ l)) as [Hin | Hnin].
  - assert (({[x]} ∪ list_to_set l : gset Z) = list_to_set l) as Heq by set_solver.
    rewrite Heq in Hsize. lia.
  - constructor; [done |]. apply IH.
    rewrite size_union in Hsize by set_solver. rewrite size_singleton in Hsize. lia.
Qed.
Lemma sorted_sorted xs : sorted (sorted xs) = sorted xs.
Proof.
  apply (Sorted_unique Z.le).
  - apply (Sorted_merge_sort Z.le).
  - apply (Sorted_merge_sort Z.le).
  - unfold sorted. by rewrite !merge_sort_Permutation.
Qed.
Lemma sorted_of_Sorted xs : Sorted Z.le xs → sorted xs = xs.
Proof.
  intros Hs. apply (Sorted_unique Z.le); [apply (Sorted_merge_sort Z.le) | done |].
  apply merge_sort_Permutation.
Qed.
Lemma foldl_intersection (postings : string → gset Z) tokens :
  ∀ (start : gset Z) d,
  d ∈ foldl (λ result token, result ∩ postings token) start tokens
  ↔ d ∈ start ∧ ∀ token, token ∈ tokens → d ∈ postings token.
Proof.
  induction tokens as [| token tokens IH]; intros start d; cbn.
  - split; [| tauto]. intros Hd. split; [done |]. intros t Ht. by apply elem_of_nil in Ht.
  - rewrite IH, elem_of_intersection. split.
    + intros [[Hs Ht] Hrest]. split; [done |].
      intros t [-> | Hin]%elem_of_cons; [done | by apply Hrest].
    + intros [Hs Hall]. split_and!; [done | apply Hall; left |].
      intros t Ht. apply Hall. by right.
Qed.
Lemma foldl_union (postings : string → gset Z) tokens :
  ∀ (start : gset Z) d,
  d ∈ foldl (λ result token, result ∪ postings token) start tokens
  ↔ d ∈ start ∨ ∃ token, token ∈ tokens ∧ d ∈ postings token.
Proof.
  induction tokens as [| token tokens IH]; intros start d; cbn.
  - split; [tauto |]. intros [? | (t & Ht & _)]; [done | by apply elem_of_nil in Ht].
  - rewrite IH, elem_of_union. split.
    + intros [[Hs | Ht] | (t & Hin & Hd)]; [by left | right | right].
      * exists token. split; [left | done].
      * exists t. split; [by right | done].
    + intros [Hs | (t & [-> | Hin]%elem_of_cons & Hd)]; [tauto | tauto |].
      right. eauto.
Qed.
Lemma containing_cons term doc docs :
  containing term (doc :: docs)
  = if decide (term ∈ pd_tokens doc) then doc :: containing term docs
    else containing term docs.
Proof. unfold containing. by rewrite filter_cons. Qed.
Lemma elem_of_containing term doc docs :
  doc ∈ containing term docs ↔ doc ∈ docs ∧ term ∈ pd_tokens doc.
Proof. unfold containing. rewrite list_elem_of_filter. tauto. Qed.
Lemma length_sorted_by_score_desc items :
  length (sorted_by_score_desc items) = length items.
Proof. by rewrite sorted_by_score_desc_Permutation. Qed.
Lemma elem_of_dict_set_keys {V} (k : Z) (v : V) d x :
  x ∈ (dict_set k v d).*1 → x = k ∨ x ∈ d.*1.
Proof.
  induction d as [| [k' v'] d IH]; cbn.
  - intros ->%list_elem_of_singleton. by left.
  - destruct (decide (k = k')) as [-> | Hne]; cbn.
    + intros [-> | Hx]%elem_of_cons; [by left | right; by right].
    + intros [-> | Hx]%elem_of_cons; [right; left |].
      destruct (IH Hx) as [-> | Hd]; [by left | right; by right].
Qed.
Lemma elem_of_rank item items top_k : item ∈ rank items top_k → item ∈ items.
Proof.
  unfold rank, slice_to. rewrite <- (sorted_by_score_desc_Permutation items).
  destruct (decide (0 ≤ top_k)); by eapply subseteq_take.
Qed.
Lemma sorted_by_score_desc_constant (score : R) (items : list (Z * R)) :
  Forall (λ item, item.2 = score) items → sorted_by_score_desc items = items.
Proof.
  induction 1 as [| [d s] items Hs Hall IH]; [done |].
  cbn in Hs. subst s. unfold sorted_by_score_desc in *. cbn [foldr]. rewrite IH.
  destruct Hall as [| [d' s'] items' Hs' _]; [done |].
  cbn in Hs'. subst s'. cbn.
  destruct (Rlt_dec score score) as [Hlt |]; [lra | done].
Qed.
Lemma omap_positive_scores_nil (items : list (Z * R)) :
  Forall (λ item, item.2 = 0%R) items →
  omap (λ item : Z * R, if Rlt_dec 0 item.2 then Some item.1 else None) items = [].
Proof.
  induction 1 as [| [d s] items Hs _ IH]; [done |].
  cbn in *. subst s. destruct (Rlt_dec 0 0) as [Hlt |]; [lra | done].
Qed.
(** A state whose [doc_freq] holds the sizes of the posting sets is consistent. *)
Lemma doc_freq_consistent_sizes (self : InvertedIndex.state) :
  InvertedIndex.doc_freq self
  = (λ doc_ids : gset Z, Z.of_nat (size doc_ids)) <$> InvertedIndex.index self →
  doc_freq_consistent self.
Proof. intros Heq term. by rewrite Heq, lookup_fmap. Qed.

(** ** Postings of the index: construction, maintenance, persistence, search *)

Module IndexPostings.
Import InvertedIndex IndexMaintenance IndexFacts.

(** Effect of the document loop of [build_index] on any starting state. *)
Lemma build_loop_Done docs :
  ∀ self self',
  for_each (λ doc, for_each (post (pd_id doc)) (unique_tokens (pd_tokens doc)))
           docs self = Done self' →
  (∀ term, index self' !! term
           = if decide (containing term docs = []) then index self !! term
             else Some (list_to_set (pd_id <$> containing term docs)
                        ∪ get_posting_list self term))
  ∧ (∀ term, doc_freq self' !! term
             = if decide (containing term docs = []) then doc_freq self !! term
               else Some (default 0 (doc_freq self !! term)
                          + Z.of_nat (length (containing term docs)))).
Proof.
  induction docs as [| doc docs IH]; intros self self'; cbn [for_each].
  - intros [= <-]. split; intros term; by rewrite decide_True.
  - destruct (for_each (post (pd_id doc)) _ self) as [self1 |] eqn:Hdoc;
      cbn [mbind outcome_bind]; [| done].
    intros Hrest. destruct (IH _ _ Hrest) as [Hi Hd].
    destruct (for_each_post_Done _ _ (NoDup_unique_tokens _) _ _ Hdoc) as (Hi1 & Hd1 & _).
    pose proof (λ term, elem_of_unique_tokens term (pd_tokens doc)) as Hu.
    split; intros term; specialize (Hu term).
    + rewrite Hi, containing_cons. unfold get_posting_list. rewrite !Hi1.
      repeat case_decide; try done; try tauto.
      all: try (rewrite H); cbn; f_equal; set_solver.
    + rewrite Hd, containing_cons. rewrite !Hd1.
      repeat case_decide; try done; try tauto.
      all: try (rewrite H); cbn [length default]; unfold Datatypes.id; f_equal; lia.
Qed.
(** X1.  On a [defaultdict] index [build_index] returns, and the index it
    builds holds exactly the postings of the documents: an identifier is in
    the posting set of a term if and only if a document with this identifier
    contains the term; the stored terms are the terms of the documents, and
    no stored posting set is empty. *)
Theorem build_index_postings (docs : list processed_document) (self : state) :
  index_is_defaultdict self = true →
  ∃ built,
    build_index docs self = Done built
    ∧ (∀ term doc_id,
         doc_id ∈ get_posting_list built term
         ↔ ∃ doc, doc ∈ docs ∧ pd_id doc = doc_id ∧ term ∈ pd_tokens doc)
    ∧ (∀ term, is_Some (index built !! term)
               ↔ ∃ doc, doc ∈ docs ∧ term ∈ pd_tokens doc)
    ∧ (∀ term, index built !! term ≠ Some ∅).
Proof.
  intros Hflag. destruct (build_index_total docs self Hflag) as (built & Hbuild & _).
  exists built. split; [done |]. unfold build_index in Hbuild.
  destruct (build_loop_Done _ _ _ Hbuild) as [Hi _]. cbn in Hi.
  assert (Hne : ∀ term, containing term docs ≠ []
                        ↔ ∃ doc, doc ∈ docs ∧ term ∈ pd_tokens doc).
  { intros term. split.
    - intros Hc. destruct (containing term docs) as [| doc rest] eqn:Heq; [done |].
      exists doc. apply elem_of_containing. rewrite Heq. left.
    - intros (doc & Hdoc) Hnil. apply elem_of_containing in Hdoc.
      rewrite Hnil in Hdoc. by apply elem_of_nil in Hdoc. }
  split_and!.
  - intros term doc_id. unfold get_posting_list at 1. rewrite Hi.
    destruct (decide (containing term docs = [])) as [Hnil | Hcons].
    + rewrite lookup_empty. cbn. split; [set_solver |].
      intros (doc & Hdoc & _ & Hterm).
      assert (doc ∈ containing term docs) by by apply elem_of_containing.
      rewrite Hnil in H. by apply elem_of_nil in H.
    + cbn. unfold get_posting_list. cbn. rewrite lookup_empty. cbn.
      rewrite elem_of_union, elem_of_list_to_set, list_elem_of_fmap.
      split.
      * intros [(doc & -> & Hdoc%elem_of_containing) | Hempty]; [| set_solver].
        exists doc. tauto.
      * intros (doc & Hdoc & <- & Hterm). left. exists doc. split; [done |].
        by apply elem_of_containing.
  - intros term. rewrite Hi, <- Hne.
    destruct (decide (containing term docs = [])) as [Hnil | Hcons].
    + rewrite lookup_empty. split; [by intros [? ?] | done].
    + split; eauto.
  - intros term. rewrite Hi.
    destruct (decide (containing term docs = [])) as [Hnil | Hcons].
    + by rewrite lookup_empty.
    + intros [= Hempty]. destruct (containing term docs) as [| doc rest]; [done |].
      cbn in Hempty. set_solver.
Qed.
Lemma build_index_postings_witness :
  ∃ built,
    build_index one_document init = Done built
    ∧ (∀ term doc_id,
         doc_id ∈ get_posting_list built term
         ↔ ∃ doc, doc ∈ one_document ∧ pd_id doc = doc_id ∧ term ∈ pd_tokens doc)
    ∧ (∀ term, is_Some (index built !! term)
               ↔ ∃ doc, doc ∈ one_document ∧ term ∈ pd_tokens doc)
    ∧ (∀ term, index built !! term ≠ Some ∅).
Proof. apply (build_index_postings one_document init). reflexivity. Defined.

(** X2.  After [build_index] the document frequency of a term is the number
    of documents of the list that contain it (a document that comes twice
    counts twice), and a term of no document has no entry. *)
Theorem build_index_doc_freq (docs : list processed_document) (self built : state) :
  build_index docs self = Done built →
  ∀ term,
    doc_freq built !! term
    = if decide (containing term docs = []) then None
      else Some (Z.of_nat (length (containing term docs))).
Proof.
  intros Hbuild term. unfold build_index in Hbuild.
  destruct (build_loop_Done _ _ _ Hbuild) as [_ Hd]. rewrite Hd. cbn.
  rewrite lookup_empty. by destruct (decide _).
Qed.
Lemma build_index_doc_freq_witness :
  doc_freq (State {["a"%string := {[1]}]} {["a"%string := 1]} true) !! "a"%string
  = if decide (containing "a"%string one_document = []) then None
    else Some (Z.of_nat (length (containing "a"%string one_document))).
Proof.
  apply (build_index_doc_freq one_document init).
  vm_compute. reflexivity.
Defined.

(** X3.  [add_document] returns on a [defaultdict] index; when it returns,
    the posting sets are the former ones with the new identifier added under
    each of the tokens, the stored terms are the former ones and the tokens,
    and the kind of dictionary is kept. *)
Theorem add_document_postings (doc_id : Z) (tokens : list string) (self : state) :
  (index_is_defaultdict self = true →
   ∃ added, add_document doc_id tokens self = Done added)
  ∧ (∀ added, add_document doc_id tokens self = Done added →
     (∀ term d, d ∈ get_posting_list added term
                ↔ (d = doc_id ∧ term ∈ tokens) ∨ d ∈ get_posting_list self term)
     ∧ (∀ term, is_Some (index added !! term)
                ↔ term ∈ tokens ∨ is_Some (index self !! term))
     ∧ index_is_defaultdict added = index_is_defaultdict self).
Proof.
  split.
  - intros Hflag.
    destruct (for_each_post_defaultdict doc_id (unique_tokens tokens) self Hflag)
      as (added & Hadd & _).
    by exists added.
  - intros added Hadd. unfold add_document in Hadd.
    destruct (for_each_post_Done _ _ (NoDup_unique_tokens tokens) _ _ Hadd)
      as (Hi & _ & Hflag).
    pose proof (λ term, elem_of_unique_tokens term tokens) as Hu.
    split_and!; [| | done].
    + intros term d. unfold get_posting_list at 1. rewrite Hi. specialize (Hu term).
      case_decide; cbn.
      * rewrite elem_of_union, elem_of_singleton. tauto.
      * fold (get_posting_list self term). tauto.
    + intros term. rewrite Hi. specialize (Hu term). case_decide.
      * split; [tauto | eauto].
      * tauto.
Qed.
Lemma add_document_postings_witness :
  (∃ added,
     add_document 2 ["a"; "b"]%string
       (State {["a"%string := {[1]}]} {["a"%string := 1]} true) = Done added)
  ∧ (∀ term d,
       d ∈ get_posting_list
             (State {["a"%string := {[1; 2]}; "b"%string := {[2]}]}
                    {["a"%string := 2; "b"%string := 1]} true) term
       ↔ (d = 2 ∧ term ∈ ["a"; "b"]%string)
         ∨ d ∈ get_posting_list
                 (State {["a"%string := {[1]}]} {["a"%string := 1]} true) term).
Proof.
  pose proof (add_document_postings 2 ["a"; "b"]%string
                (State {["a"%string := {[1]}]} {["a"%string := 1]} true))
    as [Hreturns Hpostings].
  split.
  - apply Hreturns. reflexivity.
  - apply (Hpostings (State {["a"%string := {[1; 2]}; "b"%string := {[2]}]}
                            {["a"%string := 2; "b"%string := 1]} true)).
    vm_compute. reflexivity.
Defined.

Lemma size_one_singleton (doc_id : Z) (doc_ids : gset Z) :
  doc_id ∈ doc_ids → (Z.of_nat (size doc_ids) = 1 ↔ doc_ids = {[doc_id]}).
Proof.
  intros Hin. split.
  - intros Hsize. assert (size doc_ids = 1%nat) as Hs by lia.
    apply size_1_elem_of in Hs as [x Hx]. apply leibniz_equiv in Hx. set_solver.
  - intros ->. by rewrite size_singleton.
Qed.
(** On a consistent index [remove_document] takes the identifier out of every
    posting set and drops the terms it was alone in. *)
Lemma remove_document_sets doc_id self :
  doc_freq_consistent self →
  ∃ removed,
    remove_document doc_id self = Done removed
    ∧ doc_freq_consistent removed
    ∧ (∀ term, index removed !! term
               = match index self !! term with
                 | Some doc_ids =>
                     if decide (doc_ids = {[doc_id]}) then None
                     else Some (doc_ids ∖ {[doc_id]})
                 | None => None
                 end)
    ∧ index_is_defaultdict removed = index_is_defaultdict self.
Proof.
  intros Hc.
  destruct (remove_document_consistent doc_id self Hc) as (removed & Hrun & Hc').
  destruct (remove_document_Done doc_id self) as (removed' & Hrun' & Hi & _ & Hflag).
  { intros term doc_ids Hterm _. rewrite Hc, Hterm. cbn. eauto. }
  assert (removed' = removed) as -> by congruence.
  exists removed. split_and!; [done | done | | done].
  intros term. rewrite Hi.
  destruct (index self !! term) as [doc_ids |] eqn:Hterm; [| done].
  destruct (decide (doc_id ∈ doc_ids)) as [Hin | Hnin].
  - assert (Hone : doc_freq self !! term = Some 1 ↔ doc_ids = {[doc_id]}).
    { rewrite Hc, Hterm. cbn. rewrite <- (size_one_singleton doc_id doc_ids Hin).
      split; [by intros [= ->] | by intros ->]. }
    destruct (decide (doc_freq self !! term = Some 1)), (decide (doc_ids = {[doc_id]}));
      tauto.
  - rewrite decide_False by set_solver. f_equal. set_solver.
Qed.
Lemma remove_document_absent_id doc_id self :
  (∀ term doc_ids, index self !! term = Some doc_ids → doc_id ∉ doc_ids) →
  remove_document doc_id self = Done self.
Proof.
  intros Hnot.
  destruct (remove_document_Done doc_id self) as (removed & Hrun & Hi & Hd & Hflag).
  { intros term doc_ids Hterm Hin. by destruct (Hnot _ _ Hterm). }
  rewrite Hrun. f_equal. apply state_eq; [| | done].
  - apply map_eq. intros term. rewrite Hi.
    destruct (index self !! term) as [doc_ids |] eqn:Hterm; [| done].
    by rewrite decide_False by by eapply Hnot.
  - apply map_eq. intros term. rewrite Hd.
    destruct (index self !! term) as [doc_ids |] eqn:Hterm; [| done].
    by rewrite decide_False by by eapply Hnot.
Qed.
(** X4.  On an index whose document frequencies are the sizes of its posting
    sets, [remove_document] returns; the identifier is taken out of every
    posting set and nothing else changes in them; a term stays in the index
    unless the removed document was the only one under it, and the removal
    leaves no empty posting set behind. *)
Theorem remove_document_postings (doc_id : Z) (self : state) :
  doc_freq_consistent self →
  ∃ removed,
    remove_document doc_id self = Done removed
    ∧ (∀ term d, d ∈ get_posting_list removed term
                 ↔ d ≠ doc_id ∧ d ∈ get_posting_list self term)
    ∧ (∀ term, index removed !! term = Some ∅ → index self !! term = Some ∅)
    ∧ (∀ term, is_Some (index removed !! term)
               ↔ ∃ doc_ids, index self !! term = Some doc_ids ∧ doc_ids ≠ {[doc_id]}).
Proof.
  intros Hc.
  destruct (remove_document_sets doc_id self Hc) as (removed & Hrun & _ & Hi & _).
  exists removed. split; [done |]. split_and!.
  - intros term d. unfold get_posting_list. rewrite Hi.
    destruct (index self !! term) as [doc_ids |]; cbn; [| set_solver].
    destruct (decide (doc_ids = {[doc_id]})) as [-> | Hne]; cbn; set_solver.
  - intros term. rewrite Hi.
    destruct (index self !! term) as [doc_ids |]; [| done].
    destruct (decide (doc_ids = {[doc_id]})) as [-> | Hne]; [done |].
    intros [= Hempty]. f_equal. apply set_eq. intros x. split; [| set_solver].
    intros Hx. destruct (decide (x = doc_id)) as [-> | Hx'].
    + destruct Hne. apply set_eq. intros y. rewrite elem_of_singleton.
      split; [| by intros ->]. intros Hy.
      destruct (decide (y = doc_id)) as [| Hy']; [done |].
      assert (Hdiff : y ∈ doc_ids ∖ {[doc_id]}) by set_solver.
      rewrite Hempty in Hdiff. set_solver.
    + assert (Hdiff : x ∈ doc_ids ∖ {[doc_id]}) by set_solver.
      by rewrite Hempty in Hdiff.
  - intros term. rewrite Hi.
    destruct (index self !! term) as [doc_ids |].
    + destruct (decide (doc_ids = {[doc_id]})) as [-> | Hne].
      * split; [by intros [? ?] |]. intros (ids & [= <-] & Hne). done.
      * split; eauto.
    + split; [by intros [? ?] | by intros (? & ? & _)].
Qed.
Lemma remove_document_postings_witness :
  ∃ removed,
    remove_document 2
      (State {["a"%string := {[1; 2]}; "b"%string := {[2]}]}
             {["a"%string := 2; "b"%string := 1]} true) = Done removed
    ∧ (∀ term d,
         d ∈ get_posting_list removed term
         ↔ d ≠ 2
           ∧ d ∈ get_posting_list
                   (State {["a"%string := {[1; 2]}; "b"%string := {[2]}]}
                          {["a"%string := 2; "b"%string := 1]} true) term)
    ∧ (∀ term, index removed !! term = Some ∅ →
         index (State {["a"%string := {[1; 2]}; "b"%string := {[2]}]}
                      {["a"%string := 2; "b"%string := 1]} true) !! term = Some ∅)
    ∧ (∀ term,
         is_Some (index removed !! term)
         ↔ ∃ doc_ids,
             index (State {["a"%string := {[1; 2]}; "b"%string := {[2]}]}
                          {["a"%string := 2; "b"%string := 1]} true) !! term
             = Some doc_ids
             ∧ doc_ids ≠ {[2]}).
Proof.
  apply (remove_document_postings 2
           (State {["a"%string := {[1; 2]}; "b"%string := {[2]}]}
                  {["a"%string := 2; "b"%string := 1]} true)).
  apply doc_freq_consistent_sizes. vm_compute. reflexivity.
Defined.

(** X5.  Removing a document that is in no posting set changes nothing, and
    on a consistent index removing a document a second time changes nothing
    more. *)
Theorem remove_document_absent (doc_id : Z) (self : state) :
  ((∀ term, doc_id ∉ get_posting_list self term) →
   remove_document doc_id self = Done self)
  ∧ (doc_freq_consistent self →
     ∀ removed, remove_document doc_id self = Done removed →
                remove_document doc_id removed = Done removed).
Proof.
  split.
  - intros Habsent. apply remove_document_absent_id.
    intros term doc_ids Hterm. specialize (Habsent term).
    unfold get_posting_list in Habsent. by rewrite Hterm in Habsent.
  - intros Hc removed Hrun.
    destruct (remove_document_sets doc_id self Hc) as (removed' & Hrun' & _ & Hi & _).
    assert (removed' = removed) as -> by congruence.
    apply remove_document_absent_id. intros term doc_ids. rewrite Hi.
    destruct (index self !! term) as [ids |]; [| done].
    destruct (decide _); [done |]. intros [= <-]. set_solver.
Qed.
Lemma remove_document_absent_witness :
  remove_document 3 (State {["b"%string := {[4]}]} {["b"%string := 1]} false)
  = Done (State {["b"%string := {[4]}]} {["b"%string := 1]} false)
  ∧ remove_document 2 (State {["a"%string := {[1]}]} {["a"%string := 1]} true)
    = Done (State {["a"%string := {[1]}]} {["a"%string := 1]} true).
Proof.
  split.
  - apply (proj1 (remove_document_absent 3
                    (State {["b"%string := {[4]}]} {["b"%string := 1]} false))).
    intros term. unfold get_posting_list. cbn [index].
    destruct (decide (term = "b"%string)) as [-> | Hne].
    + rewrite lookup_singleton_eq. cbn. set_solver.
    + rewrite lookup_singleton_ne by done. cbn. set_solver.
  - apply (proj2 (remove_document_absent 2
                    (State {["a"%string := {[1; 2]}; "b"%string := {[2]}]}
                           {["a"%string := 2; "b"%string := 1]} true))).
    + apply doc_freq_consistent_sizes. vm_compute. reflexivity.
    + vm_compute. reflexivity.
Defined.

(** X6.  On a consistent [defaultdict] index [update_document] returns a
    consistent index in which the document is under exactly the new tokens,
    and the postings of the other documents are as before. *)
Theorem update_document_postings (doc_id : Z) (new_tokens : list string)
    (self : state) :
  doc_freq_consistent self →
  index_is_defaultdict self = true →
  ∃ updated,
    update_document doc_id new_tokens self = Done updated
    ∧ doc_freq_consistent updated
    ∧ (∀ term d, d ∈ get_posting_list updated term
                 ↔ (d = doc_id ∧ term ∈ new_tokens)
                   ∨ (d ≠ doc_id ∧ d ∈ get_posting_list self term)).
Proof.
  intros Hc Hflag.
  destruct (remove_document_sets doc_id self Hc) as (removed & Hrun & Hc' & Hi & Hflag').
  assert (Hgone : ∀ term d, d ∈ get_posting_list removed term
                            ↔ d ≠ doc_id ∧ d ∈ get_posting_list self term).
  { intros term d. unfold get_posting_list. rewrite Hi.
    destruct (index self !! term) as [doc_ids |]; cbn; [| set_solver].
    destruct (decide (doc_ids = {[doc_id]})) as [-> | Hne]; cbn; set_solver. }
  destruct (for_each_post_defaultdict doc_id (unique_tokens new_tokens) removed)
    as (updated & Hadd & _); [congruence |].
  exists updated. unfold update_document. rewrite Hrun. cbn [mbind outcome_bind].
  unfold add_document. split_and!; [done | |].
  - eapply for_each_post_consistent; [apply NoDup_unique_tokens | done | | done].
    intros token _ Hin. apply Hgone in Hin. tauto.
  - destruct (for_each_post_Done _ _ (NoDup_unique_tokens new_tokens) _ _ Hadd)
      as (Hi2 & _ & _).
    intros term d. unfold get_posting_list at 1. rewrite Hi2.
    pose proof (elem_of_unique_tokens term new_tokens) as Hu.
    case_decide; cbn.
    + rewrite elem_of_union, elem_of_singleton, Hgone. tauto.
    + fold (get_posting_list removed term). rewrite Hgone.
      split; [tauto |]. intros [[_ ?] | ?]; tauto.
Qed.
Lemma update_document_postings_witness :
  ∃ updated,
    update_document 2 ["c"%string]
      (State {["a"%string := {[1; 2]}; "b"%string := {[2]}]}
             {["a"%string := 2; "b"%string := 1]} true) = Done updated
    ∧ doc_freq_consistent updated
    ∧ (∀ term d,
         d ∈ get_posting_list updated term
         ↔ (d = 2 ∧ term ∈ ["c"%string])
           ∨ (d ≠ 2
              ∧ d ∈ get_posting_list
                      (State {["a"%string := {[1; 2]}; "b"%string := {[2]}]}
                             {["a"%string := 2; "b"%string := 1]} true) term)).
Proof.
  apply (update_document_postings 2 ["c"%string]
           (State {["a"%string := {[1; 2]}; "b"%string := {[2]}]}
                  {["a"%string := 2; "b"%string := 1]} true)).
  - apply doc_freq_consistent_sizes. vm_compute. reflexivity.
  - reflexivity.
Defined.

(** X7.  On a plain [dict] index (as [load_index] leaves it) in which every
    term that lists the document has a recorded frequency, [update_document]
    raises [KeyError] for one of the new tokens as soon as one of them is not
    a term of the index once the document is removed: a term that was
    absent, or a term that lists the document and whose recorded frequency
    is 1.  It returns when no new token is such a term. *)
Theorem update_document_plain_dict (doc_id : Z) (new_tokens : list string)
    (self : state) :
  index_is_defaultdict self = false →
  (∀ term doc_ids, index self !! term = Some doc_ids → doc_id ∈ doc_ids →
                   is_Some (doc_freq self !! term)) →
  ((∃ token, token ∈ new_tokens
             ∧ (index self !! token = None
                ∨ ∃ doc_ids, index self !! token = Some doc_ids
                             ∧ doc_id ∈ doc_ids
                             ∧ doc_freq self !! token = Some 1)) →
   ∃ missing, missing ∈ new_tokens
              ∧ update_document doc_id new_tokens self = Raise (KeyError (inl missing)))
  ∧ ((∀ token, token ∈ new_tokens →
        ∃ doc_ids, index self !! token = Some doc_ids
                   ∧ (doc_id ∈ doc_ids → doc_freq self !! token ≠ Some 1)) →
     ∃ updated, update_document doc_id new_tokens self = Done updated).
Proof.
  intros Hflag Hfreq.
  destruct (remove_document_Done doc_id self Hfreq) as (removed & Hrun & Hi & _ & Hflag').
  unfold update_document. rewrite Hrun. cbn [mbind outcome_bind]. unfold add_document.
  split.
  - intros (token & Htoken & Hcase).
    assert (Hnone : index removed !! token = None).
    { rewrite Hi. destruct Hcase as [-> | (doc_ids & -> & Hin & Hone)]; [done |].
      by rewrite decide_True, decide_True. }
    destruct (for_each_post_plain_missing doc_id (unique_tokens new_tokens) removed)
      as [e He]; [congruence | |].
    { exists token. split; [by apply elem_of_unique_tokens | done]. }
    destruct (for_each_post_Raise _ _ _ _ He) as (_ & missing & -> & Hmissing & _).
    exists missing. split; [by apply elem_of_unique_tokens | done].
  - intros Hstay. apply for_each_post_present.
    intros token Htoken. apply (proj1 (elem_of_unique_tokens _ _)) in Htoken.
    destruct (Hstay token Htoken) as (doc_ids & Hterm & Hkeep).
    rewrite Hi, Hterm. destruct (decide (doc_id ∈ doc_ids)) as [Hin | Hnin]; [| eauto].
    rewrite decide_False by by apply Hkeep. eauto.
Qed.

Lemma update_document_plain_dict_witness :
  (∃ missing,
     missing ∈ ["a"%string]
     ∧ update_document 1 ["a"%string]
         (State {["a"%string := {[1]}]} {["a"%string := 1]} false)
       = Raise (KeyError (inl missing)))
  ∧ (∃ updated,
       update_document 1 ["a"%string] (load_index {["a"%string := [1; 1]]} init)
       = Done updated).
Proof.
  split.
  - apply (proj1 (update_document_plain_dict 1 ["a"%string]
                    (State {["a"%string := {[1]}]} {["a"%string := 1]} false)
                    eq_refl
                    ltac:(intros term doc_ids Hterm _; cbn [index doc_freq] in *;
                          apply lookup_singleton_Some in Hterm as [<- <-];
                          by rewrite lookup_singleton_eq))).
    exists "a"%string. split; [left |]. right. exists {[1]}.
    split_and!; [vm_compute; reflexivity | set_solver | vm_compute; reflexivity].
  - apply (proj2 (update_document_plain_dict 1 ["a"%string]
                    (load_index {["a"%string := [1; 1]]} init)
                    eq_refl
                    ltac:(intros term doc_ids Hterm _;
                          cbn [load_index index doc_freq] in *;
                          apply lookup_fmap_Some in Hterm as (stored & _ & Hstored);
                          rewrite lookup_fmap, Hstored; eauto))).
    intros token ->%list_elem_of_singleton. exists {[1]}.
    split; [vm_compute; reflexivity |]. intros _. vm_compute. discriminate.
Defined.

Lemma merge_term_Done term doc_ids self own :
  getitem self term = Done own →
  merge_term (term, doc_ids) self
  = Done (State (<[term := own ∪ doc_ids]> (index self))
                (<[term := Z.of_nat (size (own ∪ doc_ids))]> (doc_freq self))
                (index_is_defaultdict self)).
Proof. intros Hget. unfold merge_term. by rewrite Hget. Qed.
(** Effect of the loop of [merge_indexes]. *)
Lemma merge_loop_Done items :
  ∀ self, NoDup items.*1 →
  (index_is_defaultdict self = true
   ∨ ∀ term doc_ids, (term, doc_ids) ∈ items → is_Some (index self !! term)) →
  ∃ merged,
    for_each merge_term items self = Done merged
    ∧ (∀ term, index merged !! term
               = match (list_to_map items : gmap string (gset Z)) !! term with
                 | Some doc_ids => Some (get_posting_list self term ∪ doc_ids)
                 | None => index self !! term
                 end)
    ∧ (∀ term, doc_freq merged !! term
               = match (list_to_map items : gmap string (gset Z)) !! term with
                 | Some doc_ids =>
                     Some (Z.of_nat (size (get_posting_list self term ∪ doc_ids)))
                 | None => doc_freq self !! term
                 end)
    ∧ index_is_defaultdict merged = index_is_defaultdict self.
Proof.
  induction items as [| [term0 ids0] items IH]; intros self Hnd Hok.
  - exists self. cbn. split_and!; done.
  - cbn in Hnd. apply NoDup_cons in Hnd as [Hnotin Hnd].
    assert (Hnone : (list_to_map items : gmap string (gset Z)) !! term0 = None)
      by by apply not_elem_of_list_to_map_1.
    assert (Hget : getitem self term0 = Done (get_posting_list self term0)).
    { unfold getitem, get_posting_list.
      destruct (index self !! term0) as [own |] eqn:Hown; [done |].
      destruct Hok as [-> | Hpresent]; [done |].
      destruct (Hpresent term0 ids0 ltac:(left)) as [? ?]. congruence. }
    cbn [for_each]. rewrite (merge_term_Done _ _ _ _ Hget). cbn [mbind outcome_bind].
    set (self1 := State _ _ _).
    destruct (IH self1 Hnd) as (merged & Hrun & Hi & Hd & Hflag).
    { destruct Hok as [Hflag | Hpresent]; [by left | right].
      intros term doc_ids Hin. unfold self1. cbn.
      destruct (decide (term0 = term)) as [-> | Hne].
      - rewrite lookup_insert_eq. eauto.
      - rewrite lookup_insert_ne by done. eapply Hpresent. by right. }
    exists merged. split_and!; [done | | | done].
    + intros term. rewrite Hi. cbn. destruct (decide (term0 = term)) as [<- | Hne].
      * by rewrite Hnone, !lookup_insert_eq.
      * rewrite !lookup_insert_ne by done. unfold get_posting_list. cbn.
        by rewrite lookup_insert_ne by done.
    + intros term. rewrite Hd. cbn. destruct (decide (term0 = term)) as [<- | Hne].
      * by rewrite Hnone, !lookup_insert_eq.
      * rewrite !lookup_insert_ne by done. unfold get_posting_list. cbn.
        by rewrite lookup_insert_ne by done.
Qed.
(** X8.  [merge_indexes] returns when the index is a [defaultdict] or already
    holds every term of the other index.  The posting set of a term is then
    the union of the two posting sets, the stored terms are those of either
    index, the document frequency of a term of the other index is the size of
    the union, and the frequency of any other term is untouched. *)
Theorem merge_indexes_postings (other_index : gmap string (gset Z)) (self : state) :
  (index_is_defaultdict self = true
   ∨ ∀ term, is_Some (other_index !! term) → is_Some (index self !! term)) →
  ∃ merged,
    merge_indexes other_index self = Done merged
    ∧ (∀ term, get_posting_list merged term
               = get_posting_list self term ∪ default ∅ (other_index !! term))
    ∧ (∀ term, is_Some (index merged !! term)
               ↔ is_Some (index self !! term) ∨ is_Some (other_index !! term))
    ∧ (∀ term doc_ids, other_index !! term = Some doc_ids →
         doc_freq merged !! term
         = Some (Z.of_nat (size (get_posting_list self term ∪ doc_ids))))
    ∧ (∀ term, other_index !! term = None →
         doc_freq merged !! term = doc_freq self !! term).
Proof.
  intros Hok. unfold merge_indexes.
  destruct (merge_loop_Done (map_to_list other_index) self) as (merged & Hrun & Hi & Hd & _).
  { apply NoDup_fst_map_to_list. }
  { destruct Hok as [Hflag | Hpresent]; [by left | right].
    intros term doc_ids Hin%elem_of_map_to_list. apply Hpresent. eauto. }
  rewrite list_to_map_to_list in Hi, Hd.
  exists merged. split; [done |]. split_and!.
  - intros term. unfold get_posting_list at 1. rewrite Hi.
    destruct (other_index !! term); cbn; [done |].
    unfold get_posting_list. set_solver.
  - intros term. rewrite Hi. destruct (other_index !! term); split; eauto.
    + intros [? | [? ?]]; [done | done].
  - intros term doc_ids Hother. by rewrite Hd, Hother.
  - intros term Hother. by rewrite Hd, Hother.
Qed.
Lemma merge_indexes_postings_witness :
  ∃ merged,
    merge_indexes {["a"%string := {[2]}]}
      (State {["a"%string := {[1]}]} {["a"%string := 1]} true) = Done merged
    ∧ (∀ term,
         get_posting_list merged term
         = get_posting_list (State {["a"%string := {[1]}]} {["a"%string := 1]} true) term
           ∪ default ∅ (({["a"%string := {[2]}]} : gmap string (gset Z)) !! term))
    ∧ (∀ term,
         is_Some (index merged !! term)
         ↔ is_Some (index (State {["a"%string := {[1]}]} {["a"%string := 1]} true) !! term)
           ∨ is_Some (({["a"%string := {[2]}]} : gmap string (gset Z)) !! term))
    ∧ (∀ term doc_ids,
         ({["a"%string := {[2]}]} : gmap string (gset Z)) !! term = Some doc_ids →
         doc_freq merged !! term
         = Some (Z.of_nat (size (get_posting_list
                             (State {["a"%string := {[1]}]} {["a"%string := 1]} true) term
                           ∪ doc_ids))))
    ∧ (∀ term,
         ({["a"%string := {[2]}]} : gmap string (gset Z)) !! term = None →
         doc_freq merged !! term
         = doc_freq (State {["a"%string := {[1]}]} {["a"%string := 1]} true) !! term).
Proof.
  apply (merge_indexes_postings {["a"%string := {[2]}]}
           (State {["a"%string := {[1]}]} {["a"%string := 1]} true)).
  left. reflexivity.
Defined.

(** X9.  The index that [load_index] reads has document frequencies equal to
    the sizes of its posting sets exactly when no list of the file repeats an
    identifier. *)
Theorem load_index_consistent (index_dict : gmap string (list Z)) (self : state) :
  doc_freq_consistent (load_index index_dict self)
  ↔ ∀ term doc_ids, index_dict !! term = Some doc_ids → NoDup doc_ids.
Proof.
  unfold doc_freq_consistent, load_index. cbn. split.
  - intros Hc term doc_ids Hterm. specialize (Hc term).
    rewrite !lookup_fmap, Hterm in Hc. cbn in Hc. injection Hc as Hc.
    apply size_list_to_set_NoDup. lia.
  - intros Hnd term. rewrite !lookup_fmap.
    destruct (index_dict !! term) as [doc_ids |] eqn:Hterm; cbn; [| done].
    do 2 f_equal. symmetry. apply size_list_to_set_NoDup. by eapply Hnd.
Qed.
Lemma load_index_consistent_witness :
  doc_freq_consistent (load_index {["a"%string := [1; 2]]} init).
Proof.
  apply (load_index_consistent {["a"%string := [1; 2]]} init).
  intros term doc_ids [_ <-]%lookup_singleton_Some.
  apply (bool_decide_unpack _). vm_compute. reflexivity.
Defined.

(** X10.  [save_index] writes the terms of the index and no other, and the
    list written for a term is strictly increasing and holds exactly the
    identifiers of the posting set. *)
Theorem save_index_sorted (self : state) (term : string) :
  (save_index self !! term = None ↔ index self !! term = None)
  ∧ ∀ stored, save_index self !! term = Some stored →
      StronglySorted Z.lt stored
      ∧ ∃ doc_ids, index self !! term = Some doc_ids
                   ∧ length stored = size doc_ids
                   ∧ ∀ d, d ∈ stored ↔ d ∈ doc_ids.
Proof.
  unfold save_index. rewrite lookup_fmap. split.
  - by rewrite fmap_None.
  - intros stored. destruct (index self !! term) as [doc_ids |]; cbn; [| done].
    intros [= <-]. split.
    + apply CompressedIndexFacts.StronglySorted_le_NoDup_lt.
      * apply (StronglySorted_merge_sort Z.le).
      * rewrite sorted_Permutation. apply NoDup_elements.
    + exists doc_ids. split_and!; [done | |].
      * by rewrite sorted_Permutation.
      * intros d. by rewrite sorted_Permutation, elem_of_elements.
Qed.

Lemma save_index_sorted_witness :
  StronglySorted Z.lt [1; 2]
  ∧ ∃ doc_ids,
      index (State {["a"%string := {[2; 1]}]} {["a"%string := 2]} true) !! "a"%string
      = Some doc_ids
      ∧ length [1; 2] = size doc_ids
      ∧ ∀ d, d ∈ [1; 2] ↔ d ∈ doc_ids.
Proof.
  apply (proj2 (save_index_sorted
                  (State {["a"%string := {[2; 1]}]} {["a"%string := 2]} true)
                  "a"%string)).
  vm_compute. reflexivity.
Defined.

(** X11.  [search] of the index returns the documents that are in the posting
    set of every token of the processed query, and no document when the
    processed query is empty. *)
Theorem search_all_tokens (self : state) (query : string)
    (processor : string → list string) (d : Z) :
  d ∈ search self query processor
  ↔ processor query ≠ []
    ∧ ∀ token, token ∈ processor query → d ∈ get_posting_list self token.
Proof.
  unfold search. destruct (processor query) as [| first rest].
  - split; [set_solver | by intros [? _]].
  - rewrite foldl_intersection. split.
    + intros [Hfirst Hrest]. split; [done |].
      intros t [-> | Hin]%elem_of_cons; [done | by apply Hrest].
    + intros [_ Hall]. split; [apply Hall; left |].
      intros t Ht. apply Hall. by right.
Qed.
End IndexPostings.

(** ** Compression *)

Module CompressedIndexMore.
Import CompressedIndex CompressedIndexFacts.

(** X12.  [compress_index] keeps the terms of the index.  With the method
    ['gap'], decoding what is stored under a term gives back the sorted
    identifiers of its posting set, hence the set; with any other method the
    sorted identifiers are stored as they are. *)
Theorem compress_index_restores (index : gmap string (gset Z)) (method : string) :
  (∀ term, is_Some (compress_index index method !! term) ↔ is_Some (index !! term))
  ∧ (method = "gap"%string →
     ∀ term gaps, compress_index index method !! term = Some gaps →
       ∃ doc_ids, index !! term = Some doc_ids
                  ∧ decompress_gap_encoding gaps = sorted (elements doc_ids)
                  ∧ list_to_set (decompress_gap_encoding gaps) = doc_ids)
  ∧ (method ≠ "gap"%string →
     ∀ term stored, compress_index index method !! term = Some stored →
       ∃ doc_ids, index !! term = Some doc_ids
                  ∧ stored = sorted (elements doc_ids)).
Proof.
  unfold compress_index. split_and!.
  - intros term. rewrite lookup_fmap. by rewrite fmap_is_Some.
  - intros -> term gaps. rewrite lookup_fmap.
    destruct (index !! term) as [doc_ids |]; cbn; [| done].
    rewrite decide_True by done. intros [= <-]. exists doc_ids.
    rewrite gap_round_trip_sorted, sorted_sorted. split_and!; [done | done |].
    apply set_eq. intros d.
    by rewrite elem_of_list_to_set, IndexFacts.sorted_Permutation, elem_of_elements.
  - intros Hne term stored. rewrite lookup_fmap.
    destruct (index !! term) as [doc_ids |]; cbn; [| done].
    rewrite decide_False by done. intros [= <-]. eauto.
Qed.
Lemma compress_index_restores_witness :
  ∃ doc_ids,
    ({["a"%string := {[5; 1; 3]}]} : gmap string (gset Z)) !! "a"%string = Some doc_ids
    ∧ decompress_gap_encoding [1; 2; 2] = sorted (elements doc_ids)
    ∧ list_to_set (decompress_gap_encoding [1; 2; 2]) = doc_ids.
Proof.
  pose proof (compress_index_restores {["a"%string := {[5; 1; 3]}]} "gap"%string)
    as (_ & Hgap & _).
  apply (Hgap eq_refl "a"%string [1; 2; 2]).
  vm_compute. reflexivity.
Defined.

Lemma variable_byte_loop_chunks_app n rest :
  0 ≤ n → ∀ acc shift, 0 ≤ shift →
  variable_byte_loop (variable_byte_chunks n ++ rest) acc shift = acc + n * 2 ^ shift.
Proof.
  intros Hn. pattern n. revert n Hn. apply Wf_Z.Zlt_0_ind.
  intros n IH Hn acc shift Hshift.
  pose proof (Z.mod_pos_bound n 128 ltac:(lia)) as Hmod.
  destruct (decide (128 ≤ n)) as [Hge | Hlt].
  - rewrite variable_byte_chunks_more by done. cbn [app variable_byte_loop].
    rewrite lor_continuation_bit by done.
    destruct (decide _) as [|_]; [lia |].
    assert (n `div` 128 < n) by (apply Z.div_lt; lia).
    assert (0 ≤ n `div` 128) by (apply Z.div_pos; lia).
    rewrite IH by lia.
    rewrite land_data_bits.
    replace ((n `mod` 128 + 128) `mod` 128) with (n `mod` 128).
    2:{ rewrite <- (Z.mul_1_l 128) at 3. rewrite Z.mod_add by lia. by rewrite Z.mod_mod by lia. }
    rewrite Z.shiftl_mul_pow2 by lia.
    rewrite Z.pow_add_r by lia.
    rewrite (Z.div_mod n 128) at 3 by lia. change (2^7) with 128. ring.
  - rewrite variable_byte_chunks_last by lia. cbn [app variable_byte_loop].
    rewrite Z.mod_small by lia.
    destruct (decide _); [| lia].
    rewrite land_data_bits, Z.mod_small by lia.
    by rewrite Z.shiftl_mul_pow2 by lia.
Qed.
Lemma variable_byte_chunks_shape n :
  0 ≤ n →
  ∃ front final,
    variable_byte_chunks n = front ++ [final]
    ∧ Forall (λ byte, 128 ≤ byte < 256) front
    ∧ 0 ≤ final < 128.
Proof.
  intros Hn. pattern n. revert n Hn. apply Wf_Z.Zlt_0_ind.
  intros n IH Hn.
  pose proof (Z.mod_pos_bound n 128 ltac:(lia)) as Hmod.
  destruct (decide (128 ≤ n)) as [Hge | Hlt].
  - assert (n `div` 128 < n) by (apply Z.div_lt; lia).
    assert (0 ≤ n `div` 128) by (apply Z.div_pos; lia).
    destruct (IH (n `div` 128) ltac:(lia)) as (front & final & Heq & Hfront & Hfinal).
    exists (Z.lor (n `mod` 128) 128 :: front), final.
    rewrite variable_byte_chunks_more, Heq by done. split; [done |]. split; [| done].
    constructor; [| done]. rewrite lor_continuation_bit by done. lia.
  - exists [], (n `mod` 128). rewrite variable_byte_chunks_last by lia.
    split; [done |]. split; [constructor | lia].
Qed.
(** X13.  The encoding of a number that is not negative is a run of bytes
    with the continuation bit set followed by one byte without it, and
    [decompress_variable_byte] reads the number back from the front of any
    stream that starts with the encoding, whatever bytes follow. *)
Theorem variable_byte_self_delimiting (n : Z) (rest : list Z) :
  0 ≤ n →
  ∃ front final,
    compress_variable_byte n = Done (front ++ [final])
    ∧ Forall (λ byte, 128 ≤ byte < 256) front
    ∧ 0 ≤ final < 128
    ∧ decompress_variable_byte (front ++ [final] ++ rest) = n.
Proof.
  intros Hn. destruct (variable_byte_chunks_shape n Hn) as (front & final & Heq & Hf & Hl).
  exists front, final. unfold compress_variable_byte.
  rewrite bytes_in_range by apply variable_byte_chunks_in_range.
  rewrite Heq. split; [done |]. split; [done |]. split; [done |].
  rewrite app_assoc, <- Heq. unfold decompress_variable_byte.
  rewrite variable_byte_loop_chunks_app by lia. rewrite Z.pow_0_r. lia.
Qed.
Lemma variable_byte_self_delimiting_witness :
  ∃ front final,
    compress_variable_byte 300 = Done (front ++ [final])
    ∧ Forall (λ byte, 128 ≤ byte < 256) front
    ∧ 0 ≤ final < 128
    ∧ decompress_variable_byte (front ++ [final] ++ [7; 200]) = 300.
Proof. apply (variable_byte_self_delimiting 300 [7; 200]). lia. Defined.

Lemma variable_byte_chunks_length n :
  0 ≤ n → ∀ k : nat, n < 128 ^ Z.of_nat (S k) →
  (length (variable_byte_chunks n) ≤ S k)%nat.
Proof.
  intros Hn. pattern n. revert n Hn. apply Wf_Z.Zlt_0_ind.
  intros n IH Hn k Hk.
  destruct (decide (128 ≤ n)) as [Hge | Hlt].
  - rewrite variable_byte_chunks_more by done. cbn [length].
    assert (n `div` 128 < n) by (apply Z.div_lt; lia).
    assert (0 ≤ n `div` 128) by (apply Z.div_pos; lia).
    destruct k as [| k].
    { change (128 ^ Z.of_nat 1) with 128 in Hk. lia. }
    apply le_n_S. apply IH; [lia |].
    apply Z.div_lt_upper_bound; [lia |].
    replace (Z.of_nat (S (S k))) with (1 + Z.of_nat (S k)) in Hk by lia.
    rewrite Z.pow_add_r in Hk by lia. change (128 ^ 1) with 128 in Hk. lia.
  - rewrite variable_byte_chunks_last by lia. cbn. lia.
Qed.
(** X14.  A number below [128 ^ (k + 1)] that is not negative is encoded on
    at least one and at most [k + 1] bytes. *)
Theorem variable_byte_length (n : Z) (k : nat) :
  0 ≤ n → n < 128 ^ Z.of_nat (S k) →
  ∃ byte_data, compress_variable_byte n = Done byte_data
               ∧ (1 ≤ length byte_data ≤ S k)%nat.
Proof.
  intros Hn Hk. exists (variable_byte_chunks n). unfold compress_variable_byte.
  rewrite bytes_in_range by apply variable_byte_chunks_in_range.
  split; [done |]. split; [| by apply variable_byte_chunks_length].
  destruct (variable_byte_chunks_shape n Hn) as (front & final & -> & _).
  rewrite length_app. cbn. lia.
Qed.
Lemma variable_byte_length_witness :
  ∃ byte_data, compress_variable_byte 300 = Done byte_data
               ∧ (1 ≤ length byte_data ≤ 2)%nat.
Proof. apply (variable_byte_length 300 1); [lia | reflexivity]. Defined.

(** X15.  A negative number is encoded on the single byte [number % 128];
    decoding gives this byte, which is not the number: the round trip holds
    for no negative number. *)
Theorem variable_byte_negative (n : Z) :
  n < 0 →
  compress_variable_byte n = Done [n `mod` 128]
  ∧ decompress_variable_byte [n `mod` 128] = n `mod` 128
  ∧ decompress_variable_byte [n `mod` 128] ≠ n.
Proof.
  intros Hn. pose proof (Z.mod_pos_bound n 128 ltac:(lia)) as Hmod.
  assert (Hdecode : decompress_variable_byte [n `mod` 128] = n `mod` 128).
  { unfold decompress_variable_byte. cbn [variable_byte_loop].
    rewrite decide_True by lia.
    rewrite land_data_bits, Z.mod_mod, Z.shiftl_0_r by lia. lia. }
  split_and!; [| done | lia].
  unfold compress_variable_byte. rewrite variable_byte_chunks_last by lia.
  apply bytes_in_range. constructor; [lia | constructor].
Qed.

Lemma variable_byte_negative_witness :
  compress_variable_byte (-1) = Done [127]
  ∧ decompress_variable_byte [127] = 127
  ∧ decompress_variable_byte [127] ≠ -1.
Proof. apply (variable_byte_negative (-1)). lia. Defined.

Lemma differences_by_index (first : Z) (rest : list Z) :
  (λ i, (first :: rest) !!! i - (first :: rest) !!! (i - 1)%nat) <$> seq 1 (length rest)
  = successive_differences first rest.
Proof.
  revert first. induction rest as [| x rest IH]; intros first; [done |].
  cbn [length seq fmap list_fmap successive_differences]. f_equal.
  rewrite <- IH. rewrite <- fmap_S_seq, <- list_fmap_compose.
  apply list_fmap_ext. intros j i [-> _]%lookup_seq. cbn.
  by rewrite Nat.sub_0_r.
Qed.
Lemma differences_of_running_sums gaps :
  ∀ start, successive_differences start (running_sums start gaps) = gaps.
Proof.
  induction gaps as [| gap gaps IH]; intros start; [done |].
  cbn. rewrite IH. f_equal. lia.
Qed.
Lemma running_sums_sorted gaps :
  Forall (λ gap, 0 ≤ gap) gaps →
  ∀ start, Sorted Z.le (start :: running_sums start gaps).
Proof.
  induction 1 as [| gap gaps Hgap Hgaps IH]; intros start; cbn.
  - repeat constructor.
  - constructor; [apply IH |]. constructor. lia.
Qed.
Lemma length_running_sums gaps : ∀ start, length (running_sums start gaps) = length gaps.
Proof. induction gaps as [| gap gaps IH]; intros start; cbn; [done | by rewrite IH]. Qed.
(** X16.  A list of gaps whose gaps after the first are not negative decodes
    to the running sums of the gaps, which are in ascending order, and
    encoding the decoded list gives the gaps back. *)
Theorem gap_decoding_round_trip (first : Z) (rest : list Z) :
  Forall (λ gap, 0 ≤ gap) rest →
  decompress_gap_encoding (first :: rest) = first :: running_sums first rest
  ∧ Sorted Z.le (decompress_gap_encoding (first :: rest))
  ∧ compress_gap_encoding (decompress_gap_encoding (first :: rest)) = first :: rest.
Proof.
  intros Hrest.
  set (ids := first :: running_sums first rest).
  assert (Hgaps : first :: rest
                  = ids !!! 0%nat
                    :: ((λ i, ids !!! i - ids !!! (i - 1)%nat) <$> seq 1 (length ids - 1))).
  { unfold ids. cbn [length]. rewrite Nat.sub_succ, Nat.sub_0_r.
    rewrite differences_by_index, differences_of_running_sums. done. }
  assert (Hdecode : decompress_gap_encoding (first :: rest) = ids).
  { rewrite Hgaps. by apply decompress_gaps_of. }
  assert (Hsorted : Sorted Z.le ids) by by apply running_sums_sorted.
  rewrite Hdecode. split_and!; [done | done |].
  rewrite compress_gap_encoding_unfold by done.
  rewrite (sorted_of_Sorted ids Hsorted). by rewrite <- Hgaps.
Qed.
Lemma gap_decoding_round_trip_witness :
  decompress_gap_encoding [1; 2; 0] = 1 :: running_sums 1 [2; 0]
  ∧ Sorted Z.le (decompress_gap_encoding [1; 2; 0])
  ∧ compress_gap_encoding (decompress_gap_encoding [1; 2; 0]) = [1; 2; 0].
Proof.
  apply (gap_decoding_round_trip 1 [2; 0]).
  repeat constructor; lia.
Defined.

End CompressedIndexMore.

(** ** Boolean model *)

Module ModeleBooleenFacts.
Import ModeleBooleen.

Lemma foldl_max_ge (xs : list Z) :
  ∀ start, start ≤ foldl Z.max start xs ∧ ∀ x, x ∈ xs → x ≤ foldl Z.max start xs.
Proof.
  induction xs as [| y xs IH]; intros start; cbn.
  - split; [lia |]. intros x Hx. by apply elem_of_nil in Hx.
  - destruct (IH (Z.max start y)) as [Hs Hall]. split; [lia |].
    intros x [-> | Hx]%elem_of_cons; [lia | by apply Hall].
Qed.
Lemma py_max_ge xs m : py_max xs = Some m → ∀ x, x ∈ xs → x ≤ m.
Proof.
  destruct xs as [| y xs]; [done |]. cbn. intros [= <-].
  destruct (foldl_max_ge xs y) as [Hs Hall].
  intros x [-> | Hx]%elem_of_cons; [done | by apply Hall].
Qed.
Lemma py_max_is_Some xs : xs ≠ [] → is_Some (py_max xs).
Proof. destruct xs; [done |]. cbn. eauto. Qed.
(** No identifier of the index is above [num_docs]. *)
Lemma init_num_docs_ge index_inverse term doc_ids d :
  index_inverse !! term = Some doc_ids → d ∈ doc_ids →
  d ≤ num_docs (init index_inverse).
Proof.
  intros Hterm Hd. unfold init. cbn.
  assert (Hne : elements doc_ids ≠ []).
  { intros Hnil. apply elements_empty_inv in Hnil. apply leibniz_equiv in Hnil. set_solver. }
  destruct (py_max_is_Some _ Hne) as [m Hm].
  assert (d ≤ m) by (apply (py_max_ge _ _ Hm); by apply elem_of_elements).
  set (maxima := omap _ _).
  assert (Hin : m ∈ maxima).
  { unfold maxima. apply list_elem_of_omap. exists (term, doc_ids).
    split; [by apply elem_of_map_to_list | done]. }
  assert (Hne' : maxima ≠ []) by (intros Hnil; rewrite Hnil in Hin; by apply elem_of_nil in Hin).
  destruct (py_max_is_Some _ Hne') as [top Htop]. rewrite Htop. cbn.
  pose proof (py_max_ge _ _ Htop m Hin). lia.
Qed.
(** X17.  [search_and] returns the documents that are in the posting set of
    every term, and none for an empty list of terms. *)
Theorem search_and_all_terms (self : model) (terms : list string) (d : Z) :
  d ∈ search_and self terms
  ↔ terms ≠ [] ∧ ∀ term, term ∈ terms → d ∈ get_posting_list self term.
Proof.
  unfold search_and. destruct terms as [| first rest].
  - split; [set_solver | by intros [? _]].
  - rewrite foldl_intersection. split.
    + intros [Hfirst Hrest]. split; [done |].
      intros t [-> | Hin]%elem_of_cons; [done | by apply Hrest].
    + intros [_ Hall]. split; [apply Hall; left |].
      intros t Ht. apply Hall. by right.
Qed.
(** X18.  [search_or] returns the documents that are in the posting set of
    one of the terms at least. *)
Theorem search_or_some_term (self : model) (terms : list string) (d : Z) :
  d ∈ search_or self terms
  ↔ ∃ term, term ∈ terms ∧ d ∈ get_posting_list self term.
Proof.
  unfold search_or. destruct terms as [| first rest].
  - split; [set_solver |]. intros (t & Ht & _). by apply elem_of_nil in Ht.
  - rewrite foldl_union. split.
    + intros [Hfirst | (t & Hin & Hd)].
      * exists first. split; [left | done].
      * exists t. split; [by right | done].
    + intros (t & [-> | Hin]%elem_of_cons & Hd); [by left | right; eauto].
Qed.
(** X19.  In a model made by [__init__], [search_not] returns the identifiers
    from 1 to [num_docs] that are not in the posting set of the term.  Every
    identifier of the index that is at least 1 is therefore either returned
    or in the posting set of the term, and no document is in both
    [search_not] and [search_and] of the term. *)
Theorem search_not_complement (index_inverse : gmap string (gset Z)) (term : string) :
  let self := init index_inverse in
  (∀ d, d ∈ search_not self term
        ↔ 1 ≤ d ≤ num_docs self ∧ d ∉ get_posting_list self term)
  ∧ (∀ d other, 1 ≤ d → d ∈ get_posting_list self other →
       d ∈ search_not self term ∨ d ∈ get_posting_list self term)
  ∧ search_not self term ∩ search_and self [term] = ∅.
Proof.
  intros self.
  assert (Hnot : ∀ d, d ∈ search_not self term
                      ↔ 1 ≤ d ≤ num_docs self ∧ d ∉ get_posting_list self term).
  { intros d. unfold search_not. cbn zeta.
    rewrite elem_of_difference, elem_of_list_to_set, elem_of_seqZ. 
    split; intros [? ?]; split; (done || lia). }
  split_and!; [done | |].
  - intros d other Hpos Hd.
    destruct (decide (d ∈ get_posting_list self term)); [by right | left].
    apply Hnot. split; [| done]. split; [done |].
    unfold get_posting_list in Hd. cbn in Hd.
    destruct (index_inverse !! other) as [doc_ids |] eqn:Hother; [| set_solver].
    by eapply init_num_docs_ge.
  - apply set_eq. intros d. rewrite elem_of_intersection, Hnot. cbn. set_solver.
Qed.
Lemma search_not_complement_witness :
  2 ∈ search_not (init {["a"%string := {[1; 3]}; "b"%string := {[2]}]}) "a"%string
  ∨ 2 ∈ get_posting_list (init {["a"%string := {[1; 3]}; "b"%string := {[2]}]})
                         "a"%string.
Proof.
  pose proof (search_not_complement {["a"%string := {[1; 3]}; "b"%string := {[2]}]}
                "a"%string) as (_ & Hcovers & _).
  apply (Hcovers 2 "b"%string).
  - lia.
  - apply (bool_decide_unpack _). vm_compute. reflexivity.
Defined.

(** X20.  [get_results_ranked] of the boolean model returns, in strictly
    increasing order of identifier, the documents that are in the posting set
    of every term of the processed query, and nothing when the processed
    query is empty. *)
Theorem get_results_ranked_sorted (self : model) (query : string)
    (processor : string → list string) :
  StronglySorted Z.lt (get_results_ranked self query processor)
  ∧ ∀ d, d ∈ get_results_ranked self query processor
         ↔ processor query ≠ []
           ∧ ∀ term, term ∈ processor query → d ∈ get_posting_list self term.
Proof.
  unfold get_results_ranked. split.
  - apply CompressedIndexFacts.StronglySorted_le_NoDup_lt.
    + apply (StronglySorted_merge_sort Z.le).
    + rewrite IndexFacts.sorted_Permutation. apply NoDup_elements.
  - intros d. rewrite IndexFacts.sorted_Permutation, elem_of_elements. unfold search.
    case_bool_decide as Hq.
    + rewrite Hq. split; [set_solver | by intros [? _]].
    + unfold search_and. destruct (processor query) as [| first rest]; [done |].
      rewrite foldl_intersection. split.
      * intros [Hfirst Hrest]. split; [done |].
        intros t [-> | Hin]%elem_of_cons; [done | by apply Hrest].
      * intros [_ Hall]. split; [apply Hall; left |].
        intros t Ht. apply Hall. by right.
Qed.
End ModeleBooleenFacts.

(** ** Ranked results *)

(** X21.  [scores[:top_k]] after the sort: for [top_k >= 0] the result has
    [min(top_k, n)] items, for a negative [top_k] it drops the last [-top_k]
    items; when [top_k] is at least the number of items the result is a
    permutation of them, and in any case it holds items of the table only. *)
Theorem rank_length (items : list (Z * R)) (top_k : Z) :
  length (rank items top_k)
  = (if decide (0 ≤ top_k) then (Z.to_nat top_k `min` length items)%nat
     else Z.to_nat (Z.of_nat (length items) + top_k))
  ∧ (Z.of_nat (length items) ≤ top_k → rank items top_k ≡ₚ items)
  ∧ (∀ item, item ∈ rank items top_k → item ∈ items).
Proof.
  unfold rank, slice_to. split_and!.
  - destruct (decide (0 ≤ top_k)); rewrite length_take, length_sorted_by_score_desc; lia.
  - intros Hk. rewrite decide_True by lia.
    rewrite take_ge by (rewrite length_sorted_by_score_desc; lia).
    apply sorted_by_score_desc_Permutation.
  - intros item Hitem. rewrite <- (sorted_by_score_desc_Permutation items).
    destruct (decide (0 ≤ top_k)); by eapply subseteq_take.
Qed.
Lemma rank_length_witness :
  rank [(1, 0%R); (2, 0%R)] 5 ≡ₚ [(1, 0%R); (2, 0%R)].
Proof.
  apply (proj1 (proj2 (rank_length [(1, 0%R); (2, 0%R)] 5))).
  cbn. lia.
Defined.

Module ModeleLangueMore.
Import ModeleLangue ModeleLangueFacts.

(** X22.  When the documents have distinct identifiers and the processed
    query is not empty, [search] of the language model returns: it scores
    every document of the collection, whether or not it holds a query term,
    so that with [top_k] at least the number of documents the result lists
    every identifier once, and with [0 <= top_k] it has
    [min(top_k, number of documents)] items. *)
Theorem search_returns_every_document (index_inverse : gmap string (gset Z))
    (docs : list processed_document) (lambda : R) (query : string)
    (processor : string → list string) (top_k : Z) :
  NoDup (pd_id <$> docs) →
  processor query ≠ [] →
  ∃ results,
    search (init index_inverse docs lambda) query processor top_k = Done results
    ∧ (Z.of_nat (length docs) ≤ top_k → results.*1 ≡ₚ pd_id <$> docs)
    ∧ (0 ≤ top_k →
       length results = (Z.to_nat top_k `min` length docs)%nat).
Proof.
  intros Hnd Hq.
  set (self := init index_inverse docs lambda).
  destruct (score_table_total self (processor query) docs) with (acc := @nil (Z * R))
    as [doc_scores Hrun].
  { intros doc Hdoc. unfold self, init. cbn.
    apply count_documents_doc_lengths. right. eauto. }
  pose proof (doc_scores_order _ _ _ _ _ Hrun Hnd) as Hkeys. cbn in Hkeys.
  assert (Hlen : length doc_scores = length docs).
  { rewrite <- (length_fmap fst doc_scores), Hkeys. by rewrite length_fmap. }
  exists (rank doc_scores top_k). split_and!.
  - unfold search. rewrite bool_decide_eq_false_2 by done.
    change (documents self) with docs. rewrite Hrun. reflexivity.
  - intros Hk. unfold rank, slice_to. rewrite decide_True by lia.
    rewrite take_ge by (rewrite length_sorted_by_score_desc; lia).
    by rewrite sorted_by_score_desc_Permutation, Hkeys.
  - intros Hk. unfold rank, slice_to. rewrite decide_True by done.
    rewrite length_take, length_sorted_by_score_desc. lia.
Qed.
Lemma search_returns_every_document_witness :
  ∃ results,
    search (init ∅ low_tf_docs 0.5) "q"%string (λ _, ["a"%string]) 10 = Done results
    ∧ (Z.of_nat (length low_tf_docs) ≤ 10 → results.*1 ≡ₚ pd_id <$> low_tf_docs)
    ∧ (0 ≤ 10 → length results = (Z.to_nat 10 `min` length low_tf_docs)%nat).
Proof.
  apply (search_returns_every_document ∅ low_tf_docs 0.5 "q"%string
           (λ _, ["a"%string]) 10).
  - apply (bool_decide_unpack _). vm_compute. reflexivity.
  - discriminate.
Defined.

Lemma incr_positive `{Countable K} (k : K) (d : gmap K Z) :
  (∀ k' count, d !! k' = Some count → 1 ≤ count) →
  ∀ k' count, incr k d !! k' = Some count → 1 ≤ count.
Proof.
  intros Hd k' count. unfold incr. destruct (decide (k = k')) as [-> | Hne].
  - rewrite lookup_insert_eq. intros [= <-].
    destruct (d !! k') as [old |] eqn:Hold; cbn; [| lia].
    specialize (Hd _ _ Hold). lia.
  - rewrite lookup_insert_ne by done. apply Hd.
Qed.
Lemma count_token_positive doc_id c token :
  counts_positive c → counts_positive (count_token doc_id c token).
Proof.
  intros (Hctf & Htf & Hlen & Hcl). split_and!; cbn; [| | done | lia].
  - by apply incr_positive.
  - intros d row term count. destruct (decide (doc_id = d)) as [-> | Hne].
    + rewrite lookup_insert_eq. intros [= <-]. apply incr_positive.
      intros t v. destruct (c_tf c !! d) as [row |] eqn:Hrow; cbn; [by eapply Htf |].
      by rewrite lookup_empty.
    + rewrite lookup_insert_ne by done. apply Htf.
Qed.
Lemma count_tokens_positive doc_id tokens :
  ∀ c, counts_positive c → counts_positive (foldl (count_token doc_id) c tokens).
Proof.
  induction tokens as [| token tokens IH]; intros c Hc; [done |].
  cbn. apply IH. by apply count_token_positive.
Qed.
Lemma count_documents_positive docs :
  ∀ c, counts_positive c → counts_positive (foldl count_document c docs).
Proof.
  induction docs as [| doc docs IH]; intros c Hc; [done |].
  cbn. apply IH. unfold count_document. apply count_tokens_positive.
  destruct Hc as (Hctf & Htf & Hlen & Hcl). split_and!; cbn; [done | done | | done].
  intros d len. destruct (decide (pd_id doc = d)) as [-> | Hne].
  - rewrite lookup_insert_eq. intros [= <-]. lia.
  - rewrite lookup_insert_ne by done. apply Hlen.
Qed.
(** X23.  In a model made by [__init__] with [0 <= lambda < 1], the smoothed
    probability of any term in any document of the collection is positive:
    the contribution of a term is then the decimal logarithm of this
    probability, and the fallback [log10(1e-10)] of a null probability is
    never taken. *)
Theorem smoothing_floor_unused (index_inverse : gmap string (gset Z))
    (docs : list processed_document) (lambda : R)
    (doc : processed_document) (term : string) :
  (0 <= lambda < 1)%R →
  doc ∈ docs →
  let self := init index_inverse docs lambda in
  ∃ prob,
    _compute_term_probability self (pd_id doc) term = Done prob
    ∧ (0 < prob)%R
    ∧ term_contribution self (pd_id doc) term = Done (log10 prob).
Proof.
  intros Hl Hdoc self.
  destruct (count_documents_positive docs (Counts ∅ ∅ ∅ 0)) as (Hctf & Htf & Hlen & Hcl).
  { split_and!; cbn; [| | | done]; intros *; by rewrite lookup_empty. }
  destruct (count_documents_doc_lengths docs (Counts ∅ ∅ ∅ 0) (pd_id doc))
    as [doc_length Hdl]; [right; eauto |].
  set (c := foldl count_document (Counts ∅ ∅ ∅ 0) docs) in *.
  assert (Hmax : (1 <= IZR (Z.max (c_collection_length c) 1))%R) by (apply IZR_le; lia).
  assert (Hcp : (0 < default (1 / IZR (Z.max (collection_length self) 1))
                             (collection_prob self !! term))%R).
  { unfold self, init. cbn. fold c. rewrite lookup_fmap.
    destruct (c_collection_tf c !! term) as [count |] eqn:Hcount; cbn.
    - apply Rdiv_lt_0_compat; [| lra]. apply IZR_lt. specialize (Hctf _ _ Hcount). lia.
    - apply Rdiv_lt_0_compat; lra. }
  assert (Hdp : (0 <= if decide (doc_length = 0%Z) then 0
                      else IZR (tf_get self (pd_id doc) term) / IZR doc_length)%R).
  { destruct (decide (doc_length = 0)); [lra |].
    specialize (Hlen _ _ Hdl).
    apply Rmult_le_pos; [| left; apply Rinv_0_lt_compat, IZR_lt; lia].
    apply IZR_le. unfold tf_get, self, init. cbn. fold c.
    destruct (c_tf c !! pd_id doc) as [row |] eqn:Hrow; cbn.
    - destruct (row !! term) as [count |] eqn:Hcount; cbn; [| done].
      specialize (Htf _ _ _ _ Hrow Hcount). lia.
    - by rewrite lookup_empty. }
  eexists. split; [| split].
  - unfold _compute_term_probability. change (doc_lengths self) with (c_doc_lengths c).
    rewrite Hdl. reflexivity.
  - change (lambda_param self) with lambda.
    apply Rplus_le_lt_0_compat; [apply Rmult_le_pos; lra |].
    apply Rmult_lt_0_compat; lra.
  - unfold term_contribution, _compute_term_probability.
    change (doc_lengths self) with (c_doc_lengths c). rewrite Hdl.
    cbn [mbind outcome_bind]. change (lambda_param self) with lambda.
    match goal with |- context [Rlt_dec 0 ?p] =>
      assert (Hp : (0 < p)%R);
      [ apply Rplus_le_lt_0_compat; [apply Rmult_le_pos; lra |];
        apply Rmult_lt_0_compat; lra
      | destruct (Rlt_dec 0 p); [by apply math_log10_pos | done] ]
    end.
Qed.
Lemma smoothing_floor_unused_witness :
  ∃ prob,
    _compute_term_probability (init ∅ low_tf_docs 0.5) 1 "z"%string = Done prob
    ∧ (0 < prob)%R
    ∧ term_contribution (init ∅ low_tf_docs 0.5) 1 "z"%string = Done (log10 prob).
Proof.
  apply (smoothing_floor_unused ∅ low_tf_docs 0.5
           (ProcessedDocument 1 ["a"; "b"]%string) "z"%string).
  - lra.
  - left.
Defined.

End ModeleLangueMore.

Module ModeleProbabilisteMore.
Import ModeleProbabiliste ModeleProbabilisteFacts.

(** The keys of the score table of [search] are documents of the posting
    sets of the query terms. *)
Lemma score_table_keys iteration self query_terms :
  iterates iteration →
  ∀ acc doc_scores,
  for_each (λ term doc_scores,
              match index self !! term with
              | None => Done doc_scores
              | Some doc_ids =>
                  for_each (λ doc_id doc_scores,
                              score ← _compute_bm25_score self doc_id term;
                              Done (add_score doc_id score doc_scores))
                           (iteration term doc_ids) doc_scores
              end) query_terms acc = Done doc_scores →
  ∀ d, d ∈ doc_scores.*1 →
       d ∈ acc.*1 ∨ ∃ term, term ∈ query_terms ∧ d ∈ default ∅ (index self !! term).
Proof.
  intros Hiter.
  induction query_terms as [| term query_terms IH]; intros acc doc_scores.
  - cbn. intros [= <-] d Hd. by left.
  - intros (acc' & Hstep & Hrest)%for_each_Done_inv d Hd.
    assert (Hinner : ∀ d, d ∈ acc'.*1 → d ∈ acc.*1 ∨ d ∈ default ∅ (index self !! term)).
    { destruct (index self !! term) as [doc_ids |]; cbn.
      - clear Hrest Hd IH. 
        assert (Hgen : ∀ ids acc0 acc1,
                  for_each (λ doc_id doc_scores,
                              score ← _compute_bm25_score self doc_id term;
                              Done (add_score doc_id score doc_scores)) ids acc0 = Done acc1 →
                  ∀ x, x ∈ acc1.*1 → x ∈ acc0.*1 ∨ x ∈ ids).
        { induction ids as [| i ids IHi]; intros acc0 acc1.
          - cbn. intros [= <-] x Hx. by left.
          - intros (acc2 & Hs & Hr)%for_each_Done_inv x Hx.
            destruct (_compute_bm25_score self i term) as [score |]; cbn in Hs; [| done].
            injection Hs as <-.
            destruct (IHi _ _ Hr x Hx) as [Hk | Hin]; [| right; by right].
            unfold add_score in Hk. apply elem_of_dict_set_keys in Hk as [-> | Hk];
              [right; left | by left]. }
        intros x Hx. destruct (Hgen _ _ _ Hstep x Hx) as [? | Hin]; [by left | right].
        rewrite (Hiter term doc_ids) in Hin. by apply elem_of_elements.
      - injection Hstep as <-. intros x Hx. by left. }
    destruct (IH _ _ Hrest d Hd) as [Hacc' | (t & Ht & Hin)].
    + destruct (Hinner d Hacc') as [? | Hin]; [by left | right].
      exists term. split; [left | done].
    + right. exists t. split; [by right | done].
Qed.
(** The search of the term of a collection of one document. *)
Lemma one_document_search :
  ∃ score,
    search ascending_iteration (init {["a"%string := {[1]}]} one_document 1.5 0.75)
           "q"%string (λ _, ["a"%string]) 10
    = Done [(1, score)].
Proof.
  set (self := init {["a"%string := {[1]}]} one_document 1.5 0.75).
  destruct (compute_bm25_score_Done self 1 "a"%string 1 (init_well_formed _ _ _ _))
    as (idf & _ & Hscore & _).
  - unfold self, init. cbn [k1]. lra.
  - unfold self, init. cbn [b]. lra.
  - vm_compute. split; discriminate.
  - vm_compute. reflexivity.
  - eexists. unfold search. rewrite bool_decide_eq_false_2 by discriminate.
    cbn [for_each].
    assert (Hix : index self !! "a"%string = Some {[1]}) by (vm_compute; reflexivity).
    rewrite Hix.
    assert (Hel : ascending_iteration "a"%string ({[1]} : gset Z) = [1])
      by (vm_compute; reflexivity).
    rewrite Hel. cbn [for_each]. rewrite Hscore. reflexivity.
Qed.

(** X24.  Whatever the order in which the posting sets are iterated, every
    document that [search] of the BM25 model returns is in the posting set of
    one of the terms of the processed query, and [get_results_ranked] returns
    only documents of the result of [search] whose score is positive. *)
Theorem search_candidates (iteration : string → gset Z → list Z) (self : model)
    (query : string) (processor : string → list string) (top_k : Z) :
  iterates iteration →
  (∀ results, search iteration self query processor top_k = Done results →
     ∀ d score, (d, score) ∈ results →
       ∃ term, term ∈ processor query ∧ d ∈ default ∅ (index self !! term))
  ∧ (∀ ranked, get_results_ranked iteration self query processor top_k = Done ranked →
     ∀ d, d ∈ ranked →
       ∃ results score,
         search iteration self query processor top_k = Done results
         ∧ (d, score) ∈ results ∧ (0 < score)%R
         ∧ ∃ term, term ∈ processor query ∧ d ∈ default ∅ (index self !! term)).
Proof.
  intros Hiter.
  assert (Hsearch : ∀ results, search iteration self query processor top_k = Done results →
     ∀ d score, (d, score) ∈ results →
       ∃ term, term ∈ processor query ∧ d ∈ default ∅ (index self !! term)).
  { intros results. unfold search. case_bool_decide as Hq.
    - intros [= <-] d score Hin. by apply elem_of_nil in Hin.
    - destruct (for_each _ _ _) as [doc_scores |] eqn:Hrun; cbn; [| done].
      intros [= <-] d score Hin%elem_of_rank.
      destruct (score_table_keys _ _ _ Hiter _ _ Hrun d) as [Hnil | ?]; [| | done].
      + apply list_elem_of_fmap. by exists (d, score).
      + cbn in Hnil. by apply elem_of_nil in Hnil. }
  split; [done |].
  intros ranked. unfold get_results_ranked.
  destruct (search iteration self query processor top_k) as [results |] eqn:Hres; cbn; [| done].
  intros [= <-] d Hd. apply list_elem_of_omap in Hd as ([d' score] & Hin & Hpos).
  cbn in Hpos. destruct (Rlt_dec 0 score) as [Hlt |]; [| done]. injection Hpos as ->.
  exists results, score. split_and!; [done | done | done |].
  by eapply Hsearch.
Qed.

Lemma search_candidates_witness :
  ∃ term,
    term ∈ ["a"%string]
    ∧ 1 ∈ default ∅ (index (init {["a"%string := {[1]}]} one_document 1.5 0.75) !! term).
Proof.
  destruct one_document_search as [score Hsearch].
  apply (proj1 (search_candidates ascending_iteration
                  (init {["a"%string := {[1]}]} one_document 1.5 0.75)
                  "q"%string (λ _, ["a"%string]) 10 ascending_iteration_iterates)
           [(1, score)] Hsearch 1 score).
  left.
Defined.

(** X25.  In a well-formed model with [0 <= k1] and [0 <= b <= 1], the BM25
    score of a term for a document of known length is defined; it is 0 when
    the document does not hold the term, it is not negative when the term is
    in at most half of the documents, and it is negative when the term is in
    more than half of the documents and in this one. *)
Theorem bm25_score_sign (self : model) (doc_id : Z) (term : string) (doc_length : Z) :
  well_formed self →
  (0 <= k1 self)%R → (0 <= b self <= 1)%R →
  doc_lengths self !! doc_id = Some doc_length →
  ∃ score,
    _compute_bm25_score self doc_id term = Done score
    ∧ (term_frequency self doc_id term = 0 → score = 0%R)
    ∧ (2 * df_get self term ≤ num_docs self → (0 <= score)%R)
    ∧ (num_docs self < 2 * df_get self term →
       1 ≤ term_frequency self doc_id term → (score < 0)%R).
Proof.
  intros Hwf Hk Hb Hdl.
  assert (Hdf0 : 0 ≤ df_get self term).
  { destruct Hwf as ((_ & Hdfpos & _) & _). unfold df_get.
    destruct (df self !! term) as [count |] eqn:Hc; cbn; [by eapply Hdfpos | done]. }
  assert (HdfN : df_get self term ≤ num_docs self) by apply Hwf.
  destruct (compute_idf_Done self term ltac:(lia)) as (idf & Hidf & Hnonneg & Hneg).
  destruct (compute_bm25_score_Done self doc_id term doc_length Hwf Hk Hb ltac:(lia) Hdl)
    as (idf' & Hidf' & Hscore & Htf).
  assert (idf' = idf) as -> by congruence.
  eexists. split; [exact Hscore |].
  pose proof (length_normalisation_nonneg (k1 self) (b self) (avg_doc_length self)
                (IZR doc_length) Hk Hb) as HK.
  destruct Hwf as ((_ & _ & Hlen) & _). specialize (HK (IZR_le _ _ (Hlen _ _ Hdl))).
  split_and!.
  - intros ->. by rewrite decide_True.
  - intros H2. specialize (Hnonneg H2). case_decide; [lra |].
    assert (1 <= IZR (term_frequency self doc_id term))%R by (apply IZR_le; lia).
    apply Rmult_le_pos; [done |].
    apply (saturation_monotone (k1 self) _ _ _ Hk HK H0 (Rle_refl _)).
  - intros H2 H1. specialize (Hneg H2). rewrite decide_False by lia.
    assert (1 <= IZR (term_frequency self doc_id term))%R by (apply IZR_le; lia).
    set (tf := IZR (term_frequency self doc_id term)) in *.
    set (K := (k1 self * _)%R) in *.
    assert (0 < tf * (k1 self + 1) / (tf + K))%R.
    { apply Rdiv_lt_0_compat; [| lra]. apply Rmult_lt_0_compat; lra. }
    replace 0%R with (idf * 0)%R by lra.
    apply Rmult_lt_gt_compat_neg_l; done.
Qed.
Lemma bm25_score_sign_witness :
  ∃ score,
    _compute_bm25_score (init ∅ low_tf_docs 1.5 0.75) 1 "a"%string = Done score
    ∧ (term_frequency (init ∅ low_tf_docs 1.5 0.75) 1 "a"%string = 0 → score = 0%R)
    ∧ (2 * df_get (init ∅ low_tf_docs 1.5 0.75) "a"%string
       ≤ num_docs (init ∅ low_tf_docs 1.5 0.75) → (0 <= score)%R)
    ∧ (num_docs (init ∅ low_tf_docs 1.5 0.75)
       < 2 * df_get (init ∅ low_tf_docs 1.5 0.75) "a"%string →
       1 ≤ term_frequency (init ∅ low_tf_docs 1.5 0.75) 1 "a"%string →
       (score < 0)%R).
Proof.
  apply (bm25_score_sign (init ∅ low_tf_docs 1.5 0.75) 1 "a"%string 2).
  - apply init_well_formed.
  - unfold init; cbn [k1]; lra.
  - unfold init; cbn [b]; lra.
  - vm_compute; reflexivity.
Defined.

Lemma holders_count_tokens doc_id tokens term :
  ∀ c, holders (c_tf (foldl (count_token doc_id) c tokens)) term
       = holders (c_tf c) term ∪ (if decide (term ∈ tokens) then {[doc_id]} else ∅).
Proof.
  induction tokens as [| token tokens IH]; intros c.
  - cbn. rewrite decide_False by set_solver. set_solver.
  - cbn [foldl]. rewrite IH. cbn [count_token c_tf].
    destruct (decide (token = term)) as [-> | Hne].
    + rewrite holders_count_token_same. rewrite (decide_True (P := term ∈ term :: tokens))
        by left. case_decide; set_solver.
    + rewrite holders_count_token_other by done.
      destruct (decide (term ∈ tokens)).
      * by rewrite decide_True by by right.
      * by rewrite decide_False by set_solver.
Qed.
Lemma holders_count_documents docs term :
  ∀ c, holders (c_tf (foldl count_document c docs)) term
       = holders (c_tf c) term ∪ list_to_set (pd_id <$> containing term docs).
Proof.
  induction docs as [| doc docs IH]; intros c.
  - cbn. set_solver.
  - cbn [foldl]. rewrite IH. unfold count_document. rewrite holders_count_tokens.
    cbn [c_tf]. rewrite containing_cons. case_decide; cbn; set_solver.
Qed.
Lemma holders_empty term : holders ∅ term = ∅.
Proof. unfold holders. by rewrite map_filter_empty, dom_empty_L. Qed.
(** X26.  The document frequency that [__init__] of the BM25 model counts for
    a term is the number of distinct identifiers of the documents that
    contain it, which is the size of the posting set of the term in the
    index that [build_index] makes of the same documents. *)
Theorem df_is_posting_list_size (index_inverse : gmap string (gset Z))
    (docs : list processed_document) (k1 b : R) (term : string) :
  df_get (init index_inverse docs k1 b) term
  = Z.of_nat (size (list_to_set (pd_id <$> containing term docs) : gset Z))
  ∧ ∀ built, InvertedIndex.build_index docs InvertedIndex.init = Done built →
      df_get (init index_inverse docs k1 b) term
      = Z.of_nat (size (InvertedIndex.get_posting_list built term)).
Proof.
  assert (Hdf : df_get (init index_inverse docs k1 b) term
                = Z.of_nat (size (list_to_set (pd_id <$> containing term docs) : gset Z))).
  { destruct (count_documents_invariant docs (Counts ∅ ∅ ∅) 0) as (_ & Hdf & _).
    { split_and!; cbn.
      - split_and!; intros *; by rewrite lookup_empty.
      - intros t. by rewrite lookup_empty, holders_empty, size_empty.
      - done.
      - by rewrite dom_empty_L, size_empty. }
    unfold df_get, init. cbn. rewrite Hdf, holders_count_documents. cbn.
    rewrite holders_empty. do 2 f_equal. set_solver. }
  split; [done |]. intros built Hbuild. rewrite Hdf. do 2 f_equal.
  unfold InvertedIndex.build_index in Hbuild.
  destruct (IndexPostings.build_loop_Done _ _ _ Hbuild) as [Hi _].
  unfold InvertedIndex.get_posting_list. rewrite Hi. cbn.
  case_decide as Hc; cbn.
  - by rewrite Hc, lookup_empty.
  - unfold InvertedIndex.get_posting_list. cbn. rewrite lookup_empty. cbn. set_solver.
Qed.
Lemma df_is_posting_list_size_witness :
  df_get (init ∅ one_document 1.5 0.75) "a"%string
  = Z.of_nat (size (InvertedIndex.get_posting_list
                      (InvertedIndex.State {["a"%string := {[1]}]}
                                           {["a"%string := 1]} true) "a"%string)).
Proof.
  apply (proj2 (df_is_posting_list_size ∅ one_document 1.5 0.75 "a"%string)).
  vm_compute. reflexivity.
Defined.

End ModeleProbabilisteMore.

Module ModeleVectorielFacts.
Import ModeleVectoriel.

Lemma np_dot_zeros n v : np_dot (np_zeros n) v = 0%R.
Proof.
  unfold np_dot, np_zeros. revert v.
  induction n as [| n IH]; intros [| x v]; cbn; try done.
  rewrite IH. lra.
Qed.
Lemma np_linalg_norm_zeros n : np_linalg_norm (np_zeros n) = 0%R.
Proof.
  unfold np_linalg_norm, np_zeros.
  assert (foldr Rplus 0%R ((λ x, x * x)%R <$> replicate n 0%R) = 0%R) as ->.
  { induction n as [| n IH]; cbn; [done |]. rewrite IH. lra. }
  apply sqrt_0.
Qed.
Lemma query_tf_out_of_vocabulary self query_terms query_tf :
  Forall (λ term, term ∉ vocabulary self) query_terms →
  foldl (count_query_term self) query_tf query_terms = query_tf.
Proof.
  induction 1 as [| term query_terms Hterm _ IH]; [done |].
  cbn. unfold count_query_term at 2. by rewrite decide_False.
Qed.
(** X27.  When the processed query is not empty and none of its terms is in
    the vocabulary, the query vector is the zero vector; [search] then gives
    every document the score 0 and returns the first [top_k] documents in
    the order of [doc_vectors], and [get_results_ranked] returns no
    document. *)
Theorem out_of_vocabulary_query (self : model) (query : string)
    (processor : string → list string) (top_k : Z) :
  processor query ≠ [] →
  Forall (λ term, term ∉ vocabulary self) (processor query) →
  _compute_query_vector self (processor query)
    = Done (np_zeros (length (vocabulary self)))
  ∧ search self query processor top_k
    = Done (slice_to ((λ item, (item.1, 0%R)) <$> doc_vectors self) top_k)
  ∧ get_results_ranked self query processor top_k = Done [].
Proof.
  intros Hne Hout.
  assert (Hvec : _compute_query_vector self (processor query)
                 = Done (np_zeros (length (vocabulary self)))).
  { unfold _compute_query_vector. rewrite query_tf_out_of_vocabulary by done.
    cbn. rewrite np_linalg_norm_zeros.
    destruct (Rlt_dec 0 0) as [Hlt |]; [lra | done]. }
  assert (Hsearch : search self query processor top_k
    = Done (slice_to ((λ item, (item.1, 0%R)) <$> doc_vectors self) top_k)).
  { unfold search. rewrite bool_decide_false by done. rewrite Hvec. cbn.
    assert ((λ '(doc_id, doc_vector),
               (doc_id, np_dot (np_zeros (length (vocabulary self))) doc_vector))
              <$> doc_vectors self
            = (λ item, (item.1, 0%R)) <$> doc_vectors self) as ->.
    { apply list_fmap_ext. intros _ [d v] _. cbn. by rewrite np_dot_zeros. }
    unfold rank. rewrite (sorted_by_score_desc_constant 0%R); [done |].
    apply Forall_fmap, Forall_forall. by intros. }
  split_and!; [done | done |].
  unfold get_results_ranked. rewrite Hsearch. cbn. f_equal.
  apply omap_positive_scores_nil.
  assert (Hall : Forall (λ item : Z * R, item.2 = 0%R)
                        ((λ item : Z * list R, (item.1, 0%R)) <$> doc_vectors self)).
  { apply Forall_fmap, Forall_forall. by intros. }
  unfold slice_to. case_decide; by apply Forall_take.
Qed.
Lemma out_of_vocabulary_query_witness :
  _compute_query_vector
    (Model 1 ["a"%string] {["a"%string := 0%nat]} {["a"%string := 1]} [(1, [0%R])])
    ["z"%string]
  = Done (np_zeros 1)
  ∧ search
      (Model 1 ["a"%string] {["a"%string := 0%nat]} {["a"%string := 1]} [(1, [0%R])])
      "q"%string (λ _, ["z"%string]) 10
    = Done (slice_to [(1, 0%R)] 10)
  ∧ get_results_ranked
      (Model 1 ["a"%string] {["a"%string := 0%nat]} {["a"%string := 1]} [(1, [0%R])])
      "q"%string (λ _, ["z"%string]) 10
    = Done [].
Proof.
  apply (out_of_vocabulary_query
           (Model 1 ["a"%string] {["a"%string := 0%nat]} {["a"%string := 1]}
                  [(1, [0%R])])
           "q"%string (λ _, ["z"%string]) 10).
  - discriminate.
  - apply (bool_decide_unpack _). vm_compute. reflexivity.
Defined.

End ModeleVectorielFacts.
